(** * LettaBot: routing and per-agent session orchestration

    A shallow embedding of
      - [src/routing/router.ts]      (module [Router]),
      - the conversation-key resolver of [core/bot.ts] ([ConversationKey]),
      - [core/agent-instance.ts]     (module [Agent]),
    together with the properties the design document states about them.
    Part I holds the definitions, Part II the theorems.

    Conventions.  A [string | null | undefined] is an [option string] and is
    tested with [truthy].  Calls to collaborators (remote platform, channel
    adapters, file system, clock) are logged as events and answered from a
    script, so that every behaviour of the collaborators is an input.
    Console logging is left out, and so are the ticks of the typing-indicator
    timer, which are fire-and-forget; the timer's start and its clearing are
    events. *)

From Stdlib Require Import ZArith Lia List Bool Ascii String Sorted Permutation.
From stdpp Require Import base decidable option list sorting strings gmap pretty.
Import ListNotations.

(** * Part I: definitions *)

(** ** JavaScript values shared by all modules *)

(** [if (s)] on a [string | null | undefined]: only a non-empty string is
    truthy.  [None] stands for both [null] and [undefined]. *)
Definition truthy (o : option string) : bool :=
  match o with
  | Some s => negb (bool_decide (s = ""))
  | None => false
  end.

(** [if (o)] on an optional object. *)
Definition present {A : Type} (o : option A) : bool :=
  match o with
  | Some _ => true
  | None => false
  end.

(** [Array.prototype.sort(cmp)]: ECMAScript requires the sort to be stable.
    It is modelled by insertion from the right: an element only moves past
    the elements that the comparator puts strictly before it. *)
Section JsSort.
Context {A : Type} (cmp : A -> A -> Z).

Fixpoint js_insert (x : A) (l : list A) : list A :=
  match l with
  | [] => [x]
  | y :: ys => if (0 <? cmp x y)%Z then y :: js_insert x ys else x :: y :: ys
  end.

Fixpoint js_sort (l : list A) : list A :=
  match l with
  | [] => []
  | x :: xs => js_insert x (js_sort xs)
  end.

End JsSort.

(** Comparators of the shape [(a, b) => key(b) - key(a)], the order they
    sort into, and the selection of the elements of one key. *)
Section ByKey.
Context {A : Type} (key : A -> Z).

Definition by_key_desc (a b : A) : Z := (key b - key a)%Z.
Definition key_ge (a b : A) : Prop := (key b <= key a)%Z.
Definition has_key (k : Z) (a : A) : bool := (key a =? k)%Z.

End ByKey.

(** [String.prototype.toLowerCase], on the ASCII letters. *)
Definition lower_ascii (c : ascii) : ascii :=
  let n := nat_of_ascii c in
  if (65 <=? n)%nat && (n <=? 90)%nat then ascii_of_nat (n + 32) else c.

Fixpoint toLowerCase (s : string) : string :=
  match s with
  | EmptyString => EmptyString
  | String c rest => String (lower_ascii c) (toLowerCase rest)
  end.

(** * The message router *)
Module Router.

Inductive PeerKind := dm | group.

#[global] Instance PeerKind_eq_dec : EqDecision PeerKind.
Proof. solve_decision. Defined.

(** Modelled from the spec: the type [AgentBinding] of [config/types.ts] is
    imported by the router but its declaration is not part of the sources;
    the design document gives it as
    [{agentId, match: {channel, accountId?, peer?: {kind: dm|group, id}}}]. *)
Record PeerMatch := { p_kind : PeerKind; p_id : string }.
Record BindingMatch := {
  m_channel : string;
  m_accountId : option string;
  m_peer : option PeerMatch }.
Record AgentBinding := { agentId : string; match_ : BindingMatch }.

Record RoutingContext := {
  channel : string;
  accountId : option string;
  peerId : option string;
  peerKind : option PeerKind }.

Inductive MatchLevel := peer | account | channel_level | default.

Record RoutingResult := {
  r_agentId : string;
  matchedBinding : option AgentBinding;
  matchLevel : MatchLevel }.

#[global] Instance PeerMatch_eq_dec : EqDecision PeerMatch.
Proof. solve_decision. Defined.
#[global] Instance BindingMatch_eq_dec : EqDecision BindingMatch.
Proof. solve_decision. Defined.
#[global] Instance AgentBinding_eq_dec : EqDecision AgentBinding.
Proof. solve_decision. Defined.

(** [getMatchLevel]: [None] is the source's [null]. *)
Definition getMatchLevel (binding : AgentBinding) (ctx : RoutingContext)
  : option MatchLevel :=
  let m := match_ binding in
  if negb (String.eqb (m_channel m) (channel ctx)) then None
  else match m_peer m with
       | Some p =>
           if negb (truthy (peerId ctx)) || negb (present (peerKind ctx))
           then None
           else if negb (bool_decide (Some (p_kind p) = peerKind ctx)) then None
           else if negb (bool_decide (Some (p_id p) = peerId ctx)) then None
           else if truthy (m_accountId m)
                   && negb (bool_decide (m_accountId m = accountId ctx))
           then None
           else Some peer
       | None =>
           if truthy (m_accountId m)
           then if negb (bool_decide (m_accountId m = accountId ctx))
                then None else Some account
           else Some channel_level
       end.

Definition getSpecificityScore (binding : AgentBinding) : Z :=
  let score := 0%Z in
  let score := if present (m_peer (match_ binding)) then (score + 100)%Z else score in
  let score := if truthy (m_accountId (match_ binding)) then (score + 10)%Z else score in
  (score + 1)%Z.

Definition sortBySpecificity (bindings : list AgentBinding) : list AgentBinding :=
  js_sort (fun a b =>
             let scoreA := getSpecificityScore a in
             let scoreB := getSpecificityScore b in
             (scoreB - scoreA)%Z) bindings.

(** [a] may stand before [b] in the sorted array. *)
Definition score_ge (a b : AgentBinding) : Prop :=
  (getSpecificityScore b <= getSpecificityScore a)%Z.

Record MessageRouter := {
  bindings : list AgentBinding;
  defaultAgentId : string }.

(** The constructor sorts once. *)
Definition createRouter (bs : list AgentBinding) (d : string) : MessageRouter :=
  {| bindings := sortBySpecificity bs; defaultAgentId := d |}.

(** The [for ... of] loop of [route], with its early [return]. *)
Fixpoint route_loop (bs : list AgentBinding) (ctx : RoutingContext)
  : option RoutingResult :=
  match bs with
  | [] => None
  | binding :: rest =>
      match getMatchLevel binding ctx with
      | Some lvl =>
          Some {| r_agentId := agentId binding;
                  matchedBinding := Some binding;
                  matchLevel := lvl |}
      | None => route_loop rest ctx
      end
  end.

Definition route (r : MessageRouter) (ctx : RoutingContext) : RoutingResult :=
  match route_loop (bindings r) ctx with
  | Some res => res
  | None => {| r_agentId := defaultAgentId r;
               matchedBinding := None;
               matchLevel := default |}
  end.

(** [getBindingsForAgent] *)
Definition getBindingsForAgent (r : MessageRouter) (agent : string)
  : list AgentBinding :=
  List.filter (fun b => bool_decide (agentId b = agent)) (bindings r).

(** [Set.prototype.add] on a [Set<string>] kept in insertion order, which
    is the order [Array.from] lists it in. *)
Definition set_add (x : string) (ids : list string) : list string :=
  if bool_decide (x ∈ ids) then ids else ids ++ [x].

(** [getRoutedAgentIds] *)
Definition getRoutedAgentIds (r : MessageRouter) : list string :=
  let ids := fold_left (fun ids binding => set_add (agentId binding) ids)
                       (bindings r) [] in
  set_add (defaultAgentId r) ids.

(** The binding matches the context. *)
Definition matches (ctx : RoutingContext) (b : AgentBinding) : bool :=
  present (getMatchLevel b ctx).

(** The level at which a binding matches, if it does: it only depends on
    which qualifiers the binding carries. *)
Definition level_of (b : AgentBinding) : MatchLevel :=
  if present (m_peer (match_ b)) then peer
  else if truthy (m_accountId (match_ b)) then account
  else channel_level.

(** The binding [b] without its account qualifier. *)
Definition without_account (b : AgentBinding) : AgentBinding :=
  {| agentId := agentId b;
     match_ := {| m_channel := m_channel (match_ b); m_accountId := None;
                  m_peer := m_peer (match_ b) |} |}.

(** Sample bindings: a channel-only rule declared before a peer rule. *)
Definition telegram_any : AgentBinding :=
  {| agentId := "home";
     match_ := {| m_channel := "telegram"; m_accountId := None; m_peer := None |} |}.

Definition telegram_group42 : AgentBinding :=
  {| agentId := "work";
     match_ := {| m_channel := "telegram"; m_accountId := None;
                  m_peer := Some {| p_kind := group; p_id := "42" |} |} |}.

(** A peer rule whose peer id is the empty string. *)
Definition telegram_nobody : AgentBinding :=
  {| agentId := "work";
     match_ := {| m_channel := "telegram"; m_accountId := None;
                  m_peer := Some {| p_kind := group; p_id := "" |} |} |}.

Definition in_group42 : RoutingContext :=
  {| channel := "telegram"; accountId := Some "default";
     peerId := Some "42"; peerKind := Some group |}.

Definition on_slack : RoutingContext :=
  {| channel := "slack"; accountId := None; peerId := Some "7";
     peerKind := Some dm |}.

End Router.

(** * The conversation-key resolver *)
Module ConversationKey.

Inductive ConversationMode := shared | per_channel | per_chat.

(** Modelled from the spec: [resolveConversationKey] is exported by
    [core/bot.ts], of which only the test file is part of the sources.
    Section 4.2 of the design document: per-chat and per-channel mode give
    the lowercased channel id; shared mode gives the lowercased channel id
    when it is in the override set and the literal shared key otherwise; an
    undefined mode ([None]) behaves as shared. *)
Definition resolveConversationKey (channel : string)
    (mode : option ConversationMode) (overrides : gset string) : string :=
  let normalized := toLowerCase channel in
  match mode with
  | Some per_chat | Some per_channel => normalized
  | Some shared | None =>
      if bool_decide (normalized ∈ overrides) then normalized else "shared"
  end.

(** Modelled from the spec: [resolveHeartbeatConversationKey] of
    [core/bot.ts], also present through its tests only.  The design document
    defines it for the per-channel and the shared mode and for a heartbeat
    setting that is a literal; where it is silent (another mode, or no
    setting in per-channel mode) the model gives [None]. *)
Definition resolveHeartbeatConversationKey (mode : option ConversationMode)
    (heartbeatSetting : option string) (overrides : gset string)
    (lastActiveChannel : option string) : option string :=
  match mode with
  | Some per_channel =>
      match heartbeatSetting with
      | Some setting =>
          if bool_decide (setting = "dedicated") then Some "heartbeat"
          else if bool_decide (setting = "last-active")
               then Some (default "shared" lastActiveChannel)
               else Some setting
      | None => None
      end
  | Some shared =>
      match lastActiveChannel with
      | Some last =>
          if bool_decide (heartbeatSetting = Some "last-active")
             && bool_decide (toLowerCase last ∈ overrides)
          then Some last
          else Some "shared"
      | None => Some "shared"
      end
  | Some per_chat | None => None
  end.

End ConversationKey.

(** * The agent instance *)
Module Agent.

(** ** Data *)

(** A thrown value: an [Error] instance with its message, or any other value
    with its [String(value)] rendering. *)
Inductive JsError :=
  | ErrorObj (message : string)
  | Thrown (value : string).

Record InboundMessage := {
  channel : string;
  chatId : string;
  userId : string;
  messageId : option string;
  text : string;
  threadId : option string }.

Record OutboundMessage := {
  o_chatId : string;
  o_text : string;
  o_threadId : option string }.

Record LastMessageTarget := {
  lmt_channel : string;
  lmt_chatId : string;
  lmt_messageId : option string;
  updatedAt : string }.

#[global] Instance LastMessageTarget_eq_dec : EqDecision LastMessageTarget.
Proof. solve_decision. Defined.

(** [AgentState], the document persisted to [state.json]. *)
Record AgentState := {
  agentId : option string;
  conversationId : option string;
  baseUrl : option string;
  createdAt : option string;
  lastUsedAt : option string;
  lastMessageTarget : option LastMessageTarget }.

(** The literal [{ agentId: null }]. *)
Definition emptyState : AgentState :=
  {| agentId := None; conversationId := None; baseUrl := None;
     createdAt := None; lastUsedAt := None; lastMessageTarget := None |}.

Definition set_lastMessageTarget (t : option LastMessageTarget) (s : AgentState) :=
  {| agentId := agentId s; conversationId := conversationId s;
     baseUrl := baseUrl s; createdAt := createdAt s;
     lastUsedAt := lastUsedAt s; lastMessageTarget := t |}.

Definition set_agentId (a : option string) (s : AgentState) :=
  {| agentId := a; conversationId := conversationId s;
     baseUrl := baseUrl s; createdAt := createdAt s;
     lastUsedAt := lastUsedAt s; lastMessageTarget := lastMessageTarget s |}.

Definition set_conversationId (c : option string) (s : AgentState) :=
  {| agentId := agentId s; conversationId := c;
     baseUrl := baseUrl s; createdAt := createdAt s;
     lastUsedAt := lastUsedAt s; lastMessageTarget := lastMessageTarget s |}.

Definition set_baseUrl (b : option string) (s : AgentState) :=
  {| agentId := agentId s; conversationId := conversationId s;
     baseUrl := b; createdAt := createdAt s;
     lastUsedAt := lastUsedAt s; lastMessageTarget := lastMessageTarget s |}.

Definition set_createdAt (d : option string) (s : AgentState) :=
  {| agentId := agentId s; conversationId := conversationId s;
     baseUrl := baseUrl s; createdAt := d;
     lastUsedAt := lastUsedAt s; lastMessageTarget := lastMessageTarget s |}.

Definition set_lastUsedAt (d : option string) (s : AgentState) :=
  {| agentId := agentId s; conversationId := conversationId s;
     baseUrl := baseUrl s; createdAt := createdAt s;
     lastUsedAt := d; lastMessageTarget := lastMessageTarget s |}.

(** The read-only fields of the instance used by the message path. *)
Record AgentInstanceConfig := {
  configId : string;
  name : string;
  model : option string }.

(** A channel adapter: its identity and the optional capability probe
    [supportsEditing?.()]. *)
Record ChannelAdapter := {
  adapter_id : string;
  supportsEditing : option bool }.

(** ** The collaborators

    The remote platform, the adapters, the file system and the clock are
    outside the instance.  Their answers are scripted: every call takes the
    next answer of its kind from the [World]. *)

(** How a pending remote promise settles: [late] says that the 30 s timer of
    [withTimeout] fires first, [result] is how the promise itself settles
    ([None]: fulfilled). *)
Record Outcome := { late : bool; result : option JsError }.

Inductive StreamMsg :=
  | Assistant (content : string)
  (** the terminal event; it carries [session.agentId] and
      [session.conversationId] as they read at that moment *)
  | Result (session_agentId session_conversationId : option string)
  | OtherMsg.

(** One step of the async iterator [session.stream()]. *)
Inductive StreamItem :=
  | Yield (m : StreamMsg)
  | Raise (e : JsError).

Record SessionScript := {
  on_initialize : Outcome;
  on_send : Outcome;
  on_stream : list StreamItem }.

Record Session := { sid : nat; script : SessionScript }.

Record World := {
  fs_write_ok : list bool;
  typing_results : list (option JsError);
  createAgent_results : list (JsError + string);
  session_scripts : list SessionScript;
  sendMessage_results : list (JsError + string);
  editMessage_results : list (option JsError);
  date_now : list Z;
  iso_now : list string;
  env_LETTA_BASE_URL : option string }.

(** Answers used once a script is exhausted. *)
Definition ok_outcome : Outcome := {| late := false; result := None |}.
Definition default_script : SessionScript :=
  {| on_initialize := ok_outcome; on_send := ok_outcome; on_stream := [] |}.

Inductive Event :=
  | EvWriteState (s : AgentState) (ok : bool)
  | EvTypingIndicator (adapter chat : string)
  | EvSetEnvAgentId (v : option string)
  | EvCreateAgent (agentModel : option string)
  | EvResumeSession (session : nat) (handle : string)
  | EvCreateSession (session : nat) (handle : string)
  | EvInitialize (session : nat)
  | EvSend (session : nat) (body : string)
  | EvStreamMsg (session : nat) (m : StreamMsg)
  | EvClose (session : nat)
  | EvSendMessage (adapter : string) (m : OutboundMessage)
  | EvEditMessage (adapter chat message body : string)
  | EvSetInterval
  | EvClearInterval
  | EvUpdateAgentName (agent agentName : string).

(** The instance's mutable state together with its surroundings. *)
Record Sys := {
  state : AgentState;
  disk : option AgentState;
  world : World;
  sessions_opened : nat }.

Definition with_state (st : AgentState) (s : Sys) : Sys :=
  {| state := st; disk := disk s; world := world s;
     sessions_opened := sessions_opened s |}.

Definition with_world (w : World) (s : Sys) : Sys :=
  {| state := state s; disk := disk s; world := w;
     sessions_opened := sessions_opened s |}.

(** ** The monad: state, exceptions and a log of the calls made *)

Record Res (A : Type) := mkRes {
  val : JsError + A;
  post : Sys;
  out : list Event }.
Arguments mkRes {A}.
Arguments val {A}.
Arguments post {A}.
Arguments out {A}.

Definition M (A : Type) : Type := Sys -> Res A.

#[global] Instance M_ret : MRet M := fun A x s => mkRes (inr x) s [].

#[global] Instance M_bind : MBind M := fun A B f m s =>
  let r := m s in
  match val r with
  | inl e => mkRes (inl e) (post r) (out r)
  | inr a => let r' := f a (post r) in
             mkRes (val r') (post r') (out r ++ out r')
  end.

Definition throw {A : Type} (e : JsError) : M A := fun s => mkRes (inl e) s [].

(** [try { m } catch (e) { ... }]: the outcome of [m] as a value. *)
Definition attempt {A : Type} (m : M A) : M (JsError + A) := fun s =>
  let r := m s in mkRes (inr (val r)) (post r) (out r).

(** Leaving a [try] block: rethrow or return. *)
Definition settle {A : Type} (r : JsError + A) : M A :=
  match r with
  | inl e => throw e
  | inr a => mret a
  end.

Definition emit (e : Event) : M unit := fun s => mkRes (inr tt) s [e].

Definition get_state : M AgentState := fun s => mkRes (inr (state s)) s [].

Definition modify_state (f : AgentState -> AgentState) : M unit := fun s =>
  mkRes (inr tt) (with_state (f (state s)) s) [].

(** ** Scripted answers *)

Definition with_fs_write_ok (l : list bool) (w : World) : World :=
  {| fs_write_ok := l; typing_results := typing_results w;
     createAgent_results := createAgent_results w;
     session_scripts := session_scripts w;
     sendMessage_results := sendMessage_results w;
     editMessage_results := editMessage_results w; date_now := date_now w;
     iso_now := iso_now w; env_LETTA_BASE_URL := env_LETTA_BASE_URL w |}.

Definition with_typing_results (l : list (option JsError)) (w : World) : World :=
  {| fs_write_ok := fs_write_ok w; typing_results := l;
     createAgent_results := createAgent_results w;
     session_scripts := session_scripts w;
     sendMessage_results := sendMessage_results w;
     editMessage_results := editMessage_results w; date_now := date_now w;
     iso_now := iso_now w; env_LETTA_BASE_URL := env_LETTA_BASE_URL w |}.

Definition with_createAgent_results (l : list (JsError + string)) (w : World) : World :=
  {| fs_write_ok := fs_write_ok w; typing_results := typing_results w;
     createAgent_results := l; session_scripts := session_scripts w;
     sendMessage_results := sendMessage_results w;
     editMessage_results := editMessage_results w; date_now := date_now w;
     iso_now := iso_now w; env_LETTA_BASE_URL := env_LETTA_BASE_URL w |}.

Definition with_session_scripts (l : list SessionScript) (w : World) : World :=
  {| fs_write_ok := fs_write_ok w; typing_results := typing_results w;
     createAgent_results := createAgent_results w; session_scripts := l;
     sendMessage_results := sendMessage_results w;
     editMessage_results := editMessage_results w; date_now := date_now w;
     iso_now := iso_now w; env_LETTA_BASE_URL := env_LETTA_BASE_URL w |}.

Definition with_sendMessage_results (l : list (JsError + string)) (w : World) : World :=
  {| fs_write_ok := fs_write_ok w; typing_results := typing_results w;
     createAgent_results := createAgent_results w;
     session_scripts := session_scripts w; sendMessage_results := l;
     editMessage_results := editMessage_results w; date_now := date_now w;
     iso_now := iso_now w; env_LETTA_BASE_URL := env_LETTA_BASE_URL w |}.

Definition with_editMessage_results (l : list (option JsError)) (w : World) : World :=
  {| fs_write_ok := fs_write_ok w; typing_results := typing_results w;
     createAgent_results := createAgent_results w;
     session_scripts := session_scripts w;
     sendMessage_results := sendMessage_results w; editMessage_results := l;
     date_now := date_now w; iso_now := iso_now w;
     env_LETTA_BASE_URL := env_LETTA_BASE_URL w |}.

Definition with_date_now (l : list Z) (w : World) : World :=
  {| fs_write_ok := fs_write_ok w; typing_results := typing_results w;
     createAgent_results := createAgent_results w;
     session_scripts := session_scripts w;
     sendMessage_results := sendMessage_results w;
     editMessage_results := editMessage_results w; date_now := l;
     iso_now := iso_now w; env_LETTA_BASE_URL := env_LETTA_BASE_URL w |}.

Definition with_iso_now (l : list string) (w : World) : World :=
  {| fs_write_ok := fs_write_ok w; typing_results := typing_results w;
     createAgent_results := createAgent_results w;
     session_scripts := session_scripts w;
     sendMessage_results := sendMessage_results w;
     editMessage_results := editMessage_results w; date_now := date_now w;
     iso_now := l; env_LETTA_BASE_URL := env_LETTA_BASE_URL w |}.

(** Take the next answer of one kind; [d] answers once the script is
    exhausted. *)
Definition ask {A : Type} (d : A) (get : World -> list A)
    (put : list A -> World -> World) : M A := fun s =>
  mkRes (inr (hd d (get (world s))))
        (with_world (put (tl (get (world s))) (world s)) s) [].

(** ** Primitive calls *)

(** [saveState]: [writeFileSync] inside a [try] whose [catch] only logs.  A
    failed write leaves the file as it was. *)
Definition write_state (ok : bool) : M unit := fun s =>
  mkRes (inr tt)
        {| state := state s;
           disk := if ok then Some (state s) else disk s;
           world := world s;
           sessions_opened := sessions_opened s |}
        [EvWriteState (state s) ok].

Definition saveState : M unit :=
  ok ← ask true fs_write_ok with_fs_write_ok;
  write_state ok.

(** [loadState]: a missing or unreadable file gives [{ agentId: null }]. *)
Definition loadState (s : Sys) : AgentState :=
  match disk s with
  | Some st => st
  | None => emptyState
  end.

(** [new Date().toISOString()] and [Date.now()]. *)
Definition toISOString : M string := ask "" iso_now with_iso_now.
Definition dateNow : M Z := ask 0%Z date_now with_date_now.

Definition sendTypingIndicator (adapter : ChannelAdapter) (chat : string) : M unit :=
  emit (EvTypingIndicator (adapter_id adapter) chat);;
  r ← ask None typing_results with_typing_results;
  match r with
  | Some e => throw e
  | None => mret tt
  end.

(** [adapter.sendMessage] resolves to an object with the new [messageId]. *)
Definition sendMessage (adapter : ChannelAdapter) (m : OutboundMessage) : M string :=
  emit (EvSendMessage (adapter_id adapter) m);;
  r ← ask (inr "") sendMessage_results with_sendMessage_results;
  settle r.

Definition editMessage (adapter : ChannelAdapter) (chat message body : string) : M unit :=
  emit (EvEditMessage (adapter_id adapter) chat message body);;
  r ← ask None editMessage_results with_editMessage_results;
  match r with
  | Some e => throw e
  | None => mret tt
  end.

Definition createAgent (cfg : AgentInstanceConfig) : M string :=
  emit (EvCreateAgent (model cfg));;
  r ← ask (inr "agent") createAgent_results with_createAgent_results;
  settle r.

(** [resumeSession] and [createSession] return a handle at once; the remote
    side is only contacted by [initialize], [send] and [stream]. *)
Definition new_session (ev : nat -> string -> Event) (handle : string)
    (sc : SessionScript) : M Session := fun s =>
  mkRes (inr {| sid := sessions_opened s; script := sc |})
        {| state := state s; disk := disk s; world := world s;
           sessions_opened := S (sessions_opened s) |}
        [ev (sessions_opened s) handle].

Definition open_session (ev : nat -> string -> Event) (handle : string) : M Session :=
  sc ← ask default_script session_scripts with_session_scripts;
  new_session ev handle sc.

Definition resumeSession : string -> M Session := open_session EvResumeSession.
Definition createSession : string -> M Session := open_session EvCreateSession.

(** [session.initialize()] and [session.send(text)] start the call and hand
    back the pending promise. *)
Definition session_initialize (session : Session) : M Outcome :=
  emit (EvInitialize (sid session));;
  mret (on_initialize (script session)).

Definition session_send (session : Session) (body : string) : M Outcome :=
  emit (EvSend (sid session) body);;
  mret (on_send (script session)).

Definition session_close (session : Session) : M unit :=
  emit (EvClose (sid session)).

(** A plain [await promise]. *)
Definition await (promise : Outcome) : M unit :=
  match result promise with
  | Some e => throw e
  | None => mret tt
  end.

(** [withTimeout]: the promise raced against a timer. *)
Definition withTimeout (promise : Outcome) (label : string) (timeoutMs : Z) : M unit :=
  if late promise
  then throw (ErrorObj (label +:+ " timed out after " +:+ pretty timeoutMs +:+ "ms"))
  else await promise.

(** [process.env.LETTA_BASE_URL]. *)
Definition getenv_LETTA_BASE_URL : M (option string) := fun s =>
  mkRes (inr (env_LETTA_BASE_URL (world s))) s [].

Definition updateAgentName (agent agentName : string) : M unit :=
  emit (EvUpdateAgentName agent agentName).

(** ** [handleSessionResult] *)
Definition handleSessionResult (cfg : AgentInstanceConfig)
    (session_agentId session_conversationId : option string) : M unit :=
  st ← get_state;
  let isNewAgent := negb (truthy (agentId st)) && truthy session_agentId in
  (if truthy session_agentId && negb (bool_decide (session_agentId = agentId st))
   then
     env ← getenv_LETTA_BASE_URL;
     let currentBaseUrl :=
       if truthy env then env else Some "https://api.letta.com" in
     modify_state (set_agentId session_agentId);;
     modify_state (set_baseUrl currentBaseUrl);;
     now ← toISOString;
     modify_state (set_lastUsedAt (Some now));;
     st' ← get_state;
     if negb (truthy (createdAt st'))
     then now' ← toISOString; modify_state (set_createdAt (Some now'))
     else mret tt
   else mret tt);;
  st ← get_state;
  (if truthy session_conversationId
      && negb (bool_decide (session_conversationId = conversationId st))
   then modify_state (set_conversationId session_conversationId)
   else mret tt);;
  saveState;;
  if isNewAgent && truthy session_agentId
  then updateAgentName (default "" session_agentId) (name cfg)
  else mret tt.

(** ** [sendToAgent] *)

(** The [for await] loop of [sendToAgent]. *)
Fixpoint collect_stream (cfg : AgentInstanceConfig) (session : Session)
    (items : list StreamItem) (response : string) : M string :=
  match items with
  | [] => mret response
  | Raise e :: _ => throw e
  | Yield streamMsg :: rest =>
      emit (EvStreamMsg (sid session) streamMsg);;
      let response :=
        match streamMsg with
        | Assistant content => response +:+ content
        | _ => response
        end in
      match streamMsg with
      | Result a c => handleSessionResult cfg a c;; mret response
      | _ => collect_stream cfg session rest response
      end
  end.

(** The session of [sendToAgent], by precedence: the stored conversation,
    else the stored agent, else a new agent.  The flags are
    [usedDefaultConversation] and [usedSpecificConversation]. *)
Definition sendToAgent_session (cfg : AgentInstanceConfig)
  : M (Session * bool * bool) :=
  st ← get_state;
  if truthy (conversationId st)
  then session ← resumeSession (default "" (conversationId st));
       mret (session, false, true)
  else if truthy (agentId st)
  then session ← resumeSession (default "" (agentId st));
       mret (session, true, false)
  else newAgentId ← createAgent cfg;
       session ← resumeSession newAgentId;
       mret (session, false, false).

(** The inner [try { await session.send(text) } catch { ... }]; the session
    in use afterwards is returned with the outcome. *)
Definition sendToAgent_send (session : Session) (body : string)
    (usedDefaultConversation usedSpecificConversation : bool)
  : M (Session * (JsError + unit)) :=
  first ← attempt (promise ← session_send session body; await promise);
  match first with
  | inr _ => mret (session, inr tt)
  | inl error =>
      st ← get_state;
      if usedSpecificConversation && truthy (agentId st)
      then session_close session;;
           session ← createSession (default "" (agentId st));
           again ← attempt (promise ← session_send session body; await promise);
           mret (session, again)
      else if usedDefaultConversation && truthy (agentId st)
      then session_close session;;
           session ← createSession (default "" (agentId st));
           again ← attempt (promise ← session_send session body; await promise);
           mret (session, again)
      else mret (session, inl error)
  end.

(** Reading the reply, and the [finally]. *)
Definition sendToAgent_finish (cfg : AgentInstanceConfig) (session : Session)
    (sent : JsError + unit) : M string :=
  outcome ←
    match sent with
    | inl e => mret (inl e)
    | inr _ => attempt (collect_stream cfg session (on_stream (script session)) "")
    end;
  (* finally *)
  session_close session;;
  settle outcome.

Definition sendToAgent (cfg : AgentInstanceConfig) (body : string) : M string :=
  '(session, usedDefaultConversation, usedSpecificConversation) ←
    sendToAgent_session cfg;
  (* outer try *)
  '(session, sent) ←
    sendToAgent_send session body usedDefaultConversation usedSpecificConversation;
  sendToAgent_finish cfg session sent.

(** ** [reset] and [setAgentId] *)
Definition reset : M unit :=
  modify_state (fun _ => emptyState);;
  saveState.

Definition setAgentId (agent : string) : M unit :=
  modify_state (set_agentId (Some agent));;
  saveState.

(** ** [handleMessage] *)

(** [response.trim()] is falsy exactly when every character is white space
    (the ASCII white space characters are modelled). *)
Definition is_space (c : ascii) : bool :=
  let n := nat_of_ascii c in
  (n =? 32)%nat || ((9 <=? n)%nat && (n <=? 13)%nat).

Fixpoint is_blank (s : string) : bool :=
  match s with
  | EmptyString => true
  | String c rest => is_space c && is_blank rest
  end.

(** The local variables of the streaming part. *)
Record StreamLocals := {
  response : string;
  sentMessageId : option string;
  lastUpdate : Z;
  sentAnyMessage : bool }.

(** [`Error: ${error instanceof Error ? error.message : 'Unknown error'}`] *)
Definition error_text (error : JsError) : string :=
  "Error: " +:+ match error with
                | ErrorObj message => message
                | Thrown _ => "Unknown error"
                end.

Section WithFormatter.

(** [formatMessageEnvelope] of [core/formatter.ts] is not part of the
    sources; the message path only passes its result on. *)
Variable formatMessageEnvelope : InboundMessage -> string.

Variable cfg : AgentInstanceConfig.

(** The body of the [for await] loop, then the loop. *)
Definition on_assistant (adapter : ChannelAdapter) (msg : InboundMessage)
    (content : string) (loc : StreamLocals) : M StreamLocals :=
  let response := response loc +:+ content in
  let canEdit := default true (supportsEditing adapter) in
  due ← (if canEdit
         then now ← dateNow;
              mret ((500 <? now - lastUpdate loc)%Z && (0 <? String.length response)%nat)
         else mret false);
  if due : bool
  then
    sent ← attempt
      (if truthy (sentMessageId loc)
       then editMessage adapter (chatId msg) (default "" (sentMessageId loc)) response;;
            mret (sentMessageId loc)
       else result ← sendMessage adapter
                       {| o_chatId := chatId msg; o_text := response;
                          o_threadId := threadId msg |};
            mret (Some result));
    now ← dateNow;
    match sent with
    | inr mid =>
        mret {| response := response; sentMessageId := mid;
                lastUpdate := now; sentAnyMessage := true |}
    | inl _ =>
        mret {| response := response; sentMessageId := sentMessageId loc;
                lastUpdate := now; sentAnyMessage := sentAnyMessage loc |}
    end
  else
    mret {| response := response; sentMessageId := sentMessageId loc;
            lastUpdate := lastUpdate loc; sentAnyMessage := sentAnyMessage loc |}.

Fixpoint stream_loop (adapter : ChannelAdapter) (msg : InboundMessage)
    (session : Session) (items : list StreamItem) (loc : StreamLocals)
  : M StreamLocals :=
  match items with
  | [] => mret loc
  | Raise e :: _ => throw e
  | Yield streamMsg :: rest =>
      emit (EvStreamMsg (sid session) streamMsg);;
      loc ← match streamMsg with
            | Assistant content => on_assistant adapter msg content loc
            | _ => mret loc
            end;
      match streamMsg with
      | Result a c => handleSessionResult cfg a c;; mret loc
      | _ => stream_loop adapter msg session rest loc
      end
  end.

(** "Send final response". *)
Definition deliver_final (adapter : ChannelAdapter) (msg : InboundMessage)
    (loc : StreamLocals) : M unit :=
  if negb (is_blank (response loc))
  then
    sent ← attempt
      (if truthy (sentMessageId loc)
       then editMessage adapter (chatId msg) (default "" (sentMessageId loc))
                        (response loc)
       else sendMessage adapter
              {| o_chatId := chatId msg; o_text := response loc;
                 o_threadId := threadId msg |};;
            mret tt);
    match sent with
    | inr _ => mret tt
    | inl sendError =>
        if negb (truthy (sentMessageId loc))
        then sendMessage adapter
               {| o_chatId := chatId msg; o_text := response loc;
                  o_threadId := threadId msg |};;
             mret tt
        else mret tt
    end
  else mret tt.

Definition initTimeoutMs : Z := 30000.

(** What follows a successful initialization inside the [try] block: the
    timed send, the streaming between [setInterval] and [clearInterval], and
    the final delivery. *)
Definition send_and_stream (adapter : ChannelAdapter) (msg : InboundMessage)
    (session : Session) : M unit :=
  let formattedMessage := formatMessageEnvelope msg in
  promise ← session_send session formattedMessage;
  withTimeout promise "Session send" initTimeoutMs;;
  now ← dateNow;
  let loc := {| response := ""; sentMessageId := None;
                lastUpdate := now; sentAnyMessage := false |} in
  emit EvSetInterval;;
  streamed ← attempt (stream_loop adapter msg session (on_stream (script session)) loc);
  emit EvClearInterval;;
  loc ← settle streamed;
  deliver_final adapter msg loc.

(** "Track last message target for heartbeats". *)
Definition track_target (msg : InboundMessage) : M unit :=
  now ← toISOString;
  modify_state (set_lastMessageTarget
                  (Some {| lmt_channel := channel msg; lmt_chatId := chatId msg;
                           lmt_messageId := messageId msg; updatedAt := now |}));;
  saveState.

(** The session of [handleMessage], by precedence, with the flags
    [usedDefaultConversation] and [usedSpecificConversation]. *)
Definition select_session : M (Session * bool * bool) :=
  st ← get_state;
  if truthy (conversationId st)
  then emit (EvSetEnvAgentId (if truthy (agentId st) then agentId st else None));;
       session ← resumeSession (default "" (conversationId st));
       mret (session, false, true)
  else if truthy (agentId st)
  then emit (EvSetEnvAgentId (agentId st));;
       session ← resumeSession (default "" (agentId st));
       mret (session, true, false)
  else newAgentId ← createAgent cfg;
       session ← resumeSession newAgentId;
       mret (session, false, false).

(** "Initialize session with timeout", with the one recreate-and-retry; the
    session in use afterwards is returned with the outcome. *)
Definition initialize_session (session : Session)
    (usedDefaultConversation usedSpecificConversation : bool)
  : M (Session * (JsError + unit)) :=
  first ← attempt (promise ← session_initialize session;
                   withTimeout promise "Session initialize" initTimeoutMs);
  match first with
  | inr _ => mret (session, inr tt)
  | inl error =>
      st ← get_state;
      if usedSpecificConversation && truthy (agentId st)
      then session_close session;;
           session ← createSession (default "" (agentId st));
           again ← attempt (promise ← session_initialize session;
                            withTimeout promise "Session initialize" initTimeoutMs);
           mret (session, again)
      else if usedDefaultConversation && truthy (agentId st)
      then session_close session;;
           session ← createSession (default "" (agentId st));
           again ← attempt (promise ← session_initialize session;
                            withTimeout promise "Session initialize" initTimeoutMs);
           mret (session, again)
      else mret (session, inl error)
  end.

(** The outer [catch]: the error goes to the chat as text. *)
Definition report_error (adapter : ChannelAdapter) (msg : InboundMessage)
    (tried : JsError + unit) : M (JsError + unit) :=
  match tried with
  | inr _ => mret (inr tt)
  | inl error =>
      attempt (sendMessage adapter
                 {| o_chatId := chatId msg; o_text := error_text error;
                    o_threadId := threadId msg |};;
               mret tt)
  end.

(** The rest of the [try] block once initialization is over, then the
    [catch] and the [finally]. *)
Definition conclude (msg : InboundMessage) (adapter : ChannelAdapter)
    (session : Session) (initialized : JsError + unit) : M unit :=
  tried ←
    match initialized with
    | inl e => mret (inl e)
    | inr _ => attempt (send_and_stream adapter msg session)
    end;
  (* catch *)
  caught ← report_error adapter msg tried;
  (* finally *)
  session_close session;;
  settle caught.

(** The [try ... catch ... finally] statement of [handleMessage]. *)
Definition guarded (msg : InboundMessage) (adapter : ChannelAdapter)
    (session : Session) (usedDefaultConversation usedSpecificConversation : bool)
  : M unit :=
  '(session, initialized) ←
    initialize_session session usedDefaultConversation usedSpecificConversation;
  conclude msg adapter session initialized.

(** [handleMessage] after the target has been tracked. *)
Definition handle_tracked (msg : InboundMessage) (adapter : ChannelAdapter) : M unit :=
  sendTypingIndicator adapter (chatId msg);;
  '(session, usedDefaultConversation, usedSpecificConversation) ← select_session;
  guarded msg adapter session usedDefaultConversation usedSpecificConversation.

Definition handleMessage (msg : InboundMessage) (adapter : ChannelAdapter) : M unit :=
  track_target msg;;
  handle_tracked msg adapter.

(** ** The queue *)

(** How the promise returned by [processMessage] settles. *)
Inductive Settlement :=
  | Resolved
  | Rejected (e : JsError).

(** [error instanceof Error ? error : new Error(String(error))] *)
Definition to_Error (e : JsError) : JsError :=
  match e with
  | ErrorObj message => ErrorObj message
  | Thrown value => ErrorObj value
  end.

(** A queue entry; [q_promise] names the promise whose [resolve] and
    [reject] the entry carries. *)
Record QueueEntry := {
  q_msg : InboundMessage;
  q_adapter : ChannelAdapter;
  q_promise : nat }.

(** The worker suspended inside [await this.handleMessage(msg, adapter)]:
    the calls it has still to make, how the entry's promise will settle and
    the instance state it leaves. *)
Record Running := {
  r_entry : QueueEntry;
  r_pending : list Event;
  r_settle : Settlement;
  r_after : Sys }.

Inductive Label :=
  | LSubmit (promise : nat)
  | LEvent (promise : nat) (e : Event)
  | LSettle (promise : nat) (s : Settlement).

Record Instance := {
  sys : Sys;
  processing : bool;
  messageQueue : list QueueEntry;
  running : option Running;
  promises : nat;
  log : list Label }.

Definition begin (e : QueueEntry) (s : Sys) : Running :=
  let r := handleMessage (q_msg e) (q_adapter e) s in
  {| r_entry := e;
     r_pending := out r;
     r_settle := match val r with
                 | inr _ => Resolved
                 | inl error => Rejected (to_Error error)
                 end;
     r_after := post r |}.

(** The head of the [while] loop of [processQueue]. *)
Definition processQueue_loop (i : Instance) : Instance :=
  match messageQueue i with
  | [] =>
      {| sys := sys i; processing := false; messageQueue := [];
         running := None; promises := promises i; log := log i |}
  | e :: rest =>
      {| sys := sys i; processing := processing i; messageQueue := rest;
         running := Some (begin e (sys i)); promises := promises i;
         log := log i |}
  end.

Definition processQueue (i : Instance) : Instance :=
  if processing i || (length (messageQueue i) =? 0)%nat then i
  else processQueue_loop
         {| sys := sys i; processing := true; messageQueue := messageQueue i;
            running := running i; promises := promises i; log := log i |}.

Definition processMessage (msg : InboundMessage) (adapter : ChannelAdapter)
    (i : Instance) : Instance :=
  let e := {| q_msg := msg; q_adapter := adapter; q_promise := promises i |} in
  let i' := {| sys := sys i; processing := processing i;
               messageQueue := messageQueue i ++ [e];
               running := running i; promises := S (promises i);
               log := log i ++ [LSubmit (promises i)] |} in
  if negb (processing i') then processQueue i' else i'.

(** The worker is resumed: it makes its next call, or, when
    [handleMessage] has finished, settles the promise and goes round the
    loop. *)
Definition resume (i : Instance) : Instance :=
  match running i with
  | None => i
  | Some r =>
      let p := q_promise (r_entry r) in
      match r_pending r with
      | ev :: evs =>
          {| sys := sys i; processing := processing i;
             messageQueue := messageQueue i;
             running := Some {| r_entry := r_entry r; r_pending := evs;
                                r_settle := r_settle r; r_after := r_after r |};
             promises := promises i;
             log := log i ++ [LEvent p ev] |}
      | [] =>
          processQueue_loop
            {| sys := r_after r; processing := processing i;
               messageQueue := messageQueue i; running := None;
               promises := promises i;
               log := log i ++ [LSettle p (r_settle r)] |}
      end
  end.

(** What the event loop may do next. *)
Inductive Action :=
  | Submit (msg : InboundMessage) (adapter : ChannelAdapter)
  | Resume.

Definition step (i : Instance) (a : Action) : Instance :=
  match a with
  | Submit msg adapter => processMessage msg adapter i
  | Resume => resume i
  end.

Definition run (i : Instance) (acts : list Action) : Instance :=
  fold_left step acts i.

(** A freshly constructed instance. *)
Definition newInstance (s : Sys) : Instance :=
  {| sys := with_state (loadState s) s; processing := false;
     messageQueue := []; running := None; promises := 0; log := [] |}.

End WithFormatter.

(** ** Vocabulary of the specifications *)

Definition is_send (e : Event) : bool :=
  match e with
  | EvSend _ _ => true
  | _ => false
  end.

(** Calls that create an agent or obtain a session. *)
Definition is_session_call (e : Event) : bool :=
  match e with
  | EvCreateAgent _ | EvResumeSession _ _ | EvCreateSession _ _ => true
  | _ => false
  end.

(** Everything addressed to a channel adapter, the typing refresh
    included. *)
Definition is_adapter_call (e : Event) : bool :=
  match e with
  | EvTypingIndicator _ _ | EvSendMessage _ _ | EvEditMessage _ _ _ _
  | EvSetInterval | EvClearInterval => true
  | _ => false
  end.

Definition count (p : Event -> bool) (evs : list Event) : nat :=
  length (List.filter p evs).

(** [keeps I p n m]: [m] maintains the invariant [I] of the state in
    memory and on disk, and makes at most [n] calls of the kind [p]. *)
Definition keeps {A : Type} (I : AgentState -> option AgentState -> Prop)
    (p : Event -> bool) (n : nat) (m : M A) : Prop :=
  forall s, I (state s) (disk s) ->
    I (state (post (m s))) (disk (post (m s))) /\ count p (out (m s)) <= n.

(** How a promise raced against the 30 s timer settles. *)
Definition timed (label : string) (promise : Outcome) : option JsError :=
  if late promise
  then Some (ErrorObj (label +:+ " timed out after " +:+ pretty initTimeoutMs +:+ "ms"))
  else result promise.

(** The session that [resumeSession] or [createSession] hands out next, and
    the system once it has. *)
Definition next_session (s : Sys) : Session :=
  {| sid := sessions_opened s;
     script := hd default_script (session_scripts (world s)) |}.

Definition session_taken (s : Sys) : Sys :=
  {| state := state s; disk := disk s;
     world := with_session_scripts (tl (session_scripts (world s))) (world s);
     sessions_opened := S (sessions_opened s) |}.

Definition typing_taken (s : Sys) : Sys :=
  with_world (with_typing_results (tl (typing_results (world s))) (world s)) s.

Definition agent_taken (s : Sys) : Sys :=
  with_world (with_createAgent_results (tl (createAgent_results (world s))) (world s)) s.

Definition delivery_taken (s : Sys) : Sys :=
  with_world (with_sendMessage_results (tl (sendMessage_results (world s))) (world s)) s.

(** How the next [adapter.sendMessage] settles. *)
Definition delivery_result (s : Sys) : JsError + unit :=
  match hd (inr "") (sendMessage_results (world s)) with
  | inl e' => inl e'
  | inr _ => inr tt
  end.

(** A result with further calls in front. *)
Definition prepend {A : Type} (evs : list Event) (r : Res A) : Res A :=
  mkRes (val r) (post r) (evs ++ out r).

(** The tracked target, and the system once [track_target] and the typing
    indicator are through. *)
Definition tracked_state (msg : InboundMessage) (s : Sys) : AgentState :=
  set_lastMessageTarget
    (Some {| lmt_channel := channel msg; lmt_chatId := chatId msg;
             lmt_messageId := messageId msg;
             updatedAt := hd "" (iso_now (world s)) |})
    (state s).

Definition tracked (msg : InboundMessage) (s : Sys) : Sys :=
  {| state := tracked_state msg s;
     disk := if hd true (fs_write_ok (world s))
             then Some (tracked_state msg s) else disk s;
     world := with_fs_write_ok (tl (fs_write_ok (world s)))
                (with_iso_now (tl (iso_now (world s))) (world s));
     sessions_opened := sessions_opened s |}.

Definition ready (msg : InboundMessage) (s : Sys) : Sys :=
  typing_taken (tracked msg s).

(** The script of the session handed out first, and of the one after. *)
Definition first_script (s : Sys) : SessionScript :=
  hd default_script (session_scripts (world s)).

Definition second_script (s : Sys) : SessionScript :=
  hd default_script (tl (session_scripts (world s))).

(** The error, if any, with which session initialization ends for good:
    the first attempt fails and there is no stored agent id to recreate a
    session from, or the one retry fails too. *)
Definition init_failure (s : Sys) : option JsError :=
  match timed "Session initialize" (on_initialize (first_script s)) with
  | None => None
  | Some error =>
      if truthy (agentId (state s))
      then timed "Session initialize" (on_initialize (second_script s))
      else Some error
  end.

(** The session on which [handleMessage] calls [send] once initialization
    has succeeded: the one it obtained first, or the one it created after
    the first initialization failed. *)
Definition sending_session (s : Sys) : Session :=
  match timed "Session initialize" (on_initialize (first_script s)) with
  | None => {| sid := sessions_opened s; script := first_script s |}
  | Some _ => {| sid := S (sessions_opened s); script := second_script s |}
  end.

(** The precedence of the design document, as the calls it amounts to:
    resume the stored conversation if there is one, else resume with the
    stored agent id, else create an agent and resume with its id.  [n]
    numbers the session, [created] is the answer of [createAgent]. *)
Definition precedence_calls (cfg : AgentInstanceConfig) (st : AgentState)
    (n : nat) (created : JsError + string) : list Event :=
  if truthy (conversationId st)
  then [EvResumeSession n (default "" (conversationId st))]
  else if truthy (agentId st)
  then [EvResumeSession n (default "" (agentId st))]
  else match created with
       | inl _ => [EvCreateAgent (model cfg)]
       | inr newAgentId => [EvCreateAgent (model cfg); EvResumeSession n newAgentId]
       end.

(** A write of the state file that does not carry the target [t]. *)
Definition writes_other_target (t : LastMessageTarget) (e : Event) : bool :=
  match e with
  | EvWriteState st _ => negb (bool_decide (lastMessageTarget st = Some t))
  | _ => false
  end.

(** The target [t] is in memory and, if the write that first stored it
    succeeded ([stored]), in the state file. *)
Definition targets (t : LastMessageTarget) (stored : bool)
    (st : AgentState) (d : option AgentState) : Prop :=
  lastMessageTarget st = Some t
  /\ (stored = true -> exists st', d = Some st' /\ lastMessageTarget st' = Some t).

(** The assistant text read from a stream, in order. *)
Fixpoint streamed_text (evs : list Event) : string :=
  match evs with
  | [] => ""
  | EvStreamMsg _ (Assistant content) :: rest => content +:+ streamed_text rest
  | _ :: rest => streamed_text rest
  end.

Definition is_stream (e : Event) : bool :=
  match e with
  | EvStreamMsg _ _ => true
  | _ => false
  end.

(** Settlements in a log. *)
Definition is_settle (l : Label) : bool :=
  match l with
  | LSettle _ _ => true
  | _ => false
  end.

(** The promises settled in a log, in the order of their settlement. *)
Fixpoint settle_ids (l : list Label) : list nat :=
  match l with
  | [] => []
  | LSettle p _ :: rest => p :: settle_ids rest
  | _ :: rest => settle_ids rest
  end.

Definition settled (l : list Label) (p : nat) : Prop :=
  exists s, In (LSettle p s) l.

(** One at a time, in submission order: whatever is done for a message
    comes after the settlement of every message submitted before it. *)
Definition serialized (l : list Label) : Prop :=
  forall l1 l2 q ev, l = l1 ++ LEvent q ev :: l2 ->
    forall p, p < q -> settled l1 p.

(** The promises not yet settled: the one being handled, then the queue. *)
Definition pending_ids (i : Instance) : list nat :=
  match running i with
  | Some r => [q_promise (r_entry r)]
  | None => []
  end ++ map q_promise (messageQueue i).

(** The invariant of the queue: [k] promises have settled, in the order of
    submission, and the pending ones follow in that order. *)
Definition queue_inv (i : Instance) : Prop :=
  exists k,
    pending_ids i = seq k (length (pending_ids i))
    /\ k + length (pending_ids i) = promises i
    /\ settle_ids (log i) = seq 0 k
    /\ serialized (log i)
    /\ (running i = None -> messageQueue i = [] /\ processing i = false)
    /\ (processing i = false -> running i = None).

(** The calls in a log, in order. *)
Fixpoint calls (l : list Label) : list Event :=
  match l with
  | [] => []
  | LEvent _ ev :: rest => ev :: calls rest
  | _ :: rest => calls rest
  end.

(** ** Sessions and the typing timer *)

(** What an instance holds while it works: the session in use, and the
    timer that keeps the typing indicator alive. *)
Record Held := { in_use : option nat; timer : bool }.

Definition idle : Held := {| in_use := None; timer := false |}.
Definition holding (k : nat) : Held := {| in_use := Some k; timer := false |}.
Definition streaming (k : nat) : Held := {| in_use := Some k; timer := true |}.

(** One call, checked against what is held.  A session is obtained only
    when none is held; [initialize], [send] and the stream are used on the
    session held; the timer is set while a session is held and no timer
    runs; a session is closed when it is the one held and the timer has been
    cleared.  Calls that concern neither are always allowed. *)
Definition protocol_step (h : Held) (e : Event) : option Held :=
  match e with
  | EvResumeSession k _ | EvCreateSession k _ =>
      if present (in_use h) then None
      else Some {| in_use := Some k; timer := timer h |}
  | EvInitialize k | EvSend k _ | EvStreamMsg k _ =>
      if bool_decide (in_use h = Some k) then Some h else None
  | EvSetInterval =>
      if present (in_use h) && negb (timer h)
      then Some {| in_use := in_use h; timer := true |} else None
  | EvClearInterval =>
      if timer h then Some {| in_use := in_use h; timer := false |} else None
  | EvClose k =>
      if bool_decide (in_use h = Some k) && negb (timer h)
      then Some {| in_use := None; timer := false |} else None
  | _ => Some h
  end.

(** What is held after a sequence of calls, if every call was allowed. *)
Fixpoint protocol (h : Held) (evs : list Event) : option Held :=
  match evs with
  | [] => Some h
  | e :: rest =>
      match protocol_step h e with
      | Some h' => protocol h' rest
      | None => None
      end
  end.

(** Calls that concern a session or the timer. *)
Definition touches (e : Event) : bool :=
  match e with
  | EvResumeSession _ _ | EvCreateSession _ _ | EvInitialize _ | EvSend _ _
  | EvStreamMsg _ _ | EvClose _ | EvSetInterval | EvClearInterval => true
  | _ => false
  end.

(** [obeys h m Q]: started with [h] held, the calls of [m] are all allowed,
    and the result and what is held afterwards satisfy [Q]. *)
Definition obeys {A : Type} (h : Held) (m : M A)
    (Q : JsError + A -> Held -> Prop) : Prop :=
  forall s, exists h',
    protocol h (out (m s)) = Some h' /\ Q (val (m s)) h'.

(** Calls that obtain a session, close one, set the timer, clear it. *)
Definition is_obtain (e : Event) : bool :=
  match e with
  | EvResumeSession _ _ | EvCreateSession _ _ => true
  | _ => false
  end.

Definition is_close (e : Event) : bool :=
  match e with
  | EvClose _ => true
  | _ => false
  end.

Definition is_setInterval (e : Event) : bool :=
  match e with
  | EvSetInterval => true
  | _ => false
  end.

Definition is_clearInterval (e : Event) : bool :=
  match e with
  | EvClearInterval => true
  | _ => false
  end.

(** The calls logged so far were all allowed, and those the worker has
    still to make for the message in hand lead back to holding nothing. *)
Definition protocol_inv (i : Instance) : Prop :=
  exists h,
    protocol idle (calls (log i)) = Some h
    /\ match running i with
       | Some r => protocol h (r_pending r) = Some idle
       | None => h = idle
       end.

(** With a session in hand, or thrown with nothing held. *)
Definition holds_session {A : Type} (v : JsError + (Session * A)) (h : Held) : Prop :=
  match v with
  | inl _ => h = idle
  | inr (session, _) => h = holding (sid session)
  end.

(** ** What a result event teaches the instance *)

(** The instance once [handleSessionResult] has taken over the agent id of
    the session, and once it has taken over the conversation id. *)
Definition learned_agent (a : option string) (s : Sys) : Sys :=
  if truthy a && negb (bool_decide (a = agentId (state s)))
  then
    let env := env_LETTA_BASE_URL (world s) in
    let st :=
      set_lastUsedAt (Some (hd "" (iso_now (world s))))
        (set_baseUrl (if truthy env then env else Some "https://api.letta.com")
           (set_agentId a (state s))) in
    if truthy (createdAt (state s))
    then {| state := st; disk := disk s;
            world := with_iso_now (tl (iso_now (world s))) (world s);
            sessions_opened := sessions_opened s |}
    else {| state := set_createdAt (Some (hd "" (tl (iso_now (world s))))) st;
            disk := disk s;
            world := with_iso_now (tl (tl (iso_now (world s)))) (world s);
            sessions_opened := sessions_opened s |}
  else s.

Definition learned_conversation (c : option string) (s : Sys) : Sys :=
  if truthy c && negb (bool_decide (c = conversationId (state s)))
  then with_state (set_conversationId c (state s)) s
  else s.

Definition learned (a c : option string) (s : Sys) : Sys :=
  learned_conversation c (learned_agent a s).

Definition is_createAgent (e : Event) : bool :=
  match e with
  | EvCreateAgent _ => true
  | _ => false
  end.

Definition is_initialize (e : Event) : bool :=
  match e with
  | EvInitialize _ => true
  | _ => false
  end.

(** The messages submitted by a sequence of actions. *)
Definition submissions (acts : list Action) : nat :=
  length (List.filter (fun a => match a with
                                | Submit _ _ => true
                                | Resume => false
                                end) acts).

(** An agent id is on record, no agent has been created, and neither will
    the message in hand create one or lose the id. *)
Definition agent_inv (i : Instance) : Prop :=
  truthy (agentId (state (sys i))) = true
  /\ count is_createAgent (calls (log i)) = 0
  /\ match running i with
     | Some r => count is_createAgent (r_pending r) = 0
                 /\ truthy (agentId (state (r_after r))) = true
     | None => True
     end.

(** Every write of the state file that is still to come succeeds. *)
Definition writable (s : Sys) : Prop :=
  Forall (eq true) (fs_write_ok (world s)).

(** A restart would load the state that is in memory. *)
Definition saved (s : Sys) : Prop := loadState s = state s.

(** [persists m]: [m] leaves the state saved if it was; [stores m]: [m]
    leaves it saved in any case. *)
Definition persists {A : Type} (m : M A) : Prop :=
  forall s, writable s -> saved s ->
            writable (post (m s)) /\ saved (post (m s)).

Definition stores {A : Type} (m : M A) : Prop :=
  forall s, writable s -> writable (post (m s)) /\ saved (post (m s)).

(** ** Sample data *)

Definition quiet_world : World :=
  {| fs_write_ok := []; typing_results := []; createAgent_results := [];
     session_scripts := []; sendMessage_results := []; editMessage_results := [];
     date_now := []; iso_now := ["2025-01-01T00:00:00.000Z"];
     env_LETTA_BASE_URL := None |}.

Definition home : AgentInstanceConfig :=
  {| configId := "home"; name := "Home"; model := None |}.

Definition hello : InboundMessage :=
  {| channel := "telegram"; chatId := "chat-1"; userId := "user-1";
     messageId := Some "m-1"; text := "hello"; threadId := None |}.

Definition again : InboundMessage :=
  {| channel := "telegram"; chatId := "chat-1"; userId := "user-1";
     messageId := Some "m-2"; text := "anyone?"; threadId := None |}.

Definition telegram : ChannelAdapter :=
  {| adapter_id := "telegram:default"; supportsEditing := None |}.

(** A stand-in for the formatter. *)
Definition envelope (msg : InboundMessage) : string := text msg.

Definition failing (message : string) : Outcome :=
  {| late := false; result := Some (ErrorObj message) |}.

Definition stale_init : SessionScript :=
  {| on_initialize := failing "boom"; on_send := ok_outcome; on_stream := [] |}.

Definition broken_send : SessionScript :=
  {| on_initialize := ok_outcome; on_send := failing "boom"; on_stream := [] |}.

Definition replying : SessionScript :=
  {| on_initialize := ok_outcome; on_send := ok_outcome;
     on_stream := [Yield (Assistant "he"); Yield (Assistant "llo");
                   Yield (Result (Some "agent-1") (Some "conv-2"))] |}.

(** An instance that has an agent and a conversation on record. *)
Definition known : AgentState :=
  set_conversationId (Some "conv-1") (set_agentId (Some "agent-1") emptyState).

(** Two submissions, the second while the first is being handled. *)
Definition two_submissions : list Action :=
  Submit hello telegram :: Resume :: Submit again telegram :: repeat Resume 8.

(** The call logged at position [n]. *)
Definition event_at (n : nat) (l : list Label) : Event :=
  match nth n l (LSubmit 0) with
  | LEvent _ ev => ev
  | _ => EvSetInterval
  end.

Definition system (st : AgentState) (scripts : list SessionScript) : Sys :=
  {| state := st; disk := Some st;
     world := with_session_scripts scripts quiet_world;
     sessions_opened := 0 |}.

(** A chat that cannot be reached. *)
Definition offline : Sys :=
  {| state := emptyState; disk := None;
     world := with_typing_results [Some (ErrorObj "offline")] quiet_world;
     sessions_opened := 0 |}.

End Agent.

(** * Normalization of the configuration *)
Module Normalize.
Import Router.

(** An entry of [agents.list].  [a_default] is the truthiness of the
    optional flag [default]; an empty [a_workspace] is a missing one. *)
Record AgentConfig := {
  a_id : string;
  a_name : string;
  a_default : bool;
  a_workspace : string;
  a_model : option string }.

(** A channel block as the normalization reads it: [enabled], and the keys
    of [accounts] in the order of [Object.keys] (none when [accounts] is
    absent). *)
Record ChannelConfig := {
  enabled : bool;
  accounts : list string }.

(** The legacy block [agent]. *)
Record LegacyAgent := {
  l_id : option string;
  l_name : option string;
  l_model : option string }.

(** The parts of [LettaBotConfig] that the normalization reads:
    [agents?.list], [agents?.defaults?.model], [agent], [bindings] and
    [channels]. *)
Record LettaBotConfig := {
  agents_list : option (list AgentConfig);
  agents_defaults_model : option string;
  agent : option LegacyAgent;
  c_bindings : option (list AgentBinding);
  channels : gmap string ChannelConfig }.

(** The parts of [NormalizedConfig] that the gateway reads. *)
Record NormalizedConfig := {
  n_list : list AgentConfig;
  n_bindings : list AgentBinding }.

Definition DEFAULT_MODEL : string := "zai/glm-4.7".

Definition channelTypes : list string :=
  ["telegram"; "slack"; "discord"; "whatsapp"; "signal"].

(** [a || b] on strings. *)
Definition or_else (a : option string) (b : string) : string :=
  match a with
  | Some x => if truthy a then x else b
  | None => b
  end.

(** The closure [hasBinding] of [addImplicitBindings], applied to the
    bindings collected so far. *)
Definition hasBinding (bindings : list AgentBinding) (channel : string)
    (accountId : option string) : bool :=
  existsb
    (fun b =>
       if negb (String.eqb (m_channel (match_ b)) channel) then false
       else if truthy accountId && truthy (m_accountId (match_ b))
               && negb (bool_decide (m_accountId (match_ b) = accountId))
       then false
       else if negb (truthy (m_accountId (match_ b)))
               && negb (present (m_peer (match_ b)))
       then true
       else bool_decide (m_accountId (match_ b) = accountId))
    bindings.

(** [agentsList.find(a => a.default) || agentsList[0]] *)
Definition defaultAgent (agentsList : list AgentConfig) : option AgentConfig :=
  match List.find a_default agentsList with
  | Some a => Some a
  | None => head agentsList
  end.

(** The binding that is pushed for a channel, or for one of its accounts. *)
Definition implicit (a : AgentConfig) (channel : string)
    (accountId : option string) : AgentBinding :=
  {| agentId := a_id a;
     match_ := {| m_channel := channel; m_accountId := accountId;
                  m_peer := None |} |}.

(** [if (!hasBinding(...)) bindings.push(...)].  Reading [defaultAgent.id]
    of an undefined default agent throws: that is the result [None]. *)
Definition add_unless_bound (dflt : option AgentConfig) (channel : string)
    (accountId : option string) (bindings : list AgentBinding)
  : option (list AgentBinding) :=
  if negb (hasBinding bindings channel accountId)
  then match dflt with
       | Some a => Some (bindings ++ [implicit a channel accountId])
       | None => None
       end
  else Some bindings.

(** The body of the loop over the channel types. *)
Definition add_channel (config : LettaBotConfig) (dflt : option AgentConfig)
    (bindings : list AgentBinding) (channelType : string)
  : option (list AgentBinding) :=
  match channels config !! channelType with
  | None => Some bindings
  | Some channelConfig =>
      if negb (enabled channelConfig) then Some bindings
      else if (0 <? length (accounts channelConfig))%nat
      then fold_left
             (fun acc accountId =>
                match acc with
                | Some bs => add_unless_bound dflt channelType (Some accountId) bs
                | None => None
                end)
             (accounts channelConfig) (Some bindings)
      else add_unless_bound dflt channelType None bindings
  end.

Definition addImplicitBindings (config : LettaBotConfig)
    (agentsList : list AgentConfig) (existingBindings : list AgentBinding)
  : option (list AgentBinding) :=
  fold_left
    (fun acc channelType =>
       match acc with
       | Some bs => add_channel config (defaultAgent agentsList) bs channelType
       | None => None
       end)
    channelTypes (Some existingBindings).

(** [getEnabledChannelAccounts] *)
Definition getEnabledChannelAccounts (config : LettaBotConfig)
  : list (string * string) :=
  flat_map
    (fun channelType =>
       match channels config !! channelType with
       | None => []
       | Some channelConfig =>
           if negb (enabled channelConfig) then []
           else if (0 <? length (accounts channelConfig))%nat
           then map (fun accountId => (channelType, accountId))
                    (accounts channelConfig)
           else [(channelType, "default")]
       end)
    channelTypes.

(** The channel and account pairs that the loops of [addImplicitBindings]
    go through, in order; [None] is the call [hasBinding(channelType)] of a
    channel without accounts. *)
Definition candidates (config : LettaBotConfig) : list (string * option string) :=
  flat_map
    (fun channelType =>
       match channels config !! channelType with
       | None => []
       | Some channelConfig =>
           if negb (enabled channelConfig) then []
           else if (0 <? length (accounts channelConfig))%nat
           then map (fun accountId => (channelType, Some accountId))
                    (accounts channelConfig)
           else [(channelType, None)]
       end)
    channelTypes.

(** One step of the loops of [addImplicitBindings], for one candidate. *)
Definition add_candidate (dflt : option AgentConfig)
    (acc : option (list AgentBinding)) (c : string * option string)
  : option (list AgentBinding) :=
  match acc with
  | Some bs => add_unless_bound dflt (fst c) (snd c) bs
  | None => None
  end.

(** A binding that was pushed for the default agent [a] although
    [existing] was on record. *)
Definition added (existing : list AgentBinding) (a : AgentConfig)
    (m : AgentBinding) : Prop :=
  exists channel accountId,
    m = implicit a channel accountId
    /\ hasBinding existing channel accountId = false.

Section Paths.

(** [homedir()] of [node:os] and [join] of [node:path] are outside the
    sources. *)
Variable homedir : string.
Variable join : list string -> string.

Definition DEFAULT_WORKSPACE : string := join [homedir; ".lettabot"; "workspace"].

(** [String.prototype.startsWith('~')] and [replace('~', home)], which
    replaces the first occurrence. *)
Definition resolveWorkspace (workspace agentId : string) : string :=
  match workspace with
  | EmptyString => join [homedir; ".lettabot"; "workspace-" +:+ agentId]
  | String "~" rest => homedir +:+ rest
  | _ => workspace
  end.

(** [agents.list[0].default = true] *)
Definition mark_first (l : list AgentConfig) : list AgentConfig :=
  match l with
  | [] => []
  | a :: rest =>
      {| a_id := a_id a; a_name := a_name a; a_default := true;
         a_workspace := a_workspace a; a_model := a_model a |} :: rest
  end.

(** The agents of the normalized configuration and the explicit bindings. *)
Definition normalized_agents (config : LettaBotConfig)
  : list AgentConfig * list AgentBinding :=
  match agents_list config with
  | Some (first :: others) =>
      let defaultModel :=
        or_else (agents_defaults_model config)
          (or_else (match agent config with
                    | Some legacyAgent => l_model legacyAgent
                    | None => None
                    end) DEFAULT_MODEL) in
      let list :=
        map (fun a =>
               {| a_id := a_id a; a_name := a_name a; a_default := a_default a;
                  a_workspace := resolveWorkspace (a_workspace a) (a_id a);
                  a_model := Some (or_else (a_model a) defaultModel) |})
            (first :: others) in
      let list := if negb (existsb a_default list) then mark_first list else list in
      (list, match c_bindings config with
             | Some bindings => bindings
             | None => []
             end)
  | _ =>
      let legacyAgent := agent config in
      let agentId := or_else (legacyAgent ≫= l_id) "main" in
      let agentName := or_else (legacyAgent ≫= l_name) "LettaBot" in
      let agentModel := or_else (legacyAgent ≫= l_model) DEFAULT_MODEL in
      ([{| a_id := agentId; a_name := agentName; a_default := true;
           a_workspace := DEFAULT_WORKSPACE; a_model := Some agentModel |}],
       [])
  end.

(** [normalizeConfig]; [None] when [addImplicitBindings] throws. *)
Definition normalizeConfig (config : LettaBotConfig) : option NormalizedConfig :=
  let '(list, bindings) := normalized_agents config in
  match addImplicitBindings config list bindings with
  | Some bindings => Some {| n_list := list; n_bindings := bindings |}
  | None => None
  end.

End Paths.

(** A text between double quotes. *)
Definition quoted (text : string) : string :=
  String (ascii_of_nat 34) (text +:+ String (ascii_of_nat 34) EmptyString).

(** The loop over [agents.list] of [validateConfig]: the ids seen and the
    errors so far. *)
Definition validate_agent (acc : list string * list string) (a : AgentConfig)
  : list string * list string :=
  let '(ids, errors) := acc in
  let '(ids, errors) :=
    if negb (truthy (Some (a_id a)))
    then (ids, errors ++ ["Agent config missing required " +:+ quoted "id"
                          +:+ " field"])
    else if bool_decide (a_id a ∈ ids)
    then (ids, errors ++ ["Duplicate agent ID: " +:+ a_id a])
    else (ids ++ [a_id a], errors) in
  if negb (truthy (Some (a_workspace a)))
  then (ids, errors ++ ["Agent " +:+ quoted (a_id a) +:+ " missing required "
                        +:+ quoted "workspace" +:+ " field"])
  else (ids, errors).

(** The loop over [bindings] of [validateConfig]. *)
Definition validate_binding (ids : list string) (errors : list string)
    (binding : AgentBinding) : list string :=
  let errors :=
    if negb (bool_decide (agentId binding ∈ ids))
    then errors ++ ["Binding references unknown agent: " +:+ agentId binding]
    else errors in
  if negb (truthy (Some (m_channel (match_ binding))))
  then errors ++ ["Binding for agent " +:+ quoted (agentId binding)
                  +:+ " missing required " +:+ quoted "match.channel"
                  +:+ " field"]
  else errors.

Definition validateConfig (config : LettaBotConfig) : list string :=
  let errors :=
    match agents_list config with
    | Some (first :: others) =>
        let '(ids, errors) := fold_left validate_agent (first :: others) ([], []) in
        match c_bindings config with
        | Some bindings => fold_left (validate_binding ids) bindings errors
        | None => errors
        end
    | _ => []
    end in
  let hasChannel := existsb (fun kv => enabled (snd kv))
                            (map_to_list (channels config)) in
  if negb hasChannel
  then errors ++ ["No channels enabled. Enable at least one channel (telegram, slack, discord, whatsapp, or signal)"]
  else errors.

(** Sample data: Telegram with one account, Slack with two; two agents;
    a catch-all for Telegram and a rule for one Slack account on record. *)
Definition two_channels : LettaBotConfig :=
  {| agents_list := None; agents_defaults_model := None; agent := None;
     c_bindings := None;
     channels :=
       {[ "telegram" := {| enabled := true; accounts := [] |};
          "slack" := {| enabled := true; accounts := ["work"; "play"] |} ]} |}.

Definition two_agents : list AgentConfig :=
  [{| a_id := "home"; a_name := "Home"; a_default := false;
      a_workspace := "~/home"; a_model := None |};
   {| a_id := "work"; a_name := "Work"; a_default := false;
      a_workspace := "~/work"; a_model := None |}].

Definition slack_work : AgentBinding :=
  {| agentId := "work";
     match_ := {| m_channel := "slack"; m_accountId := Some "work";
                  m_peer := None |} |}.

(** The same with the agents and the bindings declared in the
    configuration. *)
Definition declared_agents : LettaBotConfig :=
  {| agents_list := Some two_agents; agents_defaults_model := None;
     agent := None;
     c_bindings := Some [telegram_group42; slack_work];
     channels := channels two_channels |}.

(** A stand-in for [join]. *)
Definition slash (parts : list string) : string := String.concat "/" parts.

Definition on_slack_play : RoutingContext :=
  {| channel := "slack"; accountId := Some "play"; peerId := Some "7";
     peerKind := Some dm |}.

End Normalize.

(** * The gateway *)
Module Gateway.
Import Router.

(** The fields of a channel adapter that the gateway reads. *)
Record ChannelAdapter := {
  c_id : string;
  c_accountId : string;
  c_name : string }.

(** The fields of an inbound message that the gateway reads; [msg_isGroup]
    is the truthiness of the optional flag. *)
Record InboundMessage := {
  msg_channel : string;
  msg_accountId : option string;
  msg_chatId : string;
  msg_isGroup : bool;
  msg_threadId : option string }.

Record OutboundMessage := {
  o_chatId : string;
  o_text : string;
  o_threadId : option string }.

(** A [Map<string, V>]: the entries in insertion order; setting a key that
    is present replaces its value where it stands. *)
Fixpoint map_set {V : Type} (key : string) (v : V) (m : list (string * V))
  : list (string * V) :=
  match m with
  | [] => [(key, v)]
  | (k, w) :: rest =>
      if String.eqb k key then (k, v) :: rest else (k, w) :: map_set key v rest
  end.

Fixpoint map_get {V : Type} (key : string) (m : list (string * V)) : option V :=
  match m with
  | [] => None
  | (k, w) :: rest => if String.eqb k key then Some w else map_get key rest
  end.

(** The key [`${adapter.id}:${adapter.accountId}`]. *)
Definition channel_key (channelId accountId : string) : string :=
  channelId +:+ ":" +:+ accountId.

(** The gateway: its router and its channels.  The agent manager is a
    parameter of [handleMessage]. *)
Record Gateway := {
  router : MessageRouter;
  channels : list (string * ChannelAdapter) }.

Definition registerChannel (adapter : ChannelAdapter) (g : Gateway) : Gateway :=
  {| router := router g;
     channels := map_set (channel_key (c_id adapter) (c_accountId adapter))
                         adapter (channels g) |}.

(** [getChannel(channelId, accountId = 'default')] *)
Definition getChannel (g : Gateway) (channelId : string)
    (accountId : option string) : option ChannelAdapter :=
  map_get (channel_key channelId
             match accountId with
             | Some a => a
             | None => "default"
             end)
          (channels g).

Definition getChannels (g : Gateway) : list ChannelAdapter :=
  map snd (channels g).

(** "Build routing context" *)
Definition routing_context (msg : InboundMessage) (adapter : ChannelAdapter)
  : RoutingContext :=
  {| channel := msg_channel msg;
     accountId := if truthy (msg_accountId msg) then msg_accountId msg
                  else Some (c_accountId adapter);
     peerId := Some (msg_chatId msg);
     peerKind := Some (if msg_isGroup msg then group else dm) |}.

(** What [handleMessage] does with a message: it hands it to the
    [processMessage] of an agent, or it answers on the adapter. *)
Inductive Dispatch :=
  | Forward (agent : string)
  | Answer (m : OutboundMessage).

Definition quoted (text : string) : string :=
  String (ascii_of_nat 34) (text +:+ String (ascii_of_nat 34) EmptyString).

(** [handleMessage].  The gateway asks the agent manager it was constructed
    with for the routed agent; [getAgent] stands for that lookup,
    [agentManager.getAgent] ([true]: an instance is found). *)
Definition handleMessage (g : Gateway) (getAgent : string -> bool)
    (msg : InboundMessage) (adapter : ChannelAdapter) : Dispatch :=
  let ctx := routing_context msg adapter in
  let result := route (router g) ctx in
  if negb (getAgent (r_agentId result))
  then Answer {| o_chatId := msg_chatId msg;
                 o_text := "Error: Agent " +:+ quoted (r_agentId result)
                           +:+ " not found";
                 o_threadId := msg_threadId msg |}
  else Forward (r_agentId result).

(** [true] when the text has a colon. *)
Fixpoint has_colon (text : string) : bool :=
  match text with
  | EmptyString => false
  | String c rest => Ascii.eqb c ":" || has_colon rest
  end.

(** Sample data. *)
Definition telegram_main : ChannelAdapter :=
  {| c_id := "telegram"; c_accountId := "default"; c_name := "Telegram" |}.

Definition slack_play : ChannelAdapter :=
  {| c_id := "slack"; c_accountId := "play"; c_name := "Slack" |}.

Definition from_group42 : InboundMessage :=
  {| msg_channel := "telegram"; msg_accountId := None; msg_chatId := "42";
     msg_isGroup := true; msg_threadId := None |}.

Definition small_gateway : Gateway :=
  registerChannel slack_play
    (registerChannel telegram_main
       {| router := createRouter [telegram_any; telegram_group42] "home";
          channels := [] |}).

End Gateway.

(** * Part II: theorems *)

(** ** JavaScript helpers *)

Lemma truthy_Some_inv (o : option string) :
  truthy o = true -> exists s, o = Some s /\ s <> "".
Proof.
  destruct o as [s|]; simpl; [|discriminate].
  intros H. exists s. split; [reflexivity|].
  intros ->. discriminate.
Qed.

Lemma append_nil_r (s : string) : s +:+ "" = s.
Proof.
  induction s as [|c s IH]; [reflexivity|].
  change (String c (s +:+ "") = String c s). now rewrite IH.
Qed.

Lemma append_assoc (s1 s2 s3 : string) : (s1 +:+ s2) +:+ s3 = s1 +:+ (s2 +:+ s3).
Proof.
  induction s1 as [|c s1 IH]; [reflexivity|].
  change (String c ((s1 +:+ s2) +:+ s3) = String c (s1 +:+ (s2 +:+ s3))).
  now rewrite IH.
Qed.

(** A comparator of the shape [(a, b) => key(b) - key(a)] sorts by
    descending key. *)
Section JsSortByKey.
Context {A : Type} (key : A -> Z).

Lemma js_insert_perm (x : A) (l : list A) :
  Permutation (x :: l) (js_insert (by_key_desc key) x l).
Proof.
  induction l as [|y ys IH]; simpl; [reflexivity|].
  destruct (0 <? by_key_desc key x y)%Z; [|reflexivity].
  rewrite perm_swap. now apply perm_skip.
Qed.

Lemma js_sort_perm (l : list A) : Permutation l (js_sort (by_key_desc key) l).
Proof.
  induction l as [|x xs IH]; simpl; [reflexivity|].
  rewrite <- js_insert_perm. now apply perm_skip.
Qed.

Lemma js_insert_sorted (x : A) (l : list A) :
  StronglySorted (key_ge key) l -> StronglySorted (key_ge key) (js_insert (by_key_desc key) x l).
Proof.
  induction 1 as [|y ys Hs IH Hy]; simpl.
  - repeat constructor.
  - unfold by_key_desc at 1.
    destruct (Z.ltb_spec 0 (key y - key x)) as [Hlt|Hge].
    + constructor; [exact IH|].
      rewrite <- js_insert_perm. constructor; [unfold key_ge; lia|exact Hy].
    + constructor; [constructor; assumption|].
      constructor; [unfold key_ge; lia|].
      eapply Forall_impl; [exact Hy|].
      unfold key_ge. intros z Hz. lia.
Qed.

Lemma js_sort_sorted (l : list A) : StronglySorted (key_ge key) (js_sort (by_key_desc key) l).
Proof.
  induction l as [|x xs IH]; simpl; [constructor|].
  now apply js_insert_sorted.
Qed.

(** Stability: the elements of one key keep their relative order. *)
Lemma js_insert_stable (k : Z) (x : A) (l : list A) :
  List.filter (has_key key k) (js_insert (by_key_desc key) x l)
  = List.filter (has_key key k) (x :: l).
Proof.
  induction l as [|y ys IH]; [reflexivity|].
  cbn [js_insert]. unfold by_key_desc at 1.
  destruct (Z.ltb_spec 0 (key y - key x)) as [Hlt|Hge]; [|reflexivity].
  cbn [List.filter] in *. rewrite IH. unfold has_key.
  destruct (Z.eqb_spec (key x) k), (Z.eqb_spec (key y) k); try reflexivity.
  lia.
Qed.

Lemma js_sort_stable (k : Z) (l : list A) :
  List.filter (has_key key k) (js_sort (by_key_desc key) l) = List.filter (has_key key k) l.
Proof.
  induction l as [|x xs IH]; [reflexivity|].
  cbn [js_sort]. rewrite js_insert_stable. cbn [List.filter].
  now rewrite IH.
Qed.

(** A list already in order is left as it is. *)
Lemma js_sort_sorted_id (l : list A) :
  StronglySorted (key_ge key) l -> js_sort (by_key_desc key) l = l.
Proof.
  induction 1 as [|x l Hs IH Hx]; [reflexivity|].
  cbn [js_sort]. rewrite IH. destruct Hx as [|y ys Hy _]; [reflexivity|].
  cbn [js_insert]. unfold by_key_desc, key_ge in *.
  destruct (Z.ltb_spec 0 (key y - key x)); [lia|reflexivity].
Qed.

(** An element that does not rank below the head goes in front. *)
Lemma js_insert_head (x : A) (l : list A) :
  Forall (fun y => (key y <= key x)%Z) l ->
  js_insert (by_key_desc key) x l = x :: l.
Proof.
  destruct 1 as [|y l Hy _]; [reflexivity|].
  cbn [js_insert]. unfold by_key_desc.
  destruct (Z.ltb_spec 0 (key y - key x)); [lia|reflexivity].
Qed.

Lemma js_insert_app (x : A) (l l' : list A) :
  Forall (fun y => (key y <= key x)%Z) l' ->
  js_insert (by_key_desc key) x (l ++ l') = js_insert (by_key_desc key) x l ++ l'.
Proof.
  intros Hl'. induction l as [|y l IH]; cbn [app js_insert].
  - now apply js_insert_head.
  - destruct (0 <? by_key_desc key x y)%Z; [|reflexivity].
    cbn [app]. now rewrite IH.
Qed.

(** What ranks below comes after: the two parts are sorted on their own. *)
Lemma js_sort_app (l l' : list A) :
  (forall x y, In x l -> In y l' -> (key y <= key x)%Z) ->
  js_sort (by_key_desc key) (l ++ l')
  = js_sort (by_key_desc key) l ++ js_sort (by_key_desc key) l'.
Proof.
  induction l as [|x l IH]; intros Hle; [reflexivity|].
  cbn [app js_sort]. rewrite IH by (intros; apply Hle; [now right|assumption]).
  apply js_insert_app. rewrite List.Forall_forall. intros y Hy.
  apply Hle; [now left|].
  eapply Permutation_in; [symmetry; apply js_sort_perm|exact Hy].
Qed.

(** Sorting and selecting commute. *)
Lemma js_insert_filter (f : A -> bool) (x : A) (l : list A) :
  StronglySorted (key_ge key) l ->
  List.filter f (js_insert (by_key_desc key) x l)
  = if f x then js_insert (by_key_desc key) x (List.filter f l)
    else List.filter f l.
Proof.
  induction 1 as [|y ys Hs IH Hy]; cbn [js_insert List.filter].
  - destruct (f x); reflexivity.
  - unfold by_key_desc at 1.
    destruct (Z.ltb_spec 0 (key y - key x)) as [Hlt|Hge]; cbn [List.filter].
    + rewrite IH. destruct (f x), (f y); try reflexivity.
      cbn [js_insert]. change (by_key_desc key x y) with (key y - key x)%Z.
      destruct (Z.ltb_spec 0 (key y - key x)); [reflexivity|lia].
    + destruct (f x); [|reflexivity].
      symmetry. apply js_insert_head.
      rewrite List.Forall_forall. intros z Hz.
      assert (Hin : In z (y :: ys)).
      { destruct (f y); [destruct Hz as [<-|Hz]; [now left|right]|right];
          now apply List.filter_In in Hz. }
      destruct Hin as [<-|Hin]; [lia|].
      rewrite List.Forall_forall in Hy. specialize (Hy z Hin).
      unfold key_ge in Hy. lia.
Qed.

Lemma js_sort_filter (f : A -> bool) (l : list A) :
  List.filter f (js_sort (by_key_desc key) l)
  = js_sort (by_key_desc key) (List.filter f l).
Proof.
  induction l as [|x l IH]; [reflexivity|].
  cbn [js_sort List.filter]. rewrite js_insert_filter by apply js_sort_sorted.
  rewrite IH. destruct (f x); reflexivity.
Qed.

End JsSortByKey.

(** ** The router *)
Module RouterFacts.
Import Router.

Lemma sortBySpecificity_unfold (bs : list AgentBinding) :
  sortBySpecificity bs = js_sort (by_key_desc getSpecificityScore) bs.
Proof. reflexivity. Qed.

Lemma score_cases (b : AgentBinding) :
  getSpecificityScore b
  = ((if present (m_peer (match_ b)) then 100 else 0)
     + (if truthy (m_accountId (match_ b)) then 10 else 0) + 1)%Z.
Proof.
  unfold getSpecificityScore.
  destruct (present _), (truthy _); reflexivity.
Qed.

Lemma score_peer (b : AgentBinding) :
  (100 <= getSpecificityScore b)%Z -> present (m_peer (match_ b)) = true.
Proof.
  rewrite score_cases.
  destruct (present _), (truthy _); (reflexivity || lia).
Qed.

Lemma peer_score (b : AgentBinding) :
  present (m_peer (match_ b)) = true -> (100 <= getSpecificityScore b)%Z.
Proof.
  rewrite score_cases. intros ->. destruct (truthy _); lia.
Qed.

(** A binding with a peer pattern matches at the peer level or not at all;
    one without never matches at the peer level. *)
Lemma getMatchLevel_peer (b : AgentBinding) (ctx : RoutingContext) (lvl : MatchLevel) :
  getMatchLevel b ctx = Some lvl ->
  lvl = peer <-> present (m_peer (match_ b)) = true.
Proof.
  unfold getMatchLevel.
  destruct (negb (m_channel (match_ b) =? channel ctx)%string); [discriminate|].
  destruct (m_peer (match_ b)) as [p|]; simpl.
  - repeat match goal with
           | |- context [if ?c then _ else _] => destruct c; try discriminate
           end.
    intros [= <-]. tauto.
  - repeat match goal with
           | |- context [if ?c then _ else _] => destruct c; try discriminate
           end; intros [= <-]; split; discriminate.
Qed.

Lemma getMatchLevel_not_default (b : AgentBinding) (ctx : RoutingContext) :
  getMatchLevel b ctx <> Some default.
Proof.
  unfold getMatchLevel.
  repeat match goal with
         | |- context [if ?c then _ else _] => destruct c; try discriminate
         | |- context [match ?c with Some _ => _ | None => _ end] =>
             destruct c; try discriminate
         end.
Qed.

(** The loop returns the first binding that matches. *)
Lemma route_loop_Some (bs : list AgentBinding) (ctx : RoutingContext)
    (res : RoutingResult) :
  route_loop bs ctx = Some res ->
  exists pre b post,
    bs = pre ++ b :: post
    /\ Forall (fun x => getMatchLevel x ctx = None) pre
    /\ getMatchLevel b ctx = Some (matchLevel res)
    /\ matchedBinding res = Some b
    /\ r_agentId res = agentId b.
Proof.
  induction bs as [|x xs IH]; simpl; [discriminate|].
  destruct (getMatchLevel x ctx) as [lvl|] eqn:Hx.
  - intros [= <-]. exists [], x, xs. simpl. repeat split; auto.
  - intros (pre & b & post & -> & Hpre & Hb)%IH.
    exists (x :: pre), b, post. repeat split; try tauto.
    now constructor.
Qed.

Lemma route_loop_None (bs : list AgentBinding) (ctx : RoutingContext) :
  route_loop bs ctx = None <-> Forall (fun x => getMatchLevel x ctx = None) bs.
Proof.
  induction bs as [|x xs IH]; simpl.
  - split; [constructor|reflexivity].
  - destruct (getMatchLevel x ctx) eqn:Hx.
    + split; [discriminate|]. intros H. inversion H; congruence.
    + rewrite IH. split; [now constructor|]. intros H. now inversion H.
Qed.

Lemma route_matched (r : MessageRouter) (ctx : RoutingContext) (b : AgentBinding) :
  matchedBinding (route r ctx) = Some b ->
  route_loop (bindings r) ctx = Some (route r ctx).
Proof.
  unfold route. destruct (route_loop (bindings r) ctx); [reflexivity|].
  discriminate.
Qed.

Lemma getMatchLevel_level_of (b : AgentBinding) (ctx : RoutingContext)
    (lvl : MatchLevel) :
  getMatchLevel b ctx = Some lvl ->
  lvl = level_of b /\ m_channel (match_ b) = channel ctx.
Proof.
  unfold getMatchLevel, level_of.
  destruct (String.eqb_spec (m_channel (match_ b)) (channel ctx)) as [Hc|Hc];
    [|discriminate].
  cbn [negb]. destruct (m_peer (match_ b)) as [p|]; cbn [present].
  - repeat match goal with
           | |- context [if ?c then _ else _] => destruct c; try discriminate
           end; intros [= <-]; auto.
  - destruct (truthy (m_accountId (match_ b))).
    + destruct (negb _); [discriminate|]. intros [= <-]; auto.
    + intros [= <-]; auto.
Qed.

Lemma getMatchLevel_inv (b : AgentBinding) (ctx : RoutingContext)
    (lvl : MatchLevel) :
  getMatchLevel b ctx = Some lvl ->
  m_channel (match_ b) = channel ctx
  /\ (forall p, m_peer (match_ b) = Some p ->
        truthy (peerId ctx) = true /\ Some (p_id p) = peerId ctx
        /\ Some (p_kind p) = peerKind ctx)
  /\ (truthy (m_accountId (match_ b)) = true ->
      m_accountId (match_ b) = accountId ctx).
Proof.
  unfold getMatchLevel.
  destruct (String.eqb_spec (m_channel (match_ b)) (channel ctx)) as [Hc|Hc];
    [|discriminate].
  cbn [negb]. destruct (m_peer (match_ b)) as [p|].
  - destruct (truthy (peerId ctx)); [|discriminate].
    destruct (present (peerKind ctx)); [|discriminate]. cbn [negb orb].
    case_bool_decide as Hkind; [|discriminate].
    case_bool_decide as Hid; [|discriminate]. cbn [negb].
    destruct (truthy (m_accountId (match_ b))); cbn [andb].
    + case_bool_decide as Hacc; [|discriminate].
      intros _. split_and!; [exact Hc| |auto].
      intros p' [= <-]. auto.
    + intros _. split_and!; [exact Hc| |discriminate].
      intros p' [= <-]. auto.
  - destruct (truthy (m_accountId (match_ b))).
    + case_bool_decide as Hacc; [|discriminate].
      intros _. split_and!; [exact Hc|discriminate|auto].
    + intros _. split_and!; [exact Hc|discriminate|discriminate].
Qed.

Lemma getMatchLevel_intro (b : AgentBinding) (ctx : RoutingContext) :
  m_channel (match_ b) = channel ctx ->
  (forall p, m_peer (match_ b) = Some p ->
     truthy (peerId ctx) = true /\ Some (p_id p) = peerId ctx
     /\ Some (p_kind p) = peerKind ctx) ->
  (truthy (m_accountId (match_ b)) = true ->
   m_accountId (match_ b) = accountId ctx) ->
  getMatchLevel b ctx = Some (level_of b).
Proof.
  intros Hc Hpeer Hacc. unfold getMatchLevel, level_of.
  rewrite Hc, String.eqb_refl. cbn [negb].
  destruct (m_peer (match_ b)) as [p|]; cbn [present].
  - destruct (Hpeer p eq_refl) as (Hid & Heq & Hkind).
    rewrite Hid, <- Hkind, <- Heq. cbn [present negb orb].
    rewrite !bool_decide_eq_true_2 by reflexivity. cbn [negb].
    destruct (truthy (m_accountId (match_ b))); [|reflexivity].
    rewrite bool_decide_eq_true_2 by auto. reflexivity.
  - destruct (truthy (m_accountId (match_ b))); [|reflexivity].
    rewrite bool_decide_eq_true_2 by auto. reflexivity.
Qed.

(** The loop stops at the first binding that matches. *)
Lemma route_loop_first (pre post : list AgentBinding) (b : AgentBinding)
    (ctx : RoutingContext) (lvl : MatchLevel) :
  Forall (fun x => getMatchLevel x ctx = None) pre ->
  getMatchLevel b ctx = Some lvl ->
  route_loop (pre ++ b :: post) ctx
  = Some {| r_agentId := agentId b; matchedBinding := Some b; matchLevel := lvl |}.
Proof.
  intros Hpre Hb. induction Hpre as [|x pre Hx _ IH]; cbn [app route_loop].
  - rewrite Hb. reflexivity.
  - rewrite Hx. exact IH.
Qed.

(** C4.  [route] walks the bindings in descending specificity score (100
    for a peer pattern, 10 for an account id, 1 for every binding), bindings
    of equal score in declaration order, and returns the first one that
    matches: the result is fixed by the first binding of the sorted list
    that matches the context, and whenever some binding matches, one is
    returned that scores at least as much.  A binding matches when its
    channel is that of the context and each qualifier it carries agrees with
    the context; the level is that of its most specific qualifier.  Hence,
    whatever the declaration order, a context matched by a peer-level
    binding is routed at the peer level, by a binding that has a peer
    pattern and scores at least as much, never by a channel-only one. *)
Theorem route_by_specificity (bs : list AgentBinding) (d : string)
    (ctx : RoutingContext) :
  let r := createRouter bs d in
  (forall b, getSpecificityScore b
             = ((if present (m_peer (match_ b)) then 100 else 0)
                + (if truthy (m_accountId (match_ b)) then 10 else 0) + 1)%Z)
  /\ Permutation bs (bindings r)
  /\ StronglySorted score_ge (bindings r)
  /\ (forall k, List.filter (fun b => (getSpecificityScore b =? k)%Z) (bindings r)
                = List.filter (fun b => (getSpecificityScore b =? k)%Z) bs)
  /\ (forall pre b post lvl,
        bindings r = pre ++ b :: post ->
        Forall (fun x => getMatchLevel x ctx = None) pre ->
        getMatchLevel b ctx = Some lvl ->
        route r ctx
        = {| r_agentId := agentId b; matchedBinding := Some b; matchLevel := lvl |})
  /\ (forall p, In p bs -> getMatchLevel p ctx <> None ->
        exists pre b post,
          bindings r = pre ++ b :: post
          /\ Forall (fun x => getMatchLevel x ctx = None) pre
          /\ getMatchLevel b ctx = Some (matchLevel (route r ctx))
          /\ matchedBinding (route r ctx) = Some b
          /\ r_agentId (route r ctx) = agentId b
          /\ (getSpecificityScore p <= getSpecificityScore b)%Z)
  /\ (forall b,
        getMatchLevel b ctx <> None
        <-> (m_channel (match_ b) = channel ctx
             /\ (forall p, m_peer (match_ b) = Some p ->
                   truthy (peerId ctx) = true /\ Some (p_id p) = peerId ctx
                   /\ Some (p_kind p) = peerKind ctx)
             /\ (truthy (m_accountId (match_ b)) = true ->
                 m_accountId (match_ b) = accountId ctx)))
  /\ (forall b lvl, getMatchLevel b ctx = Some lvl -> lvl = level_of b)
  /\ (forall b, matchedBinding (route r ctx) = Some b ->
        exists pre post,
          bindings r = pre ++ b :: post
          /\ Forall (fun x => getMatchLevel x ctx = None) pre
          /\ getMatchLevel b ctx = Some (matchLevel (route r ctx))
          /\ r_agentId (route r ctx) = agentId b)
  /\ (forall p, In p bs -> getMatchLevel p ctx = Some peer ->
        exists b,
          matchedBinding (route r ctx) = Some b
          /\ matchLevel (route r ctx) = peer
          /\ present (m_peer (match_ b)) = true
          /\ (getSpecificityScore p <= getSpecificityScore b)%Z).
Proof.
  intros r.
  assert (Hperm : Permutation bs (bindings r)) by apply js_sort_perm.
  assert (Hsorted : StronglySorted score_ge (bindings r))
    by apply (js_sort_sorted getSpecificityScore).
  assert (Hfound : forall p, In p bs -> getMatchLevel p ctx <> None ->
            exists pre b post,
              bindings r = pre ++ b :: post
              /\ Forall (fun x => getMatchLevel x ctx = None) pre
              /\ getMatchLevel b ctx = Some (matchLevel (route r ctx))
              /\ matchedBinding (route r ctx) = Some b
              /\ r_agentId (route r ctx) = agentId b
              /\ (getSpecificityScore p <= getSpecificityScore b)%Z).
  { intros p Hin Hp.
    assert (Hin' : In p (bindings r)) by (eapply Permutation_in; eassumption).
    destruct (route_loop (bindings r) ctx) as [res|] eqn:Hloop.
    2:{ apply route_loop_None in Hloop.
        rewrite List.Forall_forall in Hloop. destruct (Hp (Hloop p Hin')). }
    assert (Hroute : route r ctx = res) by (unfold route; now rewrite Hloop).
    destruct (route_loop_Some _ _ _ Hloop)
      as (pre & b & post & Heq & Hpre & Hlvl & Hm & Hid).
    exists pre, b, post. rewrite Hroute. split_and!; try assumption.
    rewrite Heq in Hin', Hsorted.
    apply in_app_or in Hin' as [Hin'|[->|Hin']].
    - rewrite List.Forall_forall in Hpre. destruct (Hp (Hpre p Hin')).
    - lia.
    - apply StronglySorted_app_1_r in Hsorted.
      apply StronglySorted_inv in Hsorted as [_ Hall].
      rewrite List.Forall_forall in Hall. exact (Hall p Hin'). }
  split; [exact score_cases|].
  split; [exact Hperm|].
  split; [exact Hsorted|].
  split; [intros k; apply (js_sort_stable getSpecificityScore)|].
  split.
  { intros pre b post lvl Heq Hpre Hb. unfold route.
    rewrite Heq, (route_loop_first pre post b ctx lvl Hpre Hb). reflexivity. }
  split; [exact Hfound|].
  split.
  { intros b. split.
    - destruct (getMatchLevel b ctx) as [lvl|] eqn:Hb; [intros _|congruence].
      exact (getMatchLevel_inv b ctx lvl Hb).
    - intros (Hc & Hpeer & Hacc).
      rewrite (getMatchLevel_intro b ctx Hc Hpeer Hacc). discriminate. }
  split.
  { intros b lvl Hb. exact (proj1 (getMatchLevel_level_of b ctx lvl Hb)). }
  split.
  - intros b Hb.
    destruct (route_loop_Some _ _ _ (route_matched _ _ _ Hb))
      as (pre & b' & post & Heq & Hpre & Hlvl & Hm & Hid).
    assert (b' = b) as -> by congruence.
    exists pre, post. auto.
  - intros p Hin Hp.
    destruct (Hfound p Hin) as (pre & b & post & Heq & Hpre & Hlvl & Hm & Hid & Hscore);
      [congruence|].
    assert (Hpeer : present (m_peer (match_ b)) = true).
    { apply score_peer.
      pose proof (proj1 (getMatchLevel_peer _ _ _ Hp) eq_refl) as Hpp.
      apply peer_score in Hpp. lia. }
    exists b. split_and!; try assumption.
    apply (getMatchLevel_peer _ _ _ Hlvl). exact Hpeer.
Qed.

(** C5.  [route] always returns a result; when no binding matches the
    context it is the default agent, with no matched binding and the
    default match level. *)
Theorem route_no_match_default (bs : list AgentBinding) (d : string)
    (ctx : RoutingContext) :
  (forall b, In b bs -> getMatchLevel b ctx = None) ->
  route (createRouter bs d) ctx
  = {| r_agentId := d; matchedBinding := None; matchLevel := default |}.
Proof.
  intros Hnone. unfold route.
  replace (route_loop (bindings (createRouter bs d)) ctx) with (@None RoutingResult);
    [reflexivity|].
  symmetry. apply route_loop_None. rewrite List.Forall_forall.
  intros b Hb. apply Hnone.
  eapply Permutation_in; [|exact Hb].
  symmetry. apply js_sort_perm.
Qed.

(** Conversely, the default level is only ever reported when nothing
    matches. *)
Lemma route_default_only_if_no_match (bs : list AgentBinding) (d : string)
    (ctx : RoutingContext) (b : AgentBinding) :
  matchLevel (route (createRouter bs d) ctx) = default ->
  In b bs -> getMatchLevel b ctx = None.
Proof.
  intros Hlvl Hin. unfold route in Hlvl.
  destruct (route_loop _ ctx) as [res|] eqn:Hloop.
  - destruct (route_loop_Some _ _ _ Hloop) as (_ & b' & _ & _ & _ & Hb' & _).
    rewrite Hlvl in Hb'. now apply getMatchLevel_not_default in Hb'.
  - apply route_loop_None in Hloop. rewrite List.Forall_forall in Hloop.
    apply Hloop. eapply Permutation_in; [|exact Hin]. apply js_sort_perm.
Qed.

Lemma route_by_specificity_witness :
  matchedBinding (route (createRouter [telegram_any; telegram_group42] "home")
                        in_group42) = Some telegram_group42.
Proof.
  destruct (route_by_specificity [telegram_any; telegram_group42] "home" in_group42)
    as (_ & _ & _ & _ & _ & _ & _ & _ & _ & H).
  destruct (H telegram_group42) as (b & Hb & _).
  - simpl. auto.
  - reflexivity.
  - vm_compute. reflexivity.
Defined.

Lemma route_no_match_default_witness :
  (forall b, In b [telegram_any; telegram_group42] -> getMatchLevel b on_slack = None)
  /\ route (createRouter [telegram_any; telegram_group42] "main") on_slack
     = {| r_agentId := "main"; matchedBinding := None; matchLevel := default |}.
Proof.
  assert (H : forall b, In b [telegram_any; telegram_group42] ->
                        getMatchLevel b on_slack = None).
  { intros b [<-|[<-|[]]]; reflexivity. }
  split; [exact H|].
  apply (route_no_match_default _ _ _ H).
Defined.

(** *** Further properties of the router *)

Lemma level_of_score (b b' : AgentBinding) :
  getSpecificityScore b = getSpecificityScore b' -> level_of b = level_of b'.
Proof.
  rewrite !score_cases. unfold level_of.
  destruct (present (m_peer (match_ b))), (truthy (m_accountId (match_ b))),
    (present (m_peer (match_ b'))), (truthy (m_accountId (match_ b')));
    intros H; first [reflexivity|lia].
Qed.

(** In a list sorted by descending score the first match scores highest
    among the matches. *)
Lemma first_match_max (pre post : list AgentBinding) (b b' : AgentBinding)
    (ctx : RoutingContext) :
  StronglySorted score_ge (pre ++ b :: post) ->
  Forall (fun x => getMatchLevel x ctx = None) pre ->
  In b' (pre ++ b :: post) -> getMatchLevel b' ctx <> None ->
  (getSpecificityScore b' <= getSpecificityScore b)%Z.
Proof.
  intros Hsorted Hpre Hin Hmatch.
  apply in_app_or in Hin as [Hin|[->|Hin]].
  - rewrite List.Forall_forall in Hpre. now rewrite (Hpre b' Hin) in Hmatch.
  - lia.
  - apply StronglySorted_app_1_r in Hsorted.
    apply StronglySorted_inv in Hsorted as [_ Hall].
    rewrite List.Forall_forall in Hall. exact (Hall b' Hin).
Qed.

Lemma sortBySpecificity_perm (bs : list AgentBinding) :
  Permutation bs (sortBySpecificity bs).
Proof. apply js_sort_perm. Qed.

Lemma sortBySpecificity_sorted (bs : list AgentBinding) :
  StronglySorted score_ge (sortBySpecificity bs).
Proof. apply (js_sort_sorted getSpecificityScore). Qed.

(** What [route] says about the binding it reports: it is one of the
    declared bindings, it is on the context's channel, it matches the
    context at the reported level, which is the level its qualifiers stand
    for, the agent is its agent, and no declared binding that matches the
    context scores higher. *)
Theorem route_reports_best_match (bs : list AgentBinding) (d : string)
    (ctx : RoutingContext) (b : AgentBinding) :
  matchedBinding (route (createRouter bs d) ctx) = Some b ->
  In b bs
  /\ m_channel (match_ b) = channel ctx
  /\ getMatchLevel b ctx = Some (matchLevel (route (createRouter bs d) ctx))
  /\ matchLevel (route (createRouter bs d) ctx) = level_of b
  /\ r_agentId (route (createRouter bs d) ctx) = agentId b
  /\ (forall b', In b' bs -> getMatchLevel b' ctx <> None ->
        (getSpecificityScore b' <= getSpecificityScore b)%Z).
Proof.
  intros Hb.
  destruct (route_loop_Some _ _ _ (route_matched _ _ _ Hb))
    as (pre & b0 & post & Heq & Hpre & Hlvl & Hm & Hid).
  assert (b0 = b) as -> by congruence.
  cbn [bindings createRouter] in Heq.
  destruct (getMatchLevel_level_of _ _ _ Hlvl) as [Hlevel Hchannel].
  split_and!; try assumption.
  - eapply Permutation_in; [symmetry; apply sortBySpecificity_perm|].
    rewrite Heq. apply in_elt.
  - intros b' Hin Hmatch.
    apply (first_match_max pre post b b' ctx); try assumption.
    + rewrite <- Heq. apply sortBySpecificity_sorted.
    + rewrite <- Heq. eapply Permutation_in; [apply sortBySpecificity_perm|].
      exact Hin.
Qed.

Lemma route_reports_best_match_witness :
  r_agentId (route (createRouter [telegram_any; telegram_group42] "home") in_group42)
  = "work".
Proof.
  exact (proj1 (proj2 (proj2 (proj2 (proj2
           (route_reports_best_match [telegram_any; telegram_group42] "home"
              in_group42 telegram_group42 eq_refl)))))).
Defined.

(** The result of [route] as a function of the first match. *)
Lemma route_cases (bs : list AgentBinding) (d : string) (ctx : RoutingContext) :
  (route (createRouter bs d) ctx
   = {| r_agentId := d; matchedBinding := None; matchLevel := default |}
   /\ forall b, In b bs -> getMatchLevel b ctx = None)
  \/ (exists b,
        route (createRouter bs d) ctx
        = {| r_agentId := agentId b; matchedBinding := Some b;
             matchLevel := level_of b |}
        /\ In b bs /\ getMatchLevel b ctx <> None
        /\ forall b', In b' bs -> getMatchLevel b' ctx <> None ->
             (getSpecificityScore b' <= getSpecificityScore b)%Z).
Proof.
  destruct (matchedBinding (route (createRouter bs d) ctx)) as [b|] eqn:Hm.
  - right. exists b.
    destruct (route_loop_Some _ _ _ (route_matched _ _ _ Hm))
      as (pre & b0 & post & Heq & Hpre & Hlvl & Hm' & Hid).
    assert (b0 = b) as -> by congruence.
    cbn [bindings createRouter] in Heq.
    destruct (getMatchLevel_level_of _ _ _ Hlvl) as [Hlevel _].
    assert (Hin : In b bs).
    { eapply Permutation_in; [symmetry; apply sortBySpecificity_perm|].
      rewrite Heq. apply in_elt. }
    split_and!; try assumption.
    + destruct (route (createRouter bs d) ctx) as [a m l].
      cbn in *. congruence.
    + congruence.
    + intros b' Hin' Hmatch.
      apply (first_match_max pre post b b' ctx); try assumption.
      * rewrite <- Heq. apply sortBySpecificity_sorted.
      * rewrite <- Heq. eapply Permutation_in; [apply sortBySpecificity_perm|].
        exact Hin'.
  - left. unfold route in *.
    destruct (route_loop (bindings (createRouter bs d)) ctx) as [res|] eqn:Hloop.
    + destruct (route_loop_Some _ _ _ Hloop) as (_ & b & _ & _ & _ & _ & Hb & _).
      congruence.
    + split; [reflexivity|].
      apply route_loop_None in Hloop. rewrite List.Forall_forall in Hloop.
      intros b Hin. apply Hloop.
      eapply Permutation_in; [apply sortBySpecificity_perm|exact Hin].
Qed.

(** The level at which a context is routed does not depend on the order in
    which the bindings are declared, nor on the default agent. *)
Theorem route_level_order_independent (bs bs' : list AgentBinding)
    (d d' : string) (ctx : RoutingContext) :
  Permutation bs bs' ->
  matchLevel (route (createRouter bs d) ctx)
  = matchLevel (route (createRouter bs' d') ctx).
Proof.
  intros Hperm.
  destruct (route_cases bs d ctx) as [[-> Hnone]|(b & -> & Hin & Hb & Hmax)];
    destruct (route_cases bs' d' ctx)
      as [[-> Hnone']|(b' & -> & Hin' & Hb' & Hmax')]; cbn [matchLevel].
  - reflexivity.
  - exfalso. apply Hb', Hnone. eapply Permutation_in; [symmetry|]; eassumption.
  - exfalso. apply Hb, Hnone'. eapply Permutation_in; eassumption.
  - apply level_of_score.
    assert (Hb_in' : In b bs') by (eapply Permutation_in; eassumption).
    assert (Hb'_in : In b' bs)
      by (eapply Permutation_in; [symmetry|]; eassumption).
    pose proof (Hmax b' Hb'_in Hb'). pose proof (Hmax' b Hb_in' Hb). lia.
Qed.

Lemma route_level_order_independent_witness :
  matchLevel (route (createRouter [telegram_any; telegram_group42] "home") in_group42)
  = matchLevel (route (createRouter [telegram_group42; telegram_any] "work") in_group42).
Proof.
  apply route_level_order_independent. apply perm_swap.
Defined.

(** When no two distinct bindings that match the context have the same
    score, the whole routing decision is independent of the declaration
    order. *)
Theorem route_order_independent (bs bs' : list AgentBinding) (d : string)
    (ctx : RoutingContext) :
  Permutation bs bs' ->
  (forall b1 b2, In b1 bs -> In b2 bs ->
     getMatchLevel b1 ctx <> None -> getMatchLevel b2 ctx <> None ->
     getSpecificityScore b1 = getSpecificityScore b2 -> b1 = b2) ->
  route (createRouter bs d) ctx = route (createRouter bs' d) ctx.
Proof.
  intros Hperm Huniq.
  destruct (route_cases bs d ctx) as [[-> Hnone]|(b & -> & Hin & Hb & Hmax)];
    destruct (route_cases bs' d ctx)
      as [[-> Hnone']|(b' & -> & Hin' & Hb' & Hmax')].
  - reflexivity.
  - exfalso. apply Hb', Hnone. eapply Permutation_in; [symmetry|]; eassumption.
  - exfalso. apply Hb, Hnone'. eapply Permutation_in; eassumption.
  - assert (Hb_in' : In b bs') by (eapply Permutation_in; eassumption).
    assert (Hb'_in : In b' bs)
      by (eapply Permutation_in; [symmetry|]; eassumption).
    pose proof (Hmax b' Hb'_in Hb'). pose proof (Hmax' b Hb_in' Hb).
    assert (b = b') as -> by (apply Huniq; try assumption; lia).
    reflexivity.
Qed.

Lemma route_order_independent_witness :
  route (createRouter [telegram_any; telegram_group42] "home") in_group42
  = route (createRouter [telegram_group42; telegram_any] "home") in_group42.
Proof.
  apply route_order_independent; [apply perm_swap|].
  intros b1 b2 [<-|[<-|[]]] [<-|[<-|[]]] _ _ Hscore;
    first [reflexivity|discriminate Hscore].
Defined.

(** Building a router from bindings that are already in the router's order
    changes nothing: sorting is idempotent. *)
Theorem createRouter_idempotent (bs : list AgentBinding) (d : string) :
  createRouter (bindings (createRouter bs d)) d = createRouter bs d.
Proof.
  unfold createRouter. cbn [bindings]. f_equal.
  apply (js_sort_sorted_id getSpecificityScore), sortBySpecificity_sorted.
Qed.

(** Empty strings count as absent.  A binding whose account id is the empty
    string matches and ranks exactly like the binding without it; a peer
    binding whose peer id is empty matches no context at all. *)
Theorem empty_qualifiers (b : AgentBinding) (ctx : RoutingContext) :
  (m_accountId (match_ b) = Some "" ->
   getMatchLevel b ctx = getMatchLevel (without_account b) ctx
   /\ getSpecificityScore b = getSpecificityScore (without_account b))
  /\ (forall p, m_peer (match_ b) = Some p -> p_id p = "" ->
        getMatchLevel b ctx = None).
Proof.
  split.
  - intros Hacc. unfold getMatchLevel, getSpecificityScore, without_account.
    cbn [match_ m_channel m_accountId m_peer]. rewrite Hacc.
    cbn [truthy andb]. split; reflexivity.
  - intros p Hp Hid. unfold getMatchLevel. rewrite Hp, Hid.
    destruct (negb (m_channel (match_ b) =? channel ctx)%string); [reflexivity|].
    destruct (peerId ctx) as [i|]; [|reflexivity].
    destruct (decide (i = "")) as [->|Hne]; [reflexivity|].
    cbn [truthy]. rewrite (bool_decide_eq_false_2 _ Hne). cbn [negb orb].
    destruct (negb (present (peerKind ctx))); [reflexivity|].
    destruct (negb (bool_decide (Some (p_kind p) = peerKind ctx))); [reflexivity|].
    rewrite bool_decide_eq_false_2; [reflexivity|]. congruence.
Qed.

Lemma empty_qualifiers_witness : getMatchLevel telegram_nobody in_group42 = None.
Proof.
  exact (proj2 (empty_qualifiers telegram_nobody in_group42)
               {| p_kind := group; p_id := "" |} eq_refl eq_refl).
Defined.

(** Only the bindings that match count, and among them the order. *)
Lemma route_loop_filter (l : list AgentBinding) (ctx : RoutingContext) :
  route_loop l ctx = route_loop (List.filter (matches ctx) l) ctx.
Proof.
  induction l as [|b l IH]; [reflexivity|].
  cbn [route_loop List.filter]. unfold matches at 1.
  destruct (getMatchLevel b ctx) eqn:Hb; cbn [present route_loop].
  - now rewrite Hb.
  - exact IH.
Qed.

Lemma route_loop_app (l l' : list AgentBinding) (ctx : RoutingContext) :
  route_loop (l ++ l') ctx
  = match route_loop l ctx with
    | Some res => Some res
    | None => route_loop l' ctx
    end.
Proof.
  induction l as [|b l IH]; [reflexivity|].
  cbn [app route_loop]. destruct (getMatchLevel b ctx); [reflexivity|exact IH].
Qed.

Lemma route_loop_sorted (bs : list AgentBinding) (ctx : RoutingContext) :
  route_loop (sortBySpecificity bs) ctx
  = route_loop (sortBySpecificity (List.filter (matches ctx) bs)) ctx.
Proof.
  rewrite route_loop_filter. unfold sortBySpecificity.
  rewrite (js_sort_filter getSpecificityScore).
  symmetry. rewrite route_loop_filter.
  rewrite (js_sort_filter getSpecificityScore).
  f_equal. f_equal. clear. induction bs as [|b bs IH]; [reflexivity|].
  cbn [List.filter]. destruct (matches ctx b) eqn:Hb; [|exact IH].
  cbn [List.filter]. rewrite Hb. now rewrite IH.
Qed.

(** The agent of a match is the agent of one of the bindings. *)
Lemma route_loop_agent (l : list AgentBinding) (ctx : RoutingContext)
    (res : RoutingResult) :
  route_loop l ctx = Some res -> exists b, In b l /\ r_agentId res = agentId b.
Proof.
  intros (pre & b & post & -> & _ & _ & _ & Hid)%route_loop_Some.
  exists b. split; [apply in_elt|exact Hid].
Qed.

(** A context goes to the default agent or to the agent of a binding. *)
Lemma route_agent_cases (bs : list AgentBinding) (d : string)
    (ctx : RoutingContext) :
  r_agentId (route (createRouter bs d) ctx) = d
  \/ exists b, In b bs /\ r_agentId (route (createRouter bs d) ctx) = agentId b.
Proof.
  unfold route. cbn [createRouter bindings defaultAgentId].
  destruct (route_loop (sortBySpecificity bs) ctx) as [res|] eqn:Hloop;
    [|now left].
  right. apply route_loop_agent in Hloop as (b & Hin & Hid).
  exists b. split; [|exact Hid].
  eapply Permutation_in; [symmetry; apply sortBySpecificity_perm|exact Hin].
Qed.

(** What a match says of the context. *)
(** [getRoutedAgentIds] *)
Lemma set_add_In (x y : string) (ids : list string) :
  In y (set_add x ids) <-> y = x \/ In y ids.
Proof.
  unfold set_add. case_bool_decide as Hx.
  - apply list_elem_of_In in Hx. split; [tauto|]. intros [->|H]; assumption.
  - rewrite in_app_iff. simpl. intuition congruence.
Qed.

Lemma set_add_NoDup (x : string) (ids : list string) :
  NoDup ids -> NoDup (set_add x ids).
Proof.
  intros Hnd. unfold set_add. case_bool_decide as Hx; [exact Hnd|].
  apply NoDup_app. split_and!; [exact Hnd| |apply NoDup_singleton].
  intros y Hy Hyx. apply list_elem_of_singleton in Hyx. congruence.
Qed.

Lemma collected_ids_In (bs : list AgentBinding) (acc : list string) (x : string) :
  In x (fold_left (fun ids binding => set_add (agentId binding) ids) bs acc)
  <-> In x acc \/ exists b, In b bs /\ agentId b = x.
Proof.
  revert acc. induction bs as [|b bs IH]; intros acc; cbn [fold_left].
  - split; [tauto|]. intros [H|(b & [] & _)]. exact H.
  - rewrite IH, set_add_In. split.
    + intros [[->|H]|(b' & Hin & Hb')]; eauto 6 using in_eq, in_cons.
    + intros [H|(b' & [<-|Hin] & Hb')]; eauto 6.
Qed.

Lemma collected_ids_NoDup (bs : list AgentBinding) (acc : list string) :
  NoDup acc ->
  NoDup (fold_left (fun ids binding => set_add (agentId binding) ids) bs acc).
Proof.
  revert acc. induction bs as [|b bs IH]; intros acc Hacc; [exact Hacc|].
  cbn [fold_left]. apply IH, set_add_NoDup, Hacc.
Qed.

(** [getRoutedAgentIds] lists, without repetition, exactly the default agent
    and the agents of the bindings; in particular every agent that [route]
    can return is listed. *)
Theorem getRoutedAgentIds_complete (r : MessageRouter) :
  NoDup (getRoutedAgentIds r)
  /\ (forall x, In x (getRoutedAgentIds r)
                <-> x = defaultAgentId r
                    \/ exists b, In b (bindings r) /\ agentId b = x)
  /\ (forall ctx, In (r_agentId (route r ctx)) (getRoutedAgentIds r)).
Proof.
  assert (Hin : forall x, In x (getRoutedAgentIds r)
                <-> x = defaultAgentId r
                    \/ exists b, In b (bindings r) /\ agentId b = x).
  { intros x. unfold getRoutedAgentIds. rewrite set_add_In, collected_ids_In.
    cbn [In]. tauto. }
  split_and!; [|exact Hin|].
  - apply set_add_NoDup, collected_ids_NoDup, NoDup_nil_2.
  - intros ctx. apply Hin. unfold route.
    destruct (route_loop (bindings r) ctx) as [res|] eqn:Hloop; [|now left].
    destruct (route_loop_Some _ _ _ Hloop) as (pre & b & post & Heq & _ & _ & _ & Hid).
    right. exists b. split; [|now symmetry]. rewrite Heq. apply in_elt.
Qed.

Lemma routed_agent_listed (r : MessageRouter) (ctx : RoutingContext) :
  In (r_agentId (route r ctx)) (getRoutedAgentIds r).
Proof.
  unfold getRoutedAgentIds. rewrite set_add_In, collected_ids_In.
  unfold route.
  destruct (route_loop (bindings r) ctx) as [res|] eqn:Hloop; [|now left].
  apply route_loop_agent in Hloop as (b & Hin & Hid). right. right. eauto.
Qed.

(** [getBindingsForAgent] *)
Lemma filter_Permutation' {A : Type} (f : A -> bool) (l l' : list A) :
  Permutation l l' -> Permutation (List.filter f l) (List.filter f l').
Proof.
  induction 1 as [|x l l' _ IH|x y l|l l' l'' _ IH1 _ IH2]; cbn [List.filter].
  - constructor.
  - destruct (f x); [now constructor|exact IH].
  - destruct (f x), (f y); try reflexivity. apply perm_swap.
  - etransitivity; eassumption.
Qed.

Lemma filter_StronglySorted {A : Type} (R : A -> A -> Prop) (f : A -> bool)
    (l : list A) :
  StronglySorted R l -> StronglySorted R (List.filter f l).
Proof.
  induction 1 as [|x l Hs IH Hx]; cbn [List.filter]; [constructor|].
  destruct (f x); [|exact IH].
  constructor; [exact IH|].
  rewrite List.Forall_forall in *. intros y Hy.
  apply List.filter_In in Hy as [Hy _]. exact (Hx y Hy).
Qed.

(** [getBindingsForAgent] returns the bindings declared for that agent, all
    of them and nothing else, most specific first; the binding by which a
    context is routed is among those of the agent it is routed to. *)
Theorem getBindingsForAgent_complete (bs : list AgentBinding) (d agent : string) :
  let r := createRouter bs d in
  Permutation (getBindingsForAgent r agent)
              (List.filter (fun b => bool_decide (agentId b = agent)) bs)
  /\ StronglySorted score_ge (getBindingsForAgent r agent)
  /\ (forall ctx b, matchedBinding (route r ctx) = Some b ->
        In b (getBindingsForAgent r (r_agentId (route r ctx)))).
Proof.
  intros r. split_and!.
  - apply filter_Permutation'. symmetry. apply sortBySpecificity_perm.
  - apply filter_StronglySorted, sortBySpecificity_sorted.
  - intros ctx b Hb.
    destruct (route_loop_Some _ _ _ (route_matched _ _ _ Hb))
      as (pre & b0 & post & Heq & _ & _ & Hm & Hid).
    assert (b0 = b) as -> by congruence.
    apply List.filter_In. split.
    + rewrite Heq. apply in_elt.
    + apply bool_decide_eq_true_2. now symmetry.
Qed.

Lemma getBindingsForAgent_complete_witness :
  In telegram_group42
     (getBindingsForAgent (createRouter [telegram_any; telegram_group42] "home")
                          "work").
Proof.
  exact (proj2 (proj2 (getBindingsForAgent_complete
                         [telegram_any; telegram_group42] "home" "work"))
               in_group42 telegram_group42 eq_refl).
Defined.

End RouterFacts.

(** ** The conversation-key resolver *)
Module ConversationKeyFacts.
Import ConversationKey.

(** The expectations of [resolveConversationKey]'s test suite. *)
Example resolveConversationKey_tests :
  resolveConversationKey "telegram" (Some shared) ∅ = "shared"
  /\ resolveConversationKey "telegram" (Some per_channel) ∅ = "telegram"
  /\ resolveConversationKey "slack" (Some shared) {["slack"]} = "slack"
  /\ resolveConversationKey "telegram" (Some shared) {["slack"]} = "shared"
  /\ resolveConversationKey "slack" (Some shared) {["slack"; "discord"]} = "slack"
  /\ resolveConversationKey "discord" (Some shared) {["slack"; "discord"]} = "discord"
  /\ resolveConversationKey "telegram" (Some shared) {["slack"; "discord"]} = "shared"
  /\ resolveConversationKey "SLACK" (Some shared) {["slack"]} = "slack"
  /\ resolveConversationKey "Telegram" (Some per_channel) ∅ = "telegram"
  /\ resolveConversationKey "Slack" (Some shared) {["slack"]} = "slack"
  /\ resolveConversationKey "slack" (Some per_channel) {["slack"]} = "slack"
  /\ resolveConversationKey "telegram" None ∅ = "shared".
Proof. vm_compute. repeat split. Qed.

(** The expectations of [resolveHeartbeatConversationKey]'s test suite. *)
Example resolveHeartbeatConversationKey_tests :
  resolveHeartbeatConversationKey (Some per_channel) (Some "dedicated") ∅ None
    = Some "heartbeat"
  /\ resolveHeartbeatConversationKey (Some per_channel) (Some "last-active") ∅
       (Some "telegram") = Some "telegram"
  /\ resolveHeartbeatConversationKey (Some per_channel) (Some "last-active") ∅ None
     = Some "shared"
  /\ resolveHeartbeatConversationKey (Some per_channel) (Some "discord") ∅
       (Some "telegram") = Some "discord"
  /\ resolveHeartbeatConversationKey (Some shared) (Some "last-active") ∅
       (Some "telegram") = Some "shared"
  /\ resolveHeartbeatConversationKey (Some shared) None ∅ (Some "telegram")
     = Some "shared"
  /\ resolveHeartbeatConversationKey (Some shared) (Some "last-active") {["slack"]}
       (Some "slack") = Some "slack"
  /\ resolveHeartbeatConversationKey (Some shared) (Some "last-active") {["slack"]}
       (Some "telegram") = Some "shared"
  /\ resolveHeartbeatConversationKey (Some shared) (Some "last-active") {["slack"]}
       None = Some "shared"
  /\ resolveHeartbeatConversationKey (Some shared) (Some "dedicated") {["slack"]}
       (Some "slack") = Some "shared".
Proof. vm_compute. repeat split. Qed.

(** C6.  In per-chat and per-channel mode the key is the lowercased channel
    id; in shared mode it is the lowercased channel id when that is in the
    override set and "shared" otherwise; an undefined mode behaves as
    shared.  Only the lowercased form of the channel matters. *)
Theorem resolveConversationKey_spec (channel : string) (overrides : gset string) :
  resolveConversationKey channel (Some per_chat) overrides = toLowerCase channel
  /\ resolveConversationKey channel (Some per_channel) overrides = toLowerCase channel
  /\ (toLowerCase channel ∈ overrides ->
      resolveConversationKey channel (Some shared) overrides = toLowerCase channel)
  /\ (toLowerCase channel ∉ overrides ->
      resolveConversationKey channel (Some shared) overrides = "shared")
  /\ (toLowerCase channel <> "shared" ->
      resolveConversationKey channel (Some shared) overrides = toLowerCase channel
      <-> toLowerCase channel ∈ overrides)
  /\ resolveConversationKey channel None overrides
     = resolveConversationKey channel (Some shared) overrides
  /\ (forall mode channel',
        toLowerCase channel' = toLowerCase channel ->
        resolveConversationKey channel' mode overrides
        = resolveConversationKey channel mode overrides).
Proof.
  unfold resolveConversationKey.
  repeat split; try reflexivity.
  - intros Hin. now rewrite bool_decide_eq_true_2.
  - intros Hnin. now rewrite bool_decide_eq_false_2.
  - case_bool_decide; [tauto|]. intros Heq. congruence.
  - intros Hin. now rewrite bool_decide_eq_true_2.
  - intros mode channel' ->. reflexivity.
Qed.

Lemma resolveConversationKey_spec_witness :
  resolveConversationKey "SLACK" (Some shared) {["slack"]} = "slack".
Proof.
  destruct (resolveConversationKey_spec "SLACK" {["slack"]}) as (_ & _ & H & _).
  apply H. vm_compute. reflexivity.
Defined.

(** C7.  Per-channel mode: "dedicated" gives "heartbeat", "last-active"
    gives the last-active channel or "shared" without one, any other literal
    is the key.  Shared mode: the key is "shared" unless the setting is
    "last-active" and the lowercased last-active channel is in the override
    set; then it is that channel.  The override test only looks at the
    lowercased channel. *)
Theorem resolveHeartbeatConversationKey_spec (overrides : gset string)
    (heartbeatSetting lastActiveChannel : option string) :
  resolveHeartbeatConversationKey (Some per_channel) (Some "dedicated")
    overrides lastActiveChannel = Some "heartbeat"
  /\ resolveHeartbeatConversationKey (Some per_channel) (Some "last-active")
       overrides lastActiveChannel = Some (default "shared" lastActiveChannel)
  /\ (forall literal, literal <> "dedicated" -> literal <> "last-active" ->
        resolveHeartbeatConversationKey (Some per_channel) (Some literal)
          overrides lastActiveChannel = Some literal)
  /\ (forall last, heartbeatSetting = Some "last-active" ->
        lastActiveChannel = Some last -> toLowerCase last ∈ overrides ->
        resolveHeartbeatConversationKey (Some shared) heartbeatSetting
          overrides lastActiveChannel = Some last)
  /\ (heartbeatSetting <> Some "last-active" ->
      resolveHeartbeatConversationKey (Some shared) heartbeatSetting
        overrides lastActiveChannel = Some "shared")
  /\ (lastActiveChannel = None ->
      resolveHeartbeatConversationKey (Some shared) heartbeatSetting
        overrides lastActiveChannel = Some "shared")
  /\ (forall last, lastActiveChannel = Some last -> toLowerCase last ∉ overrides ->
        resolveHeartbeatConversationKey (Some shared) heartbeatSetting
          overrides lastActiveChannel = Some "shared").
Proof.
  unfold resolveHeartbeatConversationKey.
  repeat split.
  - intros literal Hd Hl.
    rewrite !bool_decide_eq_false_2 by assumption. reflexivity.
  - intros last -> -> Hin.
    rewrite (bool_decide_eq_true_2 _ Hin), (bool_decide_eq_true_2 _ eq_refl).
    reflexivity.
  - intros Hne. destruct lastActiveChannel; [|reflexivity].
    rewrite (bool_decide_eq_false_2 _ Hne). reflexivity.
  - intros ->. reflexivity.
  - intros last -> Hnin.
    rewrite (bool_decide_eq_false_2 _ Hnin), andb_false_r. reflexivity.
Qed.

Lemma resolveHeartbeatConversationKey_spec_witness :
  resolveHeartbeatConversationKey (Some shared) (Some "last-active")
    {["slack"]} (Some "Slack") = Some "Slack".
Proof.
  destruct (resolveHeartbeatConversationKey_spec {["slack"]}
              (Some "last-active") (Some "Slack")) as (_ & _ & _ & H & _).
  apply (H "Slack"); [reflexivity|reflexivity|].
  vm_compute. reflexivity.
Defined.

End ConversationKeyFacts.

(** ** The agent instance *)
Module AgentFacts.
Import Agent.

(** *** Running the monad *)

Lemma bind_inr {A B : Type} (m : M A) (f : A -> M B) (s : Sys)
    (a : A) (s1 : Sys) (o1 : list Event) :
  m s = mkRes (inr a) s1 o1 ->
  (m ≫= f) s = mkRes (val (f a s1)) (post (f a s1)) (o1 ++ out (f a s1)).
Proof. intros H. unfold mbind, M_bind. rewrite H. reflexivity. Qed.

Lemma bind_inl {A B : Type} (m : M A) (f : A -> M B) (s : Sys)
    (e : JsError) (s1 : Sys) (o1 : list Event) :
  m s = mkRes (inl e) s1 o1 ->
  (m ≫= f) s = mkRes (inl e) s1 o1.
Proof. intros H. unfold mbind, M_bind. rewrite H. reflexivity. Qed.

Lemma count_app (p : Event -> bool) (l1 l2 : list Event) :
  count p (l1 ++ l2) = count p l1 + count p l2.
Proof. unfold count. now rewrite List.filter_app, length_app. Qed.

Lemma count_zero_filter (p : Event -> bool) (l : list Event) :
  count p l <= 0 -> List.filter p l = [].
Proof.
  unfold count. destruct (List.filter p l); simpl; [reflexivity|lia].
Qed.

(** *** Invariants and call counts, rule by rule *)
Section Keeps.
Variable I : AgentState -> option AgentState -> Prop.
Variable p : Event -> bool.

Lemma keeps_ret {A : Type} (n : nat) (x : A) : keeps I p n (mret x).
Proof. intros s Hs. split; [exact Hs|apply Nat.le_0_l]. Qed.

Lemma keeps_throw {A : Type} (n : nat) (e : JsError) : keeps I p n (@throw A e).
Proof. intros s Hs. split; [exact Hs|apply Nat.le_0_l]. Qed.

Lemma keeps_settle {A : Type} (n : nat) (r : JsError + A) : keeps I p n (settle r).
Proof. destruct r; [apply keeps_throw|apply keeps_ret]. Qed.

Lemma keeps_bind {A B : Type} (n1 n2 : nat) (m : M A) (f : A -> M B) :
  keeps I p n1 m -> (forall a, keeps I p n2 (f a)) ->
  keeps I p (n1 + n2) (m ≫= f).
Proof.
  intros Hm Hf s Hs. destruct (Hm s Hs) as [Hs1 Hc1].
  unfold mbind, M_bind. destruct (val (m s)) as [e|a]; simpl.
  - split; [assumption|lia].
  - destruct (Hf a _ Hs1) as [Hs2 Hc2].
    split; [assumption|]. rewrite count_app. lia.
Qed.

Lemma keeps_seq {A B : Type} (n : nat) (m : M A) (f : A -> M B) :
  keeps I p 0 m -> (forall a, keeps I p n (f a)) -> keeps I p n (m ≫= f).
Proof. intros Hm Hf. exact (keeps_bind 0 n m f Hm Hf). Qed.

Lemma keeps_first {A B : Type} (n : nat) (m : M A) (f : A -> M B) :
  keeps I p n m -> (forall a, keeps I p 0 (f a)) -> keeps I p n (m ≫= f).
Proof.
  intros Hm Hf. rewrite <- (Nat.add_0_r n). exact (keeps_bind n 0 m f Hm Hf).
Qed.

Lemma keeps_attempt {A : Type} (n : nat) (m : M A) :
  keeps I p n m -> keeps I p n (attempt m).
Proof. intros Hm s Hs. exact (Hm s Hs). Qed.

Lemma keeps_emit (n : nat) (e : Event) : p e = false -> keeps I p n (emit e).
Proof.
  intros He s Hs. split; [exact Hs|].
  unfold count. simpl. rewrite He. apply Nat.le_0_l.
Qed.

Lemma keeps_emit_one (n : nat) (e : Event) : keeps I p (S n) (emit e).
Proof.
  intros s Hs. split; [exact Hs|].
  unfold count. simpl. destruct (p e); simpl; lia.
Qed.

Lemma keeps_ask {A : Type} (n : nat) (d : A) (get : World -> list A)
    (put : list A -> World -> World) : keeps I p n (ask d get put).
Proof. intros s Hs. split; [exact Hs|apply Nat.le_0_l]. Qed.

Lemma keeps_get_state (n : nat) : keeps I p n get_state.
Proof. intros s Hs. split; [exact Hs|apply Nat.le_0_l]. Qed.

Lemma keeps_getenv (n : nat) : keeps I p n getenv_LETTA_BASE_URL.
Proof. intros s Hs. split; [exact Hs|apply Nat.le_0_l]. Qed.

Lemma keeps_modify_state (n : nat) (f : AgentState -> AgentState) :
  (forall st d, I st d -> I (f st) d) -> keeps I p n (modify_state f).
Proof. intros Hf s Hs. split; [apply Hf, Hs|apply Nat.le_0_l]. Qed.

Lemma keeps_new_session (n : nat) (ev : nat -> string -> Event)
    (handle : string) (sc : SessionScript) :
  (forall k, p (ev k handle) = false) -> keeps I p n (new_session ev handle sc).
Proof.
  intros He s Hs. split; [exact Hs|].
  unfold count. simpl. rewrite He. apply Nat.le_0_l.
Qed.

Hypothesis I_write : forall st d ok, I st d -> I st (if ok : bool then Some st else d).
Hypothesis p_write : forall st d ok, I st d -> p (EvWriteState st ok) = false.

Lemma keeps_saveState (n : nat) : keeps I p n saveState.
Proof.
  intros s Hs. split; [apply I_write, Hs|].
  unfold count. simpl. rewrite (p_write _ _ _ Hs). apply Nat.le_0_l.
Qed.

End Keeps.

Create HintDb keeps.

#[local] Hint Resolve keeps_ret keeps_throw keeps_settle keeps_ask
  keeps_get_state keeps_getenv keeps_saveState : keeps.

(** One step through the structure of a computation. *)
Ltac keeps_step :=
  match goal with
  | |- keeps _ _ _ (attempt _) => apply keeps_attempt
  | |- keeps _ _ _ (emit _) => apply keeps_emit; solve [auto]
  | |- keeps _ _ _ (modify_state _) => apply keeps_modify_state; solve [auto]
  | |- keeps _ _ _ (new_session _ _ _) => apply keeps_new_session; solve [auto]
  | |- keeps _ _ _ (_ ≫= _) => apply keeps_seq; [|intros]
  | |- keeps _ _ _ (if ?b then _ else _) => destruct b
  | |- keeps _ _ _ (match ?x with _ => _ end) => destruct x
  | |- keeps _ _ _ _ => solve [auto with keeps]
  end.

(** *** Invariants and call counts, function by function *)
Section KeepsAgent.
Variable formatMessageEnvelope : InboundMessage -> string.
Variable cfg : AgentInstanceConfig.
Variable I : AgentState -> option AgentState -> Prop.
Variable p : Event -> bool.

Hypothesis I_write : forall st d ok, I st d -> I st (if ok : bool then Some st else d).
Hypothesis p_write : forall st d ok, I st d -> p (EvWriteState st ok) = false.
Hypothesis I_agentId : forall st d a, I st d -> I (set_agentId a st) d.
Hypothesis I_conversationId : forall st d c, I st d -> I (set_conversationId c st) d.
Hypothesis I_baseUrl : forall st d b, I st d -> I (set_baseUrl b st) d.
Hypothesis I_createdAt : forall st d t, I st d -> I (set_createdAt t st) d.
Hypothesis I_lastUsedAt : forall st d t, I st d -> I (set_lastUsedAt t st) d.
Hypothesis I_lastMessageTarget :
  forall st d t, I st d -> I (set_lastMessageTarget t st) d.
Hypothesis I_reset : forall st d, I st d -> I emptyState d.

Hypothesis p_typing : forall a c, p (EvTypingIndicator a c) = false.
Hypothesis p_setenv : forall v, p (EvSetEnvAgentId v) = false.
Hypothesis p_createAgent : forall m, p (EvCreateAgent m) = false.
Hypothesis p_resume : forall k h, p (EvResumeSession k h) = false.
Hypothesis p_createSession : forall k h, p (EvCreateSession k h) = false.
Hypothesis p_initialize : forall k, p (EvInitialize k) = false.
Hypothesis p_stream : forall k m, p (EvStreamMsg k m) = false.
Hypothesis p_close : forall k, p (EvClose k) = false.
Hypothesis p_sendMessage : forall a m, p (EvSendMessage a m) = false.
Hypothesis p_editMessage : forall a c m b, p (EvEditMessage a c m b) = false.
Hypothesis p_setInterval : p EvSetInterval = false.
Hypothesis p_clearInterval : p EvClearInterval = false.
Hypothesis p_updateAgentName : forall a n, p (EvUpdateAgentName a n) = false.

(** A bound on the [send] calls is a parameter: they are what is counted. *)
Variable sends : nat.
Hypothesis p_send :
  forall session body, keeps I p sends (session_send session body).

#[local] Hint Resolve keeps_ret keeps_throw keeps_settle keeps_ask
  keeps_get_state keeps_getenv : keeps.

Lemma keeps_saveState' (n : nat) : keeps I p n saveState.
Proof. apply keeps_saveState; assumption. Qed.
#[local] Hint Resolve keeps_saveState' : keeps.

Lemma keeps_toISOString (n : nat) : keeps I p n toISOString.
Proof. apply keeps_ask. Qed.

Lemma keeps_dateNow (n : nat) : keeps I p n dateNow.
Proof. apply keeps_ask. Qed.
#[local] Hint Resolve keeps_toISOString keeps_dateNow : keeps.

Lemma keeps_sendTypingIndicator (n : nat) (adapter : ChannelAdapter) (chat : string) :
  keeps I p n (sendTypingIndicator adapter chat).
Proof. unfold sendTypingIndicator. repeat keeps_step. Qed.

Lemma keeps_sendMessage (n : nat) (adapter : ChannelAdapter) (m : OutboundMessage) :
  keeps I p n (sendMessage adapter m).
Proof. unfold sendMessage. repeat keeps_step. Qed.

Lemma keeps_editMessage (n : nat) (adapter : ChannelAdapter) (chat message body : string) :
  keeps I p n (editMessage adapter chat message body).
Proof. unfold editMessage. repeat keeps_step. Qed.

Lemma keeps_createAgent (n : nat) : keeps I p n (createAgent cfg).
Proof. unfold createAgent. repeat keeps_step. Qed.

Lemma keeps_resumeSession (n : nat) (handle : string) :
  keeps I p n (resumeSession handle).
Proof. unfold resumeSession, open_session. repeat keeps_step. Qed.

Lemma keeps_createSession (n : nat) (handle : string) :
  keeps I p n (createSession handle).
Proof. unfold createSession, open_session. repeat keeps_step. Qed.

Lemma keeps_session_initialize (n : nat) (session : Session) :
  keeps I p n (session_initialize session).
Proof. unfold session_initialize. repeat keeps_step. Qed.

Lemma keeps_session_close (n : nat) (session : Session) :
  keeps I p n (session_close session).
Proof. unfold session_close. repeat keeps_step. Qed.

Lemma keeps_await (n : nat) (promise : Outcome) : keeps I p n (await promise).
Proof. unfold await. repeat keeps_step. Qed.
#[local] Hint Resolve keeps_await : keeps.

Lemma keeps_withTimeout (n : nat) (promise : Outcome) (label : string) (ms : Z) :
  keeps I p n (withTimeout promise label ms).
Proof. unfold withTimeout. repeat keeps_step. Qed.

Lemma keeps_updateAgentName (n : nat) (agent agentName : string) :
  keeps I p n (updateAgentName agent agentName).
Proof. unfold updateAgentName. repeat keeps_step. Qed.

#[local] Hint Resolve keeps_sendTypingIndicator keeps_sendMessage
  keeps_editMessage keeps_createAgent keeps_resumeSession keeps_createSession
  keeps_session_initialize keeps_session_close keeps_withTimeout
  keeps_updateAgentName : keeps.

Lemma keeps_handleSessionResult (n : nat) (a c : option string) :
  keeps I p n (handleSessionResult cfg a c).
Proof. unfold handleSessionResult. repeat keeps_step. Qed.
#[local] Hint Resolve keeps_handleSessionResult : keeps.

Lemma keeps_on_assistant (n : nat) (adapter : ChannelAdapter)
    (msg : InboundMessage) (content : string) (loc : StreamLocals) :
  keeps I p n (on_assistant adapter msg content loc).
Proof. unfold on_assistant. repeat keeps_step. Qed.
#[local] Hint Resolve keeps_on_assistant : keeps.

Lemma keeps_stream_loop (n : nat) (adapter : ChannelAdapter)
    (msg : InboundMessage) (session : Session) (items : list StreamItem)
    (loc : StreamLocals) :
  keeps I p n (stream_loop cfg adapter msg session items loc).
Proof.
  revert loc. induction items as [|item rest IH]; intros loc; simpl.
  - apply keeps_ret.
  - destruct item as [streamMsg|e]; [|apply keeps_throw].
    apply keeps_seq; [apply keeps_emit, p_stream|intros _].
    apply keeps_seq.
    + destruct streamMsg; auto with keeps.
    + intros loc'. destruct streamMsg; [apply IH| |apply IH].
      repeat keeps_step.
Qed.
#[local] Hint Resolve keeps_stream_loop : keeps.

Lemma keeps_deliver_final (n : nat) (adapter : ChannelAdapter)
    (msg : InboundMessage) (loc : StreamLocals) :
  keeps I p n (deliver_final adapter msg loc).
Proof. unfold deliver_final. repeat keeps_step. Qed.
#[local] Hint Resolve keeps_deliver_final : keeps.

Lemma keeps_send_and_stream (adapter : ChannelAdapter) (msg : InboundMessage)
    (session : Session) :
  keeps I p sends (send_and_stream formatMessageEnvelope cfg adapter msg session).
Proof.
  unfold send_and_stream.
  apply keeps_first; [apply p_send|intros promise].
  repeat keeps_step.
Qed.

Lemma keeps_select_session (n : nat) : keeps I p n (select_session cfg).
Proof. unfold select_session. repeat keeps_step. Qed.

Lemma keeps_initialize_session (n : nat) (session : Session) (d sp : bool) :
  keeps I p n (initialize_session session d sp).
Proof. unfold initialize_session. repeat keeps_step. Qed.

Lemma keeps_report_error (n : nat) (adapter : ChannelAdapter)
    (msg : InboundMessage) (tried : JsError + unit) :
  keeps I p n (report_error adapter msg tried).
Proof. unfold report_error. repeat keeps_step. Qed.

Lemma keeps_conclude (msg : InboundMessage) (adapter : ChannelAdapter)
    (session : Session) (initialized : JsError + unit) :
  keeps I p sends (conclude formatMessageEnvelope cfg msg adapter session initialized).
Proof.
  unfold conclude. apply keeps_first.
  - destruct initialized; [apply keeps_ret|].
    apply keeps_attempt, keeps_send_and_stream.
  - intros tried.
    apply keeps_seq; [apply keeps_report_error|intros caught].
    repeat keeps_step.
Qed.

Lemma keeps_guarded (msg : InboundMessage) (adapter : ChannelAdapter)
    (session : Session) (d sp : bool) :
  keeps I p sends (guarded formatMessageEnvelope cfg msg adapter session d sp).
Proof.
  unfold guarded.
  apply keeps_seq; [apply keeps_initialize_session|intros [session' initialized]].
  apply keeps_conclude.
Qed.

Lemma keeps_handle_tracked (msg : InboundMessage) (adapter : ChannelAdapter) :
  keeps I p sends (handle_tracked formatMessageEnvelope cfg msg adapter).
Proof.
  unfold handle_tracked.
  apply keeps_seq; [apply keeps_sendTypingIndicator|intros _].
  apply keeps_seq; [apply keeps_select_session|intros [[session d] sp]].
  apply keeps_guarded.
Qed.

Lemma keeps_track_target (n : nat) (msg : InboundMessage) :
  keeps I p n (track_target msg).
Proof. unfold track_target. repeat keeps_step. Qed.

Lemma keeps_handleMessage (msg : InboundMessage) (adapter : ChannelAdapter) :
  keeps I p sends (handleMessage formatMessageEnvelope cfg msg adapter).
Proof.
  unfold handleMessage.
  apply keeps_seq; [apply keeps_track_target|intros _].
  apply keeps_handle_tracked.
Qed.

Lemma keeps_collect_stream (n : nat) (session : Session)
    (items : list StreamItem) (response : string) :
  keeps I p n (collect_stream cfg session items response).
Proof.
  revert response. induction items as [|item rest IH]; intros response; simpl.
  - apply keeps_ret.
  - destruct item as [streamMsg|e]; [|apply keeps_throw].
    apply keeps_seq; [apply keeps_emit, p_stream|intros _].
    destruct streamMsg; [apply IH| |apply IH].
    repeat keeps_step.
Qed.

Lemma keeps_sendToAgent_session (n : nat) : keeps I p n (sendToAgent_session cfg).
Proof. unfold sendToAgent_session. repeat keeps_step. Qed.

(** [sendToAgent], for a kind of call that excludes [send]. *)
Hypothesis p_no_send : forall k body, p (EvSend k body) = false.

Lemma keeps_session_send (n : nat) (session : Session) (body : string) :
  keeps I p n (session_send session body).
Proof. unfold session_send. repeat keeps_step. Qed.
#[local] Hint Resolve keeps_session_send : keeps.

Lemma keeps_sendToAgent_send (n : nat) (session : Session) (body : string)
    (d sp : bool) :
  keeps I p n (sendToAgent_send session body d sp).
Proof. unfold sendToAgent_send. repeat keeps_step. Qed.

Lemma keeps_sendToAgent_finish (n : nat) (session : Session)
    (sent : JsError + unit) :
  keeps I p n (sendToAgent_finish cfg session sent).
Proof.
  unfold sendToAgent_finish. apply keeps_seq.
  - destruct sent; [apply keeps_ret|].
    apply keeps_attempt, keeps_collect_stream.
  - intros outcome. repeat keeps_step.
Qed.

Lemma keeps_sendToAgent (n : nat) (body : string) :
  keeps I p n (sendToAgent cfg body).
Proof.
  unfold sendToAgent.
  apply keeps_seq; [apply keeps_sendToAgent_session|intros [[session d] sp]].
  apply keeps_seq; [apply keeps_sendToAgent_send|intros [session' sent]].
  apply keeps_sendToAgent_finish.
Qed.

Lemma keeps_reset (n : nat) : keeps I p n reset.
Proof. unfold reset. repeat keeps_step. Qed.

End KeepsAgent.

(** *** What each step returns *)

Lemma val_bind {A B : Type} (m : M A) (f : A -> M B) (s : Sys) :
  val ((m ≫= f) s)
  = match val (m s) with
    | inl e => inl e
    | inr a => val (f a (post (m s)))
    end.
Proof. unfold mbind, M_bind. destruct (val (m s)); reflexivity. Qed.

Lemma out_bind {A B : Type} (m : M A) (f : A -> M B) (s : Sys) :
  out ((m ≫= f) s)
  = out (m s) ++ match val (m s) with
                 | inl e => []
                 | inr a => out (f a (post (m s)))
                 end.
Proof.
  unfold mbind, M_bind. destruct (val (m s)); simpl; [|reflexivity].
  now rewrite app_nil_r.
Qed.

Lemma post_bind {A B : Type} (m : M A) (f : A -> M B) (s : Sys) :
  post ((m ≫= f) s)
  = match val (m s) with
    | inl e => post (m s)
    | inr a => post (f a (post (m s)))
    end.
Proof. unfold mbind, M_bind. destruct (val (m s)); reflexivity. Qed.

Section Runs.
Variable formatMessageEnvelope : InboundMessage -> string.
Variable cfg : AgentInstanceConfig.

Lemma sendTypingIndicator_run (adapter : ChannelAdapter) (chat : string) (s : Sys) :
  sendTypingIndicator adapter chat s
  = mkRes match hd None (typing_results (world s)) with
          | Some e => inl e
          | None => inr tt
          end
          (typing_taken s) [EvTypingIndicator (adapter_id adapter) chat].
Proof.
  unfold sendTypingIndicator, mbind, M_bind. simpl.
  destruct (hd None (typing_results (world s))); reflexivity.
Qed.

Lemma createAgent_run (s : Sys) :
  createAgent cfg s
  = mkRes (hd (inr "agent") (createAgent_results (world s)))
          (agent_taken s) [EvCreateAgent (model cfg)].
Proof.
  unfold createAgent, mbind, M_bind. simpl.
  destruct (hd (inr "agent") (createAgent_results (world s))); reflexivity.
Qed.

Lemma sendMessage_run (adapter : ChannelAdapter) (m : OutboundMessage) (s : Sys) :
  sendMessage adapter m s
  = mkRes (hd (inr "") (sendMessage_results (world s)))
          (delivery_taken s) [EvSendMessage (adapter_id adapter) m].
Proof.
  unfold sendMessage, mbind, M_bind. simpl.
  destruct (hd (inr "") (sendMessage_results (world s))); reflexivity.
Qed.

Lemma resumeSession_run (handle : string) (s : Sys) :
  resumeSession handle s
  = mkRes (inr (next_session s)) (session_taken s)
          [EvResumeSession (sessions_opened s) handle].
Proof. reflexivity. Qed.

Lemma createSession_run (handle : string) (s : Sys) :
  createSession handle s
  = mkRes (inr (next_session s)) (session_taken s)
          [EvCreateSession (sessions_opened s) handle].
Proof. reflexivity. Qed.

Lemma withTimeout_run (promise : Outcome) (label : string) (s : Sys) :
  withTimeout promise label initTimeoutMs s
  = mkRes match timed label promise with
          | Some e => inl e
          | None => inr tt
          end s [].
Proof.
  unfold withTimeout, timed, await.
  destruct (late promise); [reflexivity|].
  destruct (result promise); reflexivity.
Qed.

Lemma attempt_initialize_run (session : Session) (s : Sys) :
  attempt (promise ← session_initialize session;
           withTimeout promise "Session initialize" initTimeoutMs) s
  = mkRes (inr match timed "Session initialize" (on_initialize (script session)) with
               | Some e => inl e
               | None => inr tt
               end) s [EvInitialize (sid session)].
Proof.
  unfold attempt, session_initialize, mbind, M_bind. simpl.
  rewrite withTimeout_run. reflexivity.
Qed.

Lemma select_session_run (s : Sys) :
  select_session cfg s
  = if truthy (conversationId (state s))
    then mkRes (inr (next_session s, false, true)) (session_taken s)
               [EvSetEnvAgentId (if truthy (agentId (state s))
                                 then agentId (state s) else None);
                EvResumeSession (sessions_opened s)
                                (default "" (conversationId (state s)))]
    else if truthy (agentId (state s))
    then mkRes (inr (next_session s, true, false)) (session_taken s)
               [EvSetEnvAgentId (agentId (state s));
                EvResumeSession (sessions_opened s) (default "" (agentId (state s)))]
    else match hd (inr "agent") (createAgent_results (world s)) with
         | inl e => mkRes (inl e) (agent_taken s) [EvCreateAgent (model cfg)]
         | inr newAgentId =>
             mkRes (inr (next_session (agent_taken s), false, false))
                   (session_taken (agent_taken s))
                   [EvCreateAgent (model cfg);
                    EvResumeSession (sessions_opened s) newAgentId]
         end.
Proof.
  unfold select_session. rewrite (bind_inr _ _ s (state s) s []) by reflexivity.
  destruct (truthy (conversationId (state s))); [reflexivity|].
  destruct (truthy (agentId (state s))); [reflexivity|].
  destruct (hd (inr "agent") (createAgent_results (world s))) as [e|a] eqn:Hc.
  - rewrite (bind_inl _ _ _ e (agent_taken s) [EvCreateAgent (model cfg)]);
      [reflexivity|].
    rewrite createAgent_run, Hc. reflexivity.
  - rewrite (bind_inr _ _ _ a (agent_taken s) [EvCreateAgent (model cfg)]).
    + reflexivity.
    + rewrite createAgent_run, Hc. reflexivity.
Qed.

Lemma sendToAgent_session_run (s : Sys) :
  sendToAgent_session cfg s
  = if truthy (conversationId (state s))
    then mkRes (inr (next_session s, false, true)) (session_taken s)
               [EvResumeSession (sessions_opened s)
                                (default "" (conversationId (state s)))]
    else if truthy (agentId (state s))
    then mkRes (inr (next_session s, true, false)) (session_taken s)
               [EvResumeSession (sessions_opened s) (default "" (agentId (state s)))]
    else match hd (inr "agent") (createAgent_results (world s)) with
         | inl e => mkRes (inl e) (agent_taken s) [EvCreateAgent (model cfg)]
         | inr newAgentId =>
             mkRes (inr (next_session (agent_taken s), false, false))
                   (session_taken (agent_taken s))
                   [EvCreateAgent (model cfg);
                    EvResumeSession (sessions_opened s) newAgentId]
         end.
Proof.
  unfold sendToAgent_session. rewrite (bind_inr _ _ s (state s) s []) by reflexivity.
  destruct (truthy (conversationId (state s))); [reflexivity|].
  destruct (truthy (agentId (state s))); [reflexivity|].
  destruct (hd (inr "agent") (createAgent_results (world s))) as [e|a] eqn:Hc.
  - rewrite (bind_inl _ _ _ e (agent_taken s) [EvCreateAgent (model cfg)]);
      [reflexivity|].
    rewrite createAgent_run, Hc. reflexivity.
  - rewrite (bind_inr _ _ _ a (agent_taken s) [EvCreateAgent (model cfg)]).
    + reflexivity.
    + rewrite createAgent_run, Hc. reflexivity.
Qed.

(** Initialization: at most one recreate-and-retry, taken exactly when the
    first attempt fails while a conversation was being resumed and an agent
    id is stored. *)
Lemma initialize_session_run (session : Session) (d sp : bool) (s : Sys) :
  initialize_session session d sp s
  = match timed "Session initialize" (on_initialize (script session)) with
    | None => mkRes (inr (session, inr tt)) s [EvInitialize (sid session)]
    | Some error =>
        if (sp || d) && truthy (agentId (state s))
        then mkRes (inr (next_session s,
                         match timed "Session initialize"
                                     (on_initialize (script (next_session s))) with
                         | Some e => inl e
                         | None => inr tt
                         end))
                   (session_taken s)
                   [EvInitialize (sid session); EvClose (sid session);
                    EvCreateSession (sessions_opened s)
                                    (default "" (agentId (state s)));
                    EvInitialize (sessions_opened s)]
        else mkRes (inr (session, inl error)) s [EvInitialize (sid session)]
    end.
Proof.
  unfold initialize_session.
  rewrite (bind_inr _ _ _ _ _ _ (attempt_initialize_run session s)).
  destruct (timed "Session initialize" (on_initialize (script session))) as [e|];
    [|reflexivity].
  rewrite (bind_inr _ _ s (state s) s []) by reflexivity.
  assert (Hretry :
    (session_close session;;
     session' ← createSession (default "" (agentId (state s)));
     again ← attempt (promise ← session_initialize session';
                      withTimeout promise "Session initialize" initTimeoutMs);
     mret (session', again)) s
    = mkRes (inr (next_session s,
                  match timed "Session initialize"
                              (on_initialize (script (next_session s))) with
                  | Some e => inl e
                  | None => inr tt
                  end))
            (session_taken s)
            [EvClose (sid session);
             EvCreateSession (sessions_opened s) (default "" (agentId (state s)));
             EvInitialize (sessions_opened s)]).
  { rewrite (bind_inr _ _ s tt s [EvClose (sid session)]) by reflexivity.
    rewrite (bind_inr _ _ _ _ _ _ (createSession_run _ s)).
    rewrite (bind_inr _ _ _ _ _ _ (attempt_initialize_run _ _)).
    reflexivity. }
  cbv beta.
  destruct sp, d, (truthy (agentId (state s)));
    cbn [andb orb]; cbv iota; try reflexivity; rewrite Hretry; reflexivity.
Qed.

(** The [catch] block and the [finally]: the error text goes to the chat,
    the session is closed, and [handleMessage] only throws when that last
    delivery does. *)
Lemma report_error_run (adapter : ChannelAdapter) (msg : InboundMessage)
    (error : JsError) (s : Sys) :
  report_error adapter msg (inl error) s
  = mkRes (inr match hd (inr "") (sendMessage_results (world s)) with
               | inl e' => inl e'
               | inr _ => inr tt
               end)
          (delivery_taken s)
          [EvSendMessage (adapter_id adapter)
             {| o_chatId := chatId msg; o_text := error_text error;
                o_threadId := threadId msg |}].
Proof.
  unfold report_error, attempt.
  rewrite val_bind, post_bind, out_bind, sendMessage_run. cbn [val post out].
  destruct (hd (inr "") (sendMessage_results (world s))); reflexivity.
Qed.

Lemma conclude_failed_run (msg : InboundMessage) (adapter : ChannelAdapter)
    (session : Session) (error : JsError) (s : Sys) :
  conclude formatMessageEnvelope cfg msg adapter session (inl error) s
  = mkRes (delivery_result s) (delivery_taken s)
          [EvSendMessage (adapter_id adapter)
             {| o_chatId := chatId msg; o_text := error_text error;
                o_threadId := threadId msg |};
           EvClose (sid session)].
Proof.
  unfold conclude.
  rewrite (bind_inr _ _ s (inl error) s []) by reflexivity.
  rewrite (bind_inr _ _ _ _ _ _ (report_error_run adapter msg error s)).
  unfold delivery_result.
  destruct (hd (inr "") (sendMessage_results (world s))); reflexivity.
Qed.

Lemma send_and_stream_send_failure (msg : InboundMessage) (adapter : ChannelAdapter)
    (session : Session) (error : JsError) (s : Sys) :
  timed "Session send" (on_send (script session)) = Some error ->
  send_and_stream formatMessageEnvelope cfg adapter msg session s
  = mkRes (inl error) s [EvSend (sid session) (formatMessageEnvelope msg)].
Proof.
  intros Hsend. unfold send_and_stream.
  rewrite (bind_inr _ _ s (on_send (script session)) s
             [EvSend (sid session) (formatMessageEnvelope msg)]) by reflexivity.
  rewrite (bind_inl _ _ s error s []).
  - reflexivity.
  - rewrite withTimeout_run, Hsend. reflexivity.
Qed.

Lemma conclude_send_failed_run (msg : InboundMessage) (adapter : ChannelAdapter)
    (session : Session) (error : JsError) (s : Sys) :
  timed "Session send" (on_send (script session)) = Some error ->
  conclude formatMessageEnvelope cfg msg adapter session (inr tt) s
  = mkRes (delivery_result s) (delivery_taken s)
          [EvSend (sid session) (formatMessageEnvelope msg);
           EvSendMessage (adapter_id adapter)
             {| o_chatId := chatId msg; o_text := error_text error;
                o_threadId := threadId msg |};
           EvClose (sid session)].
Proof.
  intros Hsend. unfold conclude.
  rewrite (bind_inr _ _ s (inl error) s
             [EvSend (sid session) (formatMessageEnvelope msg)]).
  2:{ unfold attempt.
      rewrite (send_and_stream_send_failure _ _ _ _ _ Hsend). reflexivity. }
  rewrite (bind_inr _ _ _ _ _ _ (report_error_run adapter msg error s)).
  unfold delivery_result.
  destruct (hd (inr "") (sendMessage_results (world s))); reflexivity.
Qed.

(** The [try] statement as a whole, on the three paths that end in the
    [catch] block before anything is streamed. *)
Lemma guarded_init_failed_run (msg : InboundMessage) (adapter : ChannelAdapter)
    (session : Session) (d sp : bool) (error : JsError) (s : Sys) :
  timed "Session initialize" (on_initialize (script session)) = Some error ->
  (sp || d) && truthy (agentId (state s)) = false ->
  guarded formatMessageEnvelope cfg msg adapter session d sp s
  = mkRes (delivery_result s) (delivery_taken s)
          [EvInitialize (sid session);
           EvSendMessage (adapter_id adapter)
             {| o_chatId := chatId msg; o_text := error_text error;
                o_threadId := threadId msg |};
           EvClose (sid session)].
Proof.
  intros Hinit Hno. unfold guarded.
  erewrite bind_inr; [|rewrite initialize_session_run, Hinit, Hno; reflexivity].
  cbv beta iota. rewrite conclude_failed_run. reflexivity.
Qed.

Lemma guarded_retry_failed_run (msg : InboundMessage) (adapter : ChannelAdapter)
    (session : Session) (d sp : bool) (error error' : JsError) (s : Sys) :
  timed "Session initialize" (on_initialize (script session)) = Some error ->
  (sp || d) && truthy (agentId (state s)) = true ->
  timed "Session initialize" (on_initialize (script (next_session s))) = Some error' ->
  guarded formatMessageEnvelope cfg msg adapter session d sp s
  = mkRes (delivery_result s) (delivery_taken (session_taken s))
          [EvInitialize (sid session); EvClose (sid session);
           EvCreateSession (sessions_opened s) (default "" (agentId (state s)));
           EvInitialize (sessions_opened s);
           EvSendMessage (adapter_id adapter)
             {| o_chatId := chatId msg; o_text := error_text error';
                o_threadId := threadId msg |};
           EvClose (sessions_opened s)].
Proof.
  intros Hinit Hretry Hagain. unfold guarded.
  erewrite bind_inr;
    [|rewrite initialize_session_run, Hinit, Hretry, Hagain; reflexivity].
  cbv beta iota. rewrite conclude_failed_run. reflexivity.
Qed.

Lemma guarded_send_failed_run (msg : InboundMessage) (adapter : ChannelAdapter)
    (session : Session) (d sp : bool) (error : JsError) (s : Sys) :
  timed "Session initialize" (on_initialize (script session)) = None ->
  timed "Session send" (on_send (script session)) = Some error ->
  guarded formatMessageEnvelope cfg msg adapter session d sp s
  = mkRes (delivery_result s) (delivery_taken s)
          [EvInitialize (sid session);
           EvSend (sid session) (formatMessageEnvelope msg);
           EvSendMessage (adapter_id adapter)
             {| o_chatId := chatId msg; o_text := error_text error;
                o_threadId := threadId msg |};
           EvClose (sid session)].
Proof.
  intros Hinit Hsend. unfold guarded.
  erewrite bind_inr; [|rewrite initialize_session_run, Hinit; reflexivity].
  cbv beta iota. rewrite (conclude_send_failed_run _ _ _ _ _ Hsend). reflexivity.
Qed.

Lemma guarded_retry_send_failed_run (msg : InboundMessage)
    (adapter : ChannelAdapter) (session : Session) (d sp : bool)
    (error error' : JsError) (s : Sys) :
  timed "Session initialize" (on_initialize (script session)) = Some error ->
  (sp || d) && truthy (agentId (state s)) = true ->
  timed "Session initialize" (on_initialize (script (next_session s))) = None ->
  timed "Session send" (on_send (script (next_session s))) = Some error' ->
  guarded formatMessageEnvelope cfg msg adapter session d sp s
  = mkRes (delivery_result s) (delivery_taken (session_taken s))
          [EvInitialize (sid session); EvClose (sid session);
           EvCreateSession (sessions_opened s) (default "" (agentId (state s)));
           EvInitialize (sessions_opened s);
           EvSend (sessions_opened s) (formatMessageEnvelope msg);
           EvSendMessage (adapter_id adapter)
             {| o_chatId := chatId msg; o_text := error_text error';
                o_threadId := threadId msg |};
           EvClose (sessions_opened s)].
Proof.
  intros Hinit Hretry Hagain Hsend. unfold guarded.
  erewrite bind_inr;
    [|rewrite initialize_session_run, Hinit, Hretry, Hagain; reflexivity].
  cbv beta iota.
  rewrite (conclude_send_failed_run _ _ (next_session s) error' _ Hsend).
  reflexivity.
Qed.

(** [handleMessage], up to the choice of the session. *)
Lemma track_target_run (msg : InboundMessage) (s : Sys) :
  track_target msg s
  = mkRes (inr tt) (tracked msg s)
          [EvWriteState (tracked_state msg s) (hd true (fs_write_ok (world s)))].
Proof. reflexivity. Qed.

Lemma handleMessage_typing_failed (msg : InboundMessage) (adapter : ChannelAdapter)
    (error : JsError) (s : Sys) :
  hd None (typing_results (world s)) = Some error ->
  handleMessage formatMessageEnvelope cfg msg adapter s
  = mkRes (inl error) (ready msg s)
          [EvWriteState (tracked_state msg s) (hd true (fs_write_ok (world s)));
           EvTypingIndicator (adapter_id adapter) (chatId msg)].
Proof.
  intros Htyping. unfold handleMessage.
  rewrite (bind_inr _ _ _ _ _ _ (track_target_run msg s)).
  unfold handle_tracked.
  erewrite bind_inl; [reflexivity|].
  rewrite sendTypingIndicator_run.
  change (typing_results (world (tracked msg s))) with (typing_results (world s)).
  rewrite Htyping. reflexivity.
Qed.

Lemma handleMessage_typing_ok (msg : InboundMessage) (adapter : ChannelAdapter)
    (s : Sys) :
  hd None (typing_results (world s)) = None ->
  handleMessage formatMessageEnvelope cfg msg adapter s
  = prepend
      [EvWriteState (tracked_state msg s) (hd true (fs_write_ok (world s)));
       EvTypingIndicator (adapter_id adapter) (chatId msg)]
      ((select_session cfg
          ≫= fun '(session, d, sp) =>
               guarded formatMessageEnvelope cfg msg adapter session d sp)
         (ready msg s)).
Proof.
  intros Htyping. unfold handleMessage.
  rewrite (bind_inr _ _ _ _ _ _ (track_target_run msg s)).
  unfold handle_tracked.
  erewrite (bind_inr (sendTypingIndicator _ _)).
  2:{ rewrite sendTypingIndicator_run.
      change (typing_results (world (tracked msg s))) with (typing_results (world s)).
      rewrite Htyping. reflexivity. }
  reflexivity.
Qed.

(** The choice of the session, then the [try] statement. *)
Lemma served_run (msg : InboundMessage) (adapter : ChannelAdapter) (s : Sys) :
  (select_session cfg
     ≫= fun '(session, d, sp) =>
          guarded formatMessageEnvelope cfg msg adapter session d sp) s
  = if truthy (conversationId (state s))
    then prepend
           [EvSetEnvAgentId (if truthy (agentId (state s))
                             then agentId (state s) else None);
            EvResumeSession (sessions_opened s)
                            (default "" (conversationId (state s)))]
           (guarded formatMessageEnvelope cfg msg adapter
                    (next_session s) false true (session_taken s))
    else if truthy (agentId (state s))
    then prepend
           [EvSetEnvAgentId (agentId (state s));
            EvResumeSession (sessions_opened s) (default "" (agentId (state s)))]
           (guarded formatMessageEnvelope cfg msg adapter
                    (next_session s) true false (session_taken s))
    else match hd (inr "agent") (createAgent_results (world s)) with
         | inl e => mkRes (inl e) (agent_taken s) [EvCreateAgent (model cfg)]
         | inr newAgentId =>
             prepend
               [EvCreateAgent (model cfg);
                EvResumeSession (sessions_opened s) newAgentId]
               (guarded formatMessageEnvelope cfg msg adapter
                        (next_session (agent_taken s)) false false
                        (session_taken (agent_taken s)))
         end.
Proof.
  pose proof (select_session_run s) as Hsel.
  destruct (truthy (conversationId (state s)));
    [rewrite (bind_inr _ _ _ _ _ _ Hsel); reflexivity|].
  destruct (truthy (agentId (state s)));
    [rewrite (bind_inr _ _ _ _ _ _ Hsel); reflexivity|].
  destruct (hd (inr "agent") (createAgent_results (world s))).
  - rewrite (bind_inl _ _ _ _ _ _ Hsel). reflexivity.
  - rewrite (bind_inr _ _ _ _ _ _ Hsel). reflexivity.
Qed.

(** Nothing after initialization creates an agent or obtains a session. *)
Lemma conclude_session_calls (msg : InboundMessage) (adapter : ChannelAdapter)
    (session : Session) (initialized : JsError + unit) (s : Sys) :
  List.filter is_session_call
    (out (conclude formatMessageEnvelope cfg msg adapter session initialized s)) = [].
Proof.
  apply count_zero_filter.
  apply (keeps_conclude formatMessageEnvelope cfg (fun _ _ => True)
           is_session_call); try (intros; exact I); try (intros; reflexivity).
  intros session' body. apply keeps_session_send. reflexivity.
Qed.

Lemma guarded_session_calls (msg : InboundMessage) (adapter : ChannelAdapter)
    (session : Session) (d sp : bool) (s : Sys) :
  List.filter is_session_call
    (out (guarded formatMessageEnvelope cfg msg adapter session d sp s))
  = if present (timed "Session initialize" (on_initialize (script session)))
       && ((sp || d) && truthy (agentId (state s)))
    then [EvCreateSession (sessions_opened s) (default "" (agentId (state s)))]
    else [].
Proof.
  unfold guarded. rewrite out_bind, initialize_session_run.
  destruct (timed "Session initialize" (on_initialize (script session))) as [e|];
    cbn [present andb].
  - destruct ((sp || d) && truthy (agentId (state s)));
      cbn [val post out]; cbv beta iota;
      rewrite List.filter_app, conclude_session_calls; reflexivity.
  - cbn [val post out]. cbv beta iota.
    rewrite List.filter_app, conclude_session_calls. reflexivity.
Qed.

(** [sendToAgent], step by step. *)
Lemma attempt_send_run (session : Session) (body : string) (s : Sys) :
  attempt (promise ← session_send session body; await promise) s
  = mkRes (inr match result (on_send (script session)) with
               | Some e => inl e
               | None => inr tt
               end) s [EvSend (sid session) body].
Proof.
  unfold attempt, session_send, await, mbind, M_bind. simpl.
  destruct (result (on_send (script session))); reflexivity.
Qed.

Lemma sendToAgent_send_run (session : Session) (body : string) (d sp : bool)
    (s : Sys) :
  sendToAgent_send session body d sp s
  = match result (on_send (script session)) with
    | None => mkRes (inr (session, inr tt)) s [EvSend (sid session) body]
    | Some error =>
        if (sp || d) && truthy (agentId (state s))
        then mkRes (inr (next_session s,
                         match result (on_send (script (next_session s))) with
                         | Some e => inl e
                         | None => inr tt
                         end))
                   (session_taken s)
                   [EvSend (sid session) body; EvClose (sid session);
                    EvCreateSession (sessions_opened s)
                                    (default "" (agentId (state s)));
                    EvSend (sessions_opened s) body]
        else mkRes (inr (session, inl error)) s [EvSend (sid session) body]
    end.
Proof.
  unfold sendToAgent_send.
  rewrite (bind_inr _ _ _ _ _ _ (attempt_send_run session body s)).
  destruct (result (on_send (script session))) as [e|]; [|reflexivity].
  rewrite (bind_inr _ _ s (state s) s []) by reflexivity.
  assert (Hretry :
    (session_close session;;
     session' ← createSession (default "" (agentId (state s)));
     again ← attempt (promise ← session_send session' body; await promise);
     mret (session', again)) s
    = mkRes (inr (next_session s,
                  match result (on_send (script (next_session s))) with
                  | Some e => inl e
                  | None => inr tt
                  end))
            (session_taken s)
            [EvClose (sid session);
             EvCreateSession (sessions_opened s) (default "" (agentId (state s)));
             EvSend (sessions_opened s) body]).
  { rewrite (bind_inr _ _ s tt s [EvClose (sid session)]) by reflexivity.
    rewrite (bind_inr _ _ _ _ _ _ (createSession_run _ s)).
    rewrite (bind_inr _ _ _ _ _ _ (attempt_send_run _ _ _)).
    reflexivity. }
  cbv beta.
  destruct sp, d, (truthy (agentId (state s)));
    cbn [andb orb]; cbv iota; try reflexivity; rewrite Hretry; reflexivity.
Qed.

Lemma sendToAgent_finish_session_calls (session : Session)
    (sent : JsError + unit) (s : Sys) :
  List.filter is_session_call (out (sendToAgent_finish cfg session sent s)) = [].
Proof.
  apply count_zero_filter.
  apply (keeps_sendToAgent_finish cfg (fun _ _ => True) is_session_call);
    try (intros; exact I); try (intros; reflexivity).
Qed.

(** The reply is the assistant text read from the stream. *)
Lemma streamed_text_app (l1 l2 : list Event) :
  streamed_text (l1 ++ l2) = streamed_text l1 +:+ streamed_text l2.
Proof.
  induction l1 as [|ev l1 IH]; [reflexivity|].
  destruct ev; simpl; try exact IH.
  destruct m; simpl; try exact IH.
  rewrite IH. symmetry. apply append_assoc.
Qed.

Lemma streamed_text_no_stream (l : list Event) :
  List.filter is_stream l = [] -> streamed_text l = "".
Proof.
  induction l as [|ev l IH]; [reflexivity|].
  destruct ev; simpl; try exact IH. discriminate.
Qed.

Lemma handleSessionResult_text (a c : option string) (s : Sys) :
  streamed_text (out (handleSessionResult cfg a c s)) = "".
Proof.
  apply streamed_text_no_stream, count_zero_filter.
  apply (keeps_handleSessionResult cfg (fun _ _ => True) is_stream);
    try (intros; exact I); try (intros; reflexivity).
Qed.

Lemma collect_stream_text (session : Session) (items : list StreamItem)
    (response reply : string) (s : Sys) :
  val (collect_stream cfg session items response s) = inr reply ->
  reply = response +:+ streamed_text (out (collect_stream cfg session items response s)).
Proof.
  revert response s. induction items as [|item rest IH]; intros response s.
  - simpl. intros [= <-]. now rewrite append_nil_r.
  - destruct item as [streamMsg|e]; [|discriminate].
    cbn [collect_stream].
    rewrite val_bind, out_bind. cbn [emit val post out].
    destruct streamMsg as [content|a c|].
    + intros Hval. rewrite (IH _ _ Hval) at 1.
      cbn [app streamed_text]. apply append_assoc.
    + rewrite val_bind, out_bind.
      destruct (val (handleSessionResult cfg a c s)); [discriminate|].
      unfold mret, M_ret. cbn [val out app]. intros [= <-].
      rewrite app_nil_r. cbn [streamed_text].
      rewrite handleSessionResult_text. now rewrite append_nil_r.
    + intros Hval. rewrite (IH _ _ Hval) at 1. reflexivity.
Qed.

Lemma sendToAgent_finish_text (session : Session) (sent : JsError + unit)
    (reply : string) (s : Sys) :
  val (sendToAgent_finish cfg session sent s) = inr reply ->
  reply = streamed_text (out (sendToAgent_finish cfg session sent s)).
Proof.
  unfold sendToAgent_finish. destruct sent as [e|[]].
  - rewrite (bind_inr _ _ s (inl e) s []) by reflexivity. discriminate.
  - set (run := collect_stream cfg session (on_stream (script session)) "" s).
    rewrite (bind_inr _ _ s (val run) (post run) (out run)) by reflexivity.
    rewrite (bind_inr _ _ (post run) tt (post run) [EvClose (sid session)])
      by reflexivity.
    cbn [val out].
    destruct (val run) as [e|text] eqn:Hrun; [discriminate|].
    unfold settle, mret, M_ret. cbn [val out]. intros [= <-].
    rewrite (collect_stream_text _ _ _ _ _ Hrun) at 1.
    rewrite streamed_text_app. cbn [app streamed_text].
    now rewrite append_nil_r.
Qed.

(** The inner [try] of [sendToAgent] and what follows it. *)
Lemma sendToAgent_sent_session_calls (session : Session) (body : string)
    (d sp : bool) (s : Sys) :
  List.filter is_session_call
    (out ((sendToAgent_send session body d sp
             ≫= fun '(session', sent) => sendToAgent_finish cfg session' sent) s))
  = if present (result (on_send (script session)))
       && ((sp || d) && truthy (agentId (state s)))
    then [EvCreateSession (sessions_opened s) (default "" (agentId (state s)))]
    else [].
Proof.
  rewrite out_bind, sendToAgent_send_run.
  destruct (result (on_send (script session))) as [e|]; cbn [present andb].
  - destruct ((sp || d) && truthy (agentId (state s)));
      cbn [val post out]; cbv beta iota;
      rewrite List.filter_app, sendToAgent_finish_session_calls; reflexivity.
  - cbn [val post out]. cbv beta iota.
    rewrite List.filter_app, sendToAgent_finish_session_calls. reflexivity.
Qed.

Lemma sendToAgent_sent_text (session : Session) (body : string)
    (d sp : bool) (reply : string) (s : Sys) :
  val ((sendToAgent_send session body d sp
          ≫= fun '(session', sent) => sendToAgent_finish cfg session' sent) s)
  = inr reply ->
  reply
  = streamed_text
      (out ((sendToAgent_send session body d sp
               ≫= fun '(session', sent) => sendToAgent_finish cfg session' sent) s)).
Proof.
  rewrite val_bind, out_bind, sendToAgent_send_run.
  destruct (result (on_send (script session))) as [e|].
  - destruct ((sp || d) && truthy (agentId (state s)));
      cbn [val post out]; cbv beta iota; intros Hval;
      rewrite streamed_text_app; apply sendToAgent_finish_text in Hval;
      exact Hval.
  - cbn [val post out]. cbv beta iota. intros Hval.
    rewrite streamed_text_app. apply sendToAgent_finish_text in Hval.
    exact Hval.
Qed.

Lemma sendToAgent_run (body : string) (s : Sys) :
  sendToAgent cfg body s
  = if truthy (conversationId (state s))
    then prepend
           [EvResumeSession (sessions_opened s)
                            (default "" (conversationId (state s)))]
           ((sendToAgent_send (next_session s) body false true
               ≫= fun '(session', sent) => sendToAgent_finish cfg session' sent)
              (session_taken s))
    else if truthy (agentId (state s))
    then prepend
           [EvResumeSession (sessions_opened s) (default "" (agentId (state s)))]
           ((sendToAgent_send (next_session s) body true false
               ≫= fun '(session', sent) => sendToAgent_finish cfg session' sent)
              (session_taken s))
    else match hd (inr "agent") (createAgent_results (world s)) with
         | inl e => mkRes (inl e) (agent_taken s) [EvCreateAgent (model cfg)]
         | inr newAgentId =>
             prepend
               [EvCreateAgent (model cfg);
                EvResumeSession (sessions_opened s) newAgentId]
               ((sendToAgent_send (next_session (agent_taken s)) body false false
                   ≫= fun '(session', sent) => sendToAgent_finish cfg session' sent)
                  (session_taken (agent_taken s)))
         end.
Proof.
  unfold sendToAgent. pose proof (sendToAgent_session_run s) as Hsel.
  destruct (truthy (conversationId (state s)));
    [rewrite (bind_inr _ _ _ _ _ _ Hsel); reflexivity|].
  destruct (truthy (agentId (state s)));
    [rewrite (bind_inr _ _ _ _ _ _ Hsel); reflexivity|].
  destruct (hd (inr "agent") (createAgent_results (world s))).
  - rewrite (bind_inl _ _ _ _ _ _ Hsel). reflexivity.
  - rewrite (bind_inr _ _ _ _ _ _ Hsel). reflexivity.
Qed.

End Runs.

Section Claims.
Variable formatMessageEnvelope : InboundMessage -> string.
Variable cfg : AgentInstanceConfig.

(** C9.  After [reset] the state in memory is [{ agentId: null }], which is
    also what is written to the state file; the message handled next
    creates a new agent and resumes with the id it gets: these are the only
    calls that create an agent or obtain a session, and nothing stored is
    resumed. *)
Theorem reset_then_create_agent (msg : InboundMessage) (adapter : ChannelAdapter)
    (s : Sys) :
  let s0 := post (reset s) in
  let r := handleMessage formatMessageEnvelope cfg msg adapter s0 in
  state s0 = emptyState
  /\ out (reset s) = [EvWriteState emptyState (hd true (fs_write_ok (world s)))]
  /\ disk s0 = (if hd true (fs_write_ok (world s)) then Some emptyState else disk s)
  /\ List.filter is_session_call (out r)
     = match hd None (typing_results (world s)) with
       | Some _ => []
       | None =>
           match hd (inr "agent") (createAgent_results (world s)) with
           | inl _ => [EvCreateAgent (model cfg)]
           | inr newAgentId =>
               [EvCreateAgent (model cfg);
                EvResumeSession (sessions_opened s) newAgentId]
           end
       end.
Proof.
  intros s0 r. repeat split; try reflexivity.
  subst r.
  destruct (hd None (typing_results (world s))) as [e|] eqn:Htyping.
  - rewrite (handleMessage_typing_failed _ _ _ _ e s0) by exact Htyping.
    reflexivity.
  - rewrite (handleMessage_typing_ok _ _ _ _ s0) by exact Htyping.
    rewrite served_run.
    change (truthy (conversationId (state (ready msg s0)))) with false.
    change (truthy (agentId (state (ready msg s0)))) with false.
    cbv iota.
    change (createAgent_results (world (ready msg s0)))
      with (createAgent_results (world s)).
    destruct (hd (inr "agent") (createAgent_results (world s))) as [e|newAgentId];
      [reflexivity|].
    unfold prepend. cbn [out].
    rewrite !List.filter_app, guarded_session_calls.
    rewrite andb_false_r. reflexivity.
Qed.

(** C10.  [handleMessage] first sets [lastMessageTarget] to the message's
    channel, chat id and message id with a fresh time stamp and writes the
    state file; every call to the remote platform comes after that write.
    The target stays in memory, and in every later write of the file,
    whatever becomes of the message; it is in the file at the end whenever
    the first write succeeded. *)
Theorem lastMessageTarget_tracked (msg : InboundMessage) (adapter : ChannelAdapter)
    (s : Sys) :
  let r := handleMessage formatMessageEnvelope cfg msg adapter s in
  let target := {| lmt_channel := channel msg; lmt_chatId := chatId msg;
                   lmt_messageId := messageId msg;
                   updatedAt := hd "" (iso_now (world s)) |} in
  let stored := hd true (fs_write_ok (world s)) in
  (exists rest,
      out r = EvWriteState (set_lastMessageTarget (Some target) (state s)) stored
              :: rest
      /\ Forall (fun ev => forall st ok, ev = EvWriteState st ok ->
                                         lastMessageTarget st = Some target) rest)
  /\ lastMessageTarget (state (post r)) = Some target
  /\ (stored = true ->
      exists st', disk (post r) = Some st' /\ lastMessageTarget st' = Some target).
Proof.
  intros r target stored.
  assert (Hkeeps : keeps (targets target stored) (writes_other_target target) 0
                     (handle_tracked formatMessageEnvelope cfg msg adapter)).
  { apply keeps_handle_tracked;
      try (intros; reflexivity);
      try (intros st d x [Hst Hd]; split; [exact Hst|exact Hd]).
    - intros st d ok [Hst Hd]. split; [exact Hst|].
      intros Hstored. destruct ok; [eauto|auto].
    - intros st d ok [Hst _]. simpl.
      rewrite bool_decide_eq_true_2 by exact Hst. reflexivity.
    - intros session body. apply keeps_session_send. reflexivity. }
  destruct (Hkeeps (tracked msg s)) as [[Hst Hdisk] Hcount].
  { split; [reflexivity|]. intros Hstored. simpl.
    fold stored. rewrite Hstored. eauto. }
  assert (Hrun : r = prepend [EvWriteState (tracked_state msg s) stored]
                       (handle_tracked formatMessageEnvelope cfg msg adapter
                                       (tracked msg s))).
  { subst r. unfold handleMessage.
    rewrite (bind_inr _ _ _ _ _ _ (track_target_run msg s)). reflexivity. }
  rewrite Hrun. cbn [prepend val post out app].
  split; [|split; assumption].
  eexists. split; [reflexivity|].
  apply count_zero_filter in Hcount.
  rewrite List.Forall_forall. intros ev Hin st ok ->.
  destruct (decide (lastMessageTarget st = Some target)) as [Heq|Hne]; [exact Heq|].
  assert (Hin' : In (EvWriteState st ok)
                    (List.filter (writes_other_target target)
                       (out (handle_tracked formatMessageEnvelope cfg msg adapter
                                            (tracked msg s))))).
  { apply List.filter_In. split; [exact Hin|]. simpl.
    rewrite bool_decide_eq_false_2 by exact Hne. reflexivity. }
  rewrite Hcount in Hin'. destruct Hin'.
Qed.

(** C2, as the code has it.  The send runs under the same 30 s timer as
    the initialization, but it is never retried: [handleMessage] calls
    [session.send] at most once for a message.  Whenever it gets as far as
    the send and the send fails or times out, on the session it resumed or
    on the one it created after a failed initialization, the error goes to
    the chat as text and the session is closed; these are the last calls,
    so no session is created and nothing is sent again.  A send or an
    initialization that does not settle in time is reported as timed out
    after 30000 ms. *)
Theorem send_timed_not_retried (msg : InboundMessage) (adapter : ChannelAdapter)
    (s : Sys) :
  let r := handleMessage formatMessageEnvelope cfg msg adapter s in
  let n := sessions_opened s in
  let k := sid (sending_session s) in
  let reported (text : string) :=
    EvSendMessage (adapter_id adapter)
      {| o_chatId := chatId msg; o_text := text; o_threadId := threadId msg |} in
  let served :=
    hd None (typing_results (world s)) = None
    /\ (truthy (conversationId (state s)) = false ->
        truthy (agentId (state s)) = false ->
        exists newAgentId,
          hd (inr "agent") (createAgent_results (world s)) = inr newAgentId) in
  (forall promise, late promise = true ->
     timed "Session initialize" promise
     = Some (ErrorObj "Session initialize timed out after 30000ms")
     /\ timed "Session send" promise
        = Some (ErrorObj "Session send timed out after 30000ms"))
  /\ count is_send (out r) <= 1
  /\ (forall error,
        hd None (typing_results (world s)) = None ->
        truthy (agentId (state s)) = true ->
        timed "Session initialize" (on_initialize (first_script s)) = None ->
        timed "Session send" (on_send (first_script s)) = Some error ->
        out r
        = [EvWriteState (tracked_state msg s) (hd true (fs_write_ok (world s)));
           EvTypingIndicator (adapter_id adapter) (chatId msg);
           EvSetEnvAgentId (agentId (state s));
           EvResumeSession n
             (default "" (if truthy (conversationId (state s))
                          then conversationId (state s) else agentId (state s)));
           EvInitialize n;
           EvSend n (formatMessageEnvelope msg);
           EvSendMessage (adapter_id adapter)
             {| o_chatId := chatId msg; o_text := error_text error;
                o_threadId := threadId msg |};
           EvClose n]
        /\ val r = delivery_result s)
  /\ (forall error,
        served ->
        init_failure s = None ->
        timed "Session send" (on_send (script (sending_session s))) = Some error ->
        exists before,
          out r = before ++ [EvSend k (formatMessageEnvelope msg);
                             reported (error_text error);
                             EvClose k]
          /\ count is_send before = 0
          /\ val r = delivery_result s)
  /\ (served ->
      init_failure s = None ->
      late (on_send (script (sending_session s))) = true ->
      exists before,
        out r = before ++ [EvSend k (formatMessageEnvelope msg);
                           reported "Error: Session send timed out after 30000ms";
                           EvClose k])
  /\ (served ->
      truthy (agentId (state s)) = false ->
      late (on_initialize (first_script s)) = true ->
      exists before,
        out r = before ++ [EvInitialize n;
                           reported "Error: Session initialize timed out after 30000ms";
                           EvClose n]).
Proof.
  intros r n k reported served.
  assert (Hfailed : forall error,
            served ->
            init_failure s = None ->
            timed "Session send" (on_send (script (sending_session s))) = Some error ->
            exists before,
              out r = before ++ [EvSend k (formatMessageEnvelope msg);
                                 reported (error_text error);
                                 EvClose k]
              /\ count is_send before = 0
              /\ val r = delivery_result s).
  { intros error [Htyping Hcreate] Hfail Hsend. subst r k.
    rewrite (handleMessage_typing_ok _ _ _ _ s Htyping), served_run.
    change (truthy (conversationId (state (ready msg s))))
      with (truthy (conversationId (state s))).
    change (truthy (agentId (state (ready msg s))))
      with (truthy (agentId (state s))).
    change (createAgent_results (world (ready msg s)))
      with (createAgent_results (world s)).
    unfold init_failure in Hfail. unfold sending_session in Hsend |- *.
    destruct (timed "Session initialize" (on_initialize (first_script s)))
      as [e1|] eqn:Hfirst.
    - destruct (truthy (agentId (state s))) eqn:Hagent; [|discriminate].
      destruct (truthy (conversationId (state s))) eqn:Hconv;
        rewrite (guarded_retry_send_failed_run formatMessageEnvelope cfg msg
                   adapter (next_session (ready msg s)) _ _ e1 error _ Hfirst);
        try exact Hfail; try exact Hsend; try (simpl; exact Hagent);
        (eexists (_ :: _ :: _ :: _ :: _ :: _ :: _ :: [_]);
         split; [reflexivity|split; reflexivity]).
    - destruct (truthy (conversationId (state s))) eqn:Hconv;
        [|destruct (truthy (agentId (state s))) eqn:Hagent].
      + rewrite (guarded_send_failed_run formatMessageEnvelope cfg msg adapter
                   (next_session (ready msg s)) _ _ error _ Hfirst Hsend).
        eexists (_ :: _ :: _ :: _ :: [_]).
        split; [reflexivity|split; reflexivity].
      + rewrite (guarded_send_failed_run formatMessageEnvelope cfg msg adapter
                   (next_session (ready msg s)) _ _ error _ Hfirst Hsend).
        eexists (_ :: _ :: _ :: _ :: [_]).
        split; [reflexivity|split; reflexivity].
      + destruct (Hcreate eq_refl eq_refl) as [newAgentId ->].
        rewrite (guarded_send_failed_run formatMessageEnvelope cfg msg adapter
                   (next_session (agent_taken (ready msg s))) _ _ error _
                   Hfirst Hsend).
        eexists (_ :: _ :: _ :: _ :: [_]).
        split; [reflexivity|split; reflexivity]. }
  split_and!.
  - intros promise Hlate. unfold timed. rewrite Hlate. split; reflexivity.
  - apply (keeps_handleMessage formatMessageEnvelope cfg (fun _ _ => True)
             is_send); try (intros; exact I); try (intros; reflexivity).
    intros session body. unfold session_send.
    apply keeps_first; [apply keeps_emit_one|intros; apply keeps_ret].
  - intros error Htyping Hagent Hinit Hsend. subst r.
    rewrite (handleMessage_typing_ok _ _ _ _ s Htyping), served_run.
    change (truthy (conversationId (state (ready msg s))))
      with (truthy (conversationId (state s))).
    change (truthy (agentId (state (ready msg s))))
      with (truthy (agentId (state s))).
    rewrite Hagent.
    destruct (truthy (conversationId (state s)));
      rewrite (guarded_send_failed_run formatMessageEnvelope cfg msg adapter
                 (next_session (ready msg s)) _ _ error _ Hinit Hsend);
      split; reflexivity.
  - exact Hfailed.
  - intros Hserved Hfail Hlate.
    destruct (Hfailed (ErrorObj "Session send timed out after 30000ms")
                Hserved Hfail) as (before & Hout & _).
    { unfold timed. rewrite Hlate. reflexivity. }
    exists before. exact Hout.
  - intros [Htyping Hcreate] Hagent Hlate. subst r.
    assert (Hfirst : timed "Session initialize" (on_initialize (first_script s))
                     = Some (ErrorObj "Session initialize timed out after 30000ms")).
    { unfold timed. rewrite Hlate. reflexivity. }
    rewrite (handleMessage_typing_ok _ _ _ _ s Htyping), served_run.
    change (truthy (conversationId (state (ready msg s))))
      with (truthy (conversationId (state s))).
    change (truthy (agentId (state (ready msg s))))
      with (truthy (agentId (state s))).
    change (createAgent_results (world (ready msg s)))
      with (createAgent_results (world s)).
    rewrite Hagent.
    destruct (truthy (conversationId (state s))) eqn:Hconv.
    + rewrite (guarded_init_failed_run formatMessageEnvelope cfg msg adapter
                 (next_session (ready msg s)) _ _ _ _ Hfirst);
        [|simpl; exact Hagent].
      eexists (_ :: _ :: _ :: [_]). reflexivity.
    + destruct (Hcreate eq_refl Hagent) as [newAgentId ->].
      rewrite (guarded_init_failed_run formatMessageEnvelope cfg msg adapter
                 (next_session (agent_taken (ready msg s))) _ _ _ _ Hfirst);
        [|reflexivity].
      eexists (_ :: _ :: _ :: [_]). reflexivity.
Qed.

(** C1, as the code has it.  When initialization ends in an error for good
    (no stored agent id to recreate a session from, or the one retry fails
    as well), the last things [handleMessage] does are to send that error as
    text to the adapter the message came from and to close the session.  It
    then returns normally unless this delivery throws, so the promise of
    [processMessage] resolves when the error text was delivered and rejects
    only with the error of a failed delivery.  However the promise settles,
    the worker goes on with the next queue entry. *)
Theorem init_failure_reported (msg : InboundMessage) (adapter : ChannelAdapter)
    (s : Sys) (error : JsError) :
  hd None (typing_results (world s)) = None ->
  (truthy (conversationId (state s)) = false ->
   truthy (agentId (state s)) = false ->
   exists newAgentId,
     hd (inr "agent") (createAgent_results (world s)) = inr newAgentId) ->
  init_failure s = Some error ->
  let r := handleMessage formatMessageEnvelope cfg msg adapter s in
  (exists before k,
      out r = before
              ++ [EvSendMessage (adapter_id adapter)
                    {| o_chatId := chatId msg; o_text := error_text error;
                       o_threadId := threadId msg |};
                  EvClose k])
  /\ val r = delivery_result s
  /\ (forall promise,
        r_settle (begin formatMessageEnvelope cfg
                    {| q_msg := msg; q_adapter := adapter; q_promise := promise |} s)
        = match delivery_result s with
          | inr _ => Resolved
          | inl e' => Rejected (to_Error e')
          end)
  /\ (forall i done next rest,
        running i = Some done -> r_pending done = [] ->
        messageQueue i = next :: rest ->
        let i' := resume formatMessageEnvelope cfg i in
        running i' = Some (begin formatMessageEnvelope cfg next (r_after done))
        /\ messageQueue i' = rest
        /\ log i' = log i ++ [LSettle (q_promise (r_entry done)) (r_settle done)]).
Proof.
  intros Htyping Hcreate Hfail r.
  assert (Hrun : (exists before k,
                     out r = before
                       ++ [EvSendMessage (adapter_id adapter)
                             {| o_chatId := chatId msg; o_text := error_text error;
                                o_threadId := threadId msg |};
                           EvClose k])
                 /\ val r = delivery_result s).
  { subst r.
    rewrite (handleMessage_typing_ok _ _ _ _ s Htyping), served_run.
    change (truthy (conversationId (state (ready msg s))))
      with (truthy (conversationId (state s))).
    change (truthy (agentId (state (ready msg s))))
      with (truthy (agentId (state s))).
    change (createAgent_results (world (ready msg s)))
      with (createAgent_results (world s)).
    unfold init_failure in Hfail.
    destruct (timed "Session initialize" (on_initialize (first_script s)))
      as [e1|] eqn:Hfirst; [|discriminate].
    destruct (truthy (conversationId (state s))) eqn:Hconv.
    - destruct (truthy (agentId (state s))) eqn:Hagent.
      + rewrite (guarded_retry_failed_run formatMessageEnvelope cfg msg adapter
                   (next_session (ready msg s)) _ _ e1 error _ Hfirst);
          [|simpl; exact Hagent|exact Hfail].
        split; [|reflexivity].
        eexists (_ :: _ :: _ :: _ :: _ :: _ :: _ :: [_]), _. reflexivity.
      + injection Hfail as <-.
        rewrite (guarded_init_failed_run formatMessageEnvelope cfg msg adapter
                   (next_session (ready msg s)) _ _ e1 _ Hfirst);
          [|simpl; exact Hagent].
        split; [|reflexivity].
        eexists (_ :: _ :: _ :: _ :: [_]), _. reflexivity.
    - destruct (truthy (agentId (state s))) eqn:Hagent.
      + rewrite (guarded_retry_failed_run formatMessageEnvelope cfg msg adapter
                   (next_session (ready msg s)) _ _ e1 error _ Hfirst);
          [|simpl; exact Hagent|exact Hfail].
        split; [|reflexivity].
        eexists (_ :: _ :: _ :: _ :: _ :: _ :: _ :: [_]), _. reflexivity.
      + injection Hfail as <-.
        destruct (Hcreate eq_refl eq_refl) as [newAgentId ->].
        rewrite (guarded_init_failed_run formatMessageEnvelope cfg msg adapter
                   (next_session (agent_taken (ready msg s))) _ _ e1 _ Hfirst);
          [|reflexivity].
        split; [|reflexivity].
        eexists (_ :: _ :: _ :: _ :: [_]), _. reflexivity. }
  destruct Hrun as [Hout Hval].
  split; [exact Hout|]. split; [exact Hval|]. split.
  - intros promise. unfold begin. cbn [r_settle q_msg q_adapter].
    fold r. rewrite Hval. destruct (delivery_result s); reflexivity.
  - intros i done next rest Hrunning Hpending Hqueue i'. subst i'.
    unfold resume. rewrite Hrunning, Hpending.
    unfold processQueue_loop. cbn [messageQueue sys log]. rewrite Hqueue.
    repeat split.
Qed.


End Claims.

(** *** The queue *)

Lemma settle_ids_app (l1 l2 : list Label) :
  settle_ids (l1 ++ l2) = settle_ids l1 ++ settle_ids l2.
Proof.
  induction l1 as [|x l1 IH]; [reflexivity|].
  destruct x; simpl; rewrite IH; reflexivity.
Qed.

Lemma settle_ids_settled (l : list Label) (p : nat) :
  In p (settle_ids l) -> settled l p.
Proof.
  induction l as [|x l IH]; simpl; [tauto|].
  destruct x as [q|q ev|q st]; simpl.
  - intros (st & Hin)%IH. exists st. now right.
  - intros (st & Hin)%IH. exists st. now right.
  - intros [->|(st' & Hin)%IH]; [exists st; now left|exists st'; now right].
Qed.

Lemma serialized_nil : serialized [].
Proof. intros [|x l1] l2 q ev Heq; discriminate. Qed.

Lemma serialized_snoc (l : list Label) (x : Label) :
  serialized l ->
  (forall q ev, x = LEvent q ev -> forall p, p < q -> settled l p) ->
  serialized (l ++ [x]).
Proof.
  intros Hl Hx l1 l2 q ev Heq p Hp.
  destruct l2 as [|y l2 _] using rev_ind.
  - apply app_inj_tail in Heq as [<- ->]. exact (Hx q ev eq_refl p Hp).
  - rewrite app_comm_cons, app_assoc in Heq.
    apply app_inj_tail in Heq as [-> _]. exact (Hl _ _ _ _ eq_refl p Hp).
Qed.

Section Queue.
Variable formatMessageEnvelope : InboundMessage -> string.
Variable cfg : AgentInstanceConfig.

Lemma queue_inv_new (s : Sys) : queue_inv (newInstance s).
Proof.
  exists 0. split_and!; try reflexivity; [apply serialized_nil|tauto].
Qed.

Lemma queue_inv_processMessage (msg : InboundMessage) (adapter : ChannelAdapter)
    (i : Instance) :
  queue_inv i -> queue_inv (processMessage formatMessageEnvelope cfg msg adapter i).
Proof.
  intros (k & Hids & Hk & Hsettled & Hserial & Hidle & Hbusy).
  assert (Hserial' : serialized (log i ++ [LSubmit (promises i)])).
  { apply serialized_snoc; [exact Hserial|]. intros q ev [=]. }
  assert (Hsettled' : settle_ids (log i ++ [LSubmit (promises i)]) = seq 0 k).
  { rewrite settle_ids_app. simpl. now rewrite app_nil_r. }
  unfold processMessage. cbn [processing].
  destruct (processing i) eqn:Hproc; cbn [negb].
  - (* the worker is busy: the entry waits in the queue *)
    exists k. unfold pending_ids in *.
    cbn [running messageQueue promises log processing].
    rewrite map_app, app_assoc, length_app. cbn [map length q_promise].
    split_and!;
      [rewrite seq_app, <- Hids; cbn [seq]; now rewrite Hk
      |lia
      |assumption
      |assumption
      |intros Hnone; destruct (Hidle Hnone) as [_ Hfalse]; congruence
      |congruence].
  - (* the worker is idle: it starts on the entry at once *)
    destruct (Hidle (Hbusy eq_refl)) as [Hqueue _].
    assert (Hnone := Hbusy eq_refl).
    unfold pending_ids in Hids, Hk. rewrite Hnone, Hqueue in Hids, Hk.
    cbn [app map length] in Hk.
    rewrite Hqueue, Hnone.
    unfold processQueue. cbn [processing messageQueue app length Nat.eqb orb].
    unfold processQueue_loop. cbn [messageQueue].
    exists k. unfold pending_ids.
    cbn [running messageQueue promises log processing begin r_entry q_promise
         app map length seq].
    split_and!;
      [replace k with (promises i) by lia; reflexivity
      |lia
      |assumption
      |assumption
      |discriminate
      |discriminate].
Qed.

Lemma queue_inv_resume (i : Instance) :
  queue_inv i -> queue_inv (resume formatMessageEnvelope cfg i).
Proof.
  intros (k & Hids & Hk & Hsettled & Hserial & Hidle & Hbusy).
  unfold resume. destruct (running i) as [r|] eqn:Hrun.
  2:{ exists k. unfold pending_ids in *. rewrite Hrun in *.
      split_and!; assumption. }
  assert (Hproc : processing i = true).
  { destruct (processing i); [reflexivity|]. now specialize (Hbusy eq_refl). }
  unfold pending_ids in Hids, Hk. rewrite Hrun in Hids, Hk.
  cbn [app length] in Hids, Hk. cbn [seq] in Hids.
  injection Hids as Hp Hrest.
  destruct (r_pending r) as [|ev evs].
  - (* [handleMessage] is over: settle, then go round the loop *)
    assert (Hserial' : serialized (log i ++ [LSettle (q_promise (r_entry r))
                                                   (r_settle r)])).
    { apply serialized_snoc; [exact Hserial|]. intros q ev [=]. }
    assert (Hsettled' : settle_ids (log i ++ [LSettle (q_promise (r_entry r))
                                                       (r_settle r)])
                        = seq 0 (S k)).
    { rewrite settle_ids_app, Hsettled, seq_S, Hp. reflexivity. }
    unfold processQueue_loop. cbn [messageQueue].
    destruct (messageQueue i) as [|next rest] eqn:Hqueue.
    + exists (S k). unfold pending_ids.
      cbn [running messageQueue promises log processing app map length seq].
      cbn [map length] in Hk.
      split_and!; [reflexivity|lia|assumption|assumption|tauto|tauto].
    + exists (S k). unfold pending_ids.
      cbn [running messageQueue promises log processing begin r_entry
           app map length seq] in *.
      injection Hrest as Hnext Hrest.
      split_and!;
        [rewrite Hnext; f_equal; exact Hrest
        |lia
        |assumption
        |assumption
        |discriminate
        |congruence].
  - (* the worker makes its next call *)
    exists k. unfold pending_ids.
    cbn [running messageQueue promises log processing r_entry app length seq].
    split_and!.
    + rewrite Hp. f_equal. exact Hrest.
    + lia.
    + rewrite settle_ids_app. simpl. now rewrite app_nil_r.
    + apply serialized_snoc; [exact Hserial|].
      intros q ev' [= <- _] p Hlt.
      apply settle_ids_settled. rewrite Hsettled. apply in_seq. lia.
    + discriminate.
    + congruence.
Qed.

Lemma queue_inv_run (acts : list Action) (i : Instance) :
  queue_inv i -> queue_inv (run formatMessageEnvelope cfg i acts).
Proof.
  revert i. induction acts as [|a acts IH]; intros i Hi; [exact Hi|].
  apply IH. destruct a; [now apply queue_inv_processMessage|].
  now apply queue_inv_resume.
Qed.

(** C3.  On one instance messages are handled one at a time and in the
    order of submission: whatever the interleaving of submissions with the
    worker's steps, every call made for a message comes after the promise of
    each message submitted before it has settled, and the promises settle
    in the order of submission. *)
Theorem one_at_a_time (s : Sys) (acts : list Action)
    (l1 l2 : list Label) (q : nat) (ev : Event) (p : nat) :
  log (run formatMessageEnvelope cfg (newInstance s) acts)
  = l1 ++ LEvent q ev :: l2 ->
  p < q ->
  (exists st, In (LSettle p st) l1)
  /\ (exists k, settle_ids (log (run formatMessageEnvelope cfg (newInstance s) acts))
                = seq 0 k).
Proof.
  intros Hlog Hlt.
  destruct (queue_inv_run acts _ (queue_inv_new s))
    as (k & _ & _ & Hsettled & Hserial & _).
  split; [exact (Hserial _ _ _ _ Hlog p Hlt)|].
  exists k. exact Hsettled.
Qed.

End Queue.

(** *** The claims on sample runs *)

(** C1 fails as stated: initialization fails for good (no agent id is
    stored), the error text is delivered, and the promise of
    [processMessage] resolves instead of rejecting. *)
Lemma init_failure_resolves :
  let s := system emptyState [stale_init] in
  let i := run envelope home (newInstance s) (Submit hello telegram :: repeat Resume 8) in
  init_failure s = Some (ErrorObj "boom")
  /\ In (LEvent 0 (EvSendMessage "telegram:default"
                     {| o_chatId := "chat-1"; o_text := "Error: boom";
                        o_threadId := None |})) (log i)
  /\ List.filter is_settle (log i) = [LSettle 0 Resolved].
Proof.
  vm_compute. split; [reflexivity|]. split; [|reflexivity].
  do 6 right. left. reflexivity.
Qed.

Lemma init_failure_reported_witness :
  val (handleMessage envelope home hello telegram (system emptyState [stale_init]))
  = inr tt.
Proof.
  exact (proj1 (proj2 (init_failure_reported envelope home hello telegram
                         (system emptyState [stale_init]) (ErrorObj "boom")
                         eq_refl
                         (fun _ _ => ex_intro _ "agent" eq_refl)
                         eq_refl))).
Defined.

(** C2 fails as stated: a conversation is being resumed, an agent id is
    stored and the send fails; no session is created and the send is not
    repeated. *)
Lemma send_failure_not_recovered :
  let s := system known [broken_send; replying] in
  let r := handleMessage envelope home hello telegram s in
  truthy (conversationId (state s)) = true
  /\ truthy (agentId (state s)) = true
  /\ timed "Session send" (on_send (first_script s)) = Some (ErrorObj "boom")
  /\ List.filter is_send (out r) = [EvSend 0 "hello"]
  /\ List.filter is_session_call (out r) = [EvResumeSession 0 "conv-1"]
  /\ val r = inr tt.
Proof. vm_compute. repeat split. Qed.

Lemma send_timed_not_retried_witness :
  exists before,
    out (handleMessage envelope home hello telegram
           (system known [stale_init; broken_send]))
    = before ++ [EvSend 1 "hello";
                 EvSendMessage "telegram:default"
                   {| o_chatId := "chat-1"; o_text := "Error: boom";
                      o_threadId := None |};
                 EvClose 1]
    /\ count is_send before = 0
    /\ val (handleMessage envelope home hello telegram
              (system known [stale_init; broken_send]))
       = inr tt.
Proof.
  refine (proj1 (proj2 (proj2 (proj2
            (send_timed_not_retried envelope home hello telegram
               (system known [stale_init; broken_send])))))
            (ErrorObj "boom") _ eq_refl eq_refl).
  split; [reflexivity|]. intros H. vm_compute in H. discriminate H.
Defined.

Lemma lastMessageTarget_tracked_witness :
  exists st',
    disk (post (handleMessage envelope home hello telegram
                  (system known [stale_init; stale_init]))) = Some st'
    /\ lastMessageTarget st'
       = Some {| lmt_channel := "telegram"; lmt_chatId := "chat-1";
                 lmt_messageId := Some "m-1";
                 updatedAt := "2025-01-01T00:00:00.000Z" |}.
Proof.
  exact (proj2 (proj2 (lastMessageTarget_tracked envelope home hello telegram
                         (system known [stale_init; stale_init])))
               eq_refl).
Defined.



Lemma one_at_a_time_witness :
  let i := run envelope home (newInstance (system emptyState [stale_init]))
               two_submissions in
  0 < 1 /\ exists st, In (LSettle 0 st) (firstn 10 (log i)).
Proof.
  intros i. split; [lia|].
  refine (proj1 (one_at_a_time envelope home (system emptyState [stale_init])
                   two_submissions (firstn 10 (log i)) [] 1
                   (event_at 10 (log i)) 0 _ _)).
  - vm_compute. reflexivity.
  - lia.
Defined.

(** *** Sessions and the typing timer *)

Lemma protocol_app (h : Held) (l1 l2 : list Event) :
  protocol h (l1 ++ l2)
  = match protocol h l1 with
    | Some h' => protocol h' l2
    | None => None
    end.
Proof.
  revert h. induction l1 as [|e l1 IH]; intros h; simpl; [reflexivity|].
  destruct (protocol_step h e); [apply IH|reflexivity].
Qed.

Lemma protocol_untouched (h : Held) (l : list Event) :
  count touches l <= 0 -> protocol h l = Some h.
Proof.
  induction l as [|e l IH]; [reflexivity|].
  unfold count. simpl. destruct (touches e) eqn:He; simpl; [lia|].
  intros Hl.
  assert (protocol_step h e = Some h) as ->
    by (destruct e; try discriminate; reflexivity).
  apply IH, Hl.
Qed.

Lemma protocol_step_use (h : Held) (k : nat) (e : Event) :
  in_use h = Some k ->
  (e = EvInitialize k \/ (exists body, e = EvSend k body)
   \/ exists m, e = EvStreamMsg k m) ->
  protocol_step h e = Some h.
Proof.
  intros Hh [->|[[body ->]|[m ->]]]; simpl;
    now rewrite bool_decide_eq_true_2.
Qed.

Lemma protocol_step_close (k : nat) :
  protocol_step (holding k) (EvClose k) = Some idle.
Proof. simpl. now rewrite bool_decide_eq_true_2. Qed.

Lemma protocol_step_create (k : nat) (handle : string) :
  protocol_step idle (EvCreateSession k handle) = Some (holding k).
Proof. reflexivity. Qed.

Lemma protocol_step_initialize (k : nat) :
  protocol_step (holding k) (EvInitialize k) = Some (holding k).
Proof. apply (protocol_step_use _ k); auto. Qed.

Lemma protocol_step_send (k : nat) (body : string) :
  protocol_step (holding k) (EvSend k body) = Some (holding k).
Proof. apply (protocol_step_use _ k); eauto. Qed.

Section Obeys.
Context {A : Type}.

Lemma obeys_ret (h : Held) (x : A) (Q : JsError + A -> Held -> Prop) :
  Q (inr x) h -> obeys h (mret x) Q.
Proof. intros HQ s. exists h. split; [reflexivity|exact HQ]. Qed.

Lemma obeys_throw (h : Held) (e : JsError) (Q : JsError + A -> Held -> Prop) :
  Q (inl e) h -> obeys h (throw e) Q.
Proof. intros HQ s. exists h. split; [reflexivity|exact HQ]. Qed.

Lemma obeys_settle (h : Held) (r : JsError + A) (Q : JsError + A -> Held -> Prop) :
  Q r h -> obeys h (settle r) Q.
Proof. destruct r; [apply obeys_throw|apply obeys_ret]. Qed.

Lemma obeys_post (h : Held) (m : M A) (Q Q' : JsError + A -> Held -> Prop) :
  obeys h m Q -> (forall v h', Q v h' -> Q' v h') -> obeys h m Q'.
Proof.
  intros Hm HQ s. destruct (Hm s) as (h' & Hp & Hv). exists h'. auto.
Qed.

(** A computation without calls on sessions or the timer. *)
Lemma obeys_quiet (h : Held) (m : M A) (Q : JsError + A -> Held -> Prop) :
  keeps (fun _ _ => True) touches 0 m -> (forall v, Q v h) -> obeys h m Q.
Proof.
  intros Hm HQ s. exists h.
  split; [apply protocol_untouched, (Hm s I)|apply HQ].
Qed.

Lemma obeys_attempt (h : Held) (m : M A)
    (Q : JsError + (JsError + A) -> Held -> Prop) :
  obeys h m (fun v h' => Q (inr v) h') -> obeys h (attempt m) Q.
Proof. intros Hm s. exact (Hm s). Qed.

Lemma obeys_bind {B : Type} (h : Held) (m : M A) (f : A -> M B)
    (Q1 : JsError + A -> Held -> Prop) (Q : JsError + B -> Held -> Prop) :
  obeys h m Q1 ->
  (forall e h1, Q1 (inl e) h1 -> Q (inl e) h1) ->
  (forall a h1, Q1 (inr a) h1 -> obeys h1 (f a) Q) ->
  obeys h (m ≫= f) Q.
Proof.
  intros Hm He Hf s. destruct (Hm s) as (h1 & Hp & HQ1).
  rewrite out_bind, val_bind, protocol_app, Hp.
  destruct (val (m s)) as [e|a].
  - exists h1. split; [reflexivity|apply He, HQ1].
  - exact (Hf a h1 HQ1 (post (m s))).
Qed.

Lemma obeys_seq {B : Type} (h : Held) (m : M A) (f : A -> M B)
    (Q : JsError + B -> Held -> Prop) :
  keeps (fun _ _ => True) touches 0 m ->
  (forall e, Q (inl e) h) ->
  (forall a, obeys h (f a) Q) ->
  obeys h (m ≫= f) Q.
Proof.
  intros Hm He Hf.
  apply (obeys_bind h m f (fun _ h' => h' = h)).
  - apply obeys_quiet; [exact Hm|reflexivity].
  - intros e h1 ->. apply He.
  - intros a h1 ->. apply Hf.
Qed.

End Obeys.

Lemma obeys_emit (h h' : Held) (e : Event) (Q : JsError + unit -> Held -> Prop) :
  protocol_step h e = Some h' -> Q (inr tt) h' -> obeys h (emit e) Q.
Proof.
  intros He HQ s. exists h'. split; [|exact HQ].
  simpl. rewrite He. reflexivity.
Qed.

Lemma obeys_emit_bind {B : Type} (h h' : Held) (e : Event) (f : unit -> M B)
    (Q : JsError + B -> Held -> Prop) :
  protocol_step h e = Some h' -> obeys h' (f tt) Q -> obeys h (emit e ≫= f) Q.
Proof.
  intros He Hf.
  apply (obeys_bind h _ f (fun v h1 => v = inr tt /\ h1 = h')).
  - now apply (obeys_emit h h').
  - intros e' h1 [[=] _].
  - intros [] h1 [_ ->]. exact Hf.
Qed.

(** Closing the steps that make no call on a session or the timer. *)
Ltac quiet :=
  first [ apply keeps_ret | apply keeps_throw | apply keeps_settle
        | apply keeps_get_state | apply keeps_ask | apply keeps_emit
        | apply keeps_dateNow | apply keeps_withTimeout | apply keeps_await
        | apply keeps_handleSessionResult | apply keeps_on_assistant
        | apply keeps_deliver_final | apply keeps_report_error
        | apply keeps_track_target | apply keeps_sendTypingIndicator ];
  try (intros; exact I); try (intros; reflexivity).

Section Protocol.
Variable formatMessageEnvelope : InboundMessage -> string.
Variable cfg : AgentInstanceConfig.

Lemma obeys_select_session :
  obeys idle (select_session cfg)
        (fun v h => holds_session
                      match v with
                      | inl e => inl e
                      | inr (session, d, sp) => inr (session, (d, sp))
                      end h).
Proof.
  intros s. rewrite select_session_run.
  destruct (truthy (conversationId (state s)));
    [|destruct (truthy (agentId (state s)));
      [|destruct (hd (inr "agent") (createAgent_results (world s)))]];
    eexists; split; reflexivity.
Qed.

Lemma obeys_sendToAgent_session :
  obeys idle (sendToAgent_session cfg)
        (fun v h => holds_session
                      match v with
                      | inl e => inl e
                      | inr (session, d, sp) => inr (session, (d, sp))
                      end h).
Proof.
  intros s. rewrite sendToAgent_session_run.
  destruct (truthy (conversationId (state s)));
    [|destruct (truthy (agentId (state s)));
      [|destruct (hd (inr "agent") (createAgent_results (world s)))]];
    eexists; split; reflexivity.
Qed.

(** The retry closes the stale session before it creates the new one, and
    hands on the session that is then held. *)
Lemma obeys_initialize_session (session : Session) (d sp : bool) :
  obeys (holding (sid session)) (initialize_session session d sp)
        (fun v h => exists session' r,
                      v = inr (session', r) /\ h = holding (sid session')).
Proof.
  intros s. rewrite initialize_session_run.
  destruct (timed "Session initialize" (on_initialize (script session)));
    [destruct ((sp || d) && truthy (agentId (state s)))|];
    cbn [out val protocol];
    repeat (first [rewrite protocol_step_initialize | rewrite protocol_step_send
                  |rewrite protocol_step_close | rewrite protocol_step_create];
            cbv beta iota);
    eexists; (split; [reflexivity|]); eauto.
Qed.

Lemma obeys_sendToAgent_send (session : Session) (body : string) (d sp : bool) :
  obeys (holding (sid session)) (sendToAgent_send session body d sp)
        (fun v h => exists session' r,
                      v = inr (session', r) /\ h = holding (sid session')).
Proof.
  intros s. rewrite sendToAgent_send_run.
  destruct (result (on_send (script session)));
    [destruct ((sp || d) && truthy (agentId (state s)))|];
    cbn [out val protocol];
    repeat (first [rewrite protocol_step_initialize | rewrite protocol_step_send
                  |rewrite protocol_step_close | rewrite protocol_step_create];
            cbv beta iota);
    eexists; (split; [reflexivity|]); eauto.
Qed.

(** Reading the stream keeps what is held. *)
Lemma obeys_stream_loop (adapter : ChannelAdapter) (msg : InboundMessage)
    (session : Session) (items : list StreamItem) (loc : StreamLocals)
    (h : Held) :
  in_use h = Some (sid session) ->
  obeys h (stream_loop cfg adapter msg session items loc) (fun _ h' => h' = h).
Proof.
  intros Hh. revert loc. induction items as [|item rest IH]; intros loc; simpl.
  - now apply obeys_ret.
  - destruct item as [streamMsg|e]; [|now apply obeys_throw].
    apply (obeys_emit_bind h h); [apply (protocol_step_use _ _ _ Hh); eauto|].
    apply obeys_seq.
    + destruct streamMsg; quiet.
    + reflexivity.
    + intros loc'. destruct streamMsg; [apply IH| |apply IH].
      apply obeys_quiet; [|reflexivity].
      apply keeps_seq; [quiet|intros; quiet].
Qed.

Lemma obeys_collect_stream (session : Session) (items : list StreamItem)
    (response : string) (h : Held) :
  in_use h = Some (sid session) ->
  obeys h (collect_stream cfg session items response) (fun _ h' => h' = h).
Proof.
  intros Hh. revert response.
  induction items as [|item rest IH]; intros response; simpl.
  - now apply obeys_ret.
  - destruct item as [streamMsg|e]; [|now apply obeys_throw].
    apply (obeys_emit_bind h h); [apply (protocol_step_use _ _ _ Hh); eauto|].
    destruct streamMsg; [apply IH| |apply IH].
    apply obeys_quiet; [|reflexivity].
    apply keeps_seq; [quiet|intros; quiet].
Qed.

(** The timer is set after the send and cleared when the stream is over,
    however it ends. *)
Lemma obeys_send_and_stream (adapter : ChannelAdapter) (msg : InboundMessage)
    (session : Session) :
  obeys (holding (sid session))
        (send_and_stream formatMessageEnvelope cfg adapter msg session)
        (fun _ h => h = holding (sid session)).
Proof.
  unfold send_and_stream, session_send.
  apply (obeys_bind _ _ _ (fun _ h => h = holding (sid session))).
  { apply (obeys_emit_bind _ (holding (sid session)));
      [apply protocol_step_send|now apply obeys_ret]. }
  { now intros e h1 ->. }
  intros promise h1 ->.
  apply obeys_seq; [quiet|reflexivity|intros _].
  apply obeys_seq; [quiet|reflexivity|intros now].
  apply (obeys_emit_bind _ (streaming (sid session))); [reflexivity|].
  apply (obeys_bind _ _ _ (fun v h => h = streaming (sid session)
                                      /\ exists r, v = inr r)).
  { apply obeys_attempt.
    eapply obeys_post; [now apply obeys_stream_loop|].
    intros v h' ->. eauto. }
  { intros e h1 [_ [r [=]]]. }
  intros streamed h1 [-> _].
  apply (obeys_emit_bind _ (holding (sid session))); [reflexivity|].
  apply obeys_seq; [quiet|reflexivity|intros loc].
  apply obeys_quiet; [quiet|reflexivity].
Qed.

(** The [finally]: whatever the [try] and the [catch] did, the session is
    closed. *)
Lemma obeys_conclude (msg : InboundMessage) (adapter : ChannelAdapter)
    (session : Session) (initialized : JsError + unit) :
  obeys (holding (sid session))
        (conclude formatMessageEnvelope cfg msg adapter session initialized)
        (fun _ h => h = idle).
Proof.
  unfold conclude.
  apply (obeys_bind _ _ _ (fun v h => h = holding (sid session)
                                      /\ exists r, v = inr r)).
  { destruct initialized.
    - apply obeys_ret. eauto.
    - apply obeys_attempt.
      eapply obeys_post; [apply obeys_send_and_stream|].
      intros v h' ->. eauto. }
  { intros e h1 [_ [r [=]]]. }
  intros tried h1 [-> _].
  apply (obeys_bind _ _ _ (fun v h => h = holding (sid session)
                                      /\ exists r, v = inr r)).
  { unfold report_error. destruct tried.
    - apply obeys_attempt, obeys_quiet.
      + apply keeps_seq; [|intros; quiet].
        apply keeps_sendMessage; intros; reflexivity.
      + eauto.
    - apply obeys_ret. eauto. }
  { intros e h1 [_ [r [=]]]. }
  intros caught h1 [-> _].
  apply (obeys_emit_bind _ idle); [apply protocol_step_close|].
  now apply obeys_settle.
Qed.

Lemma obeys_guarded (msg : InboundMessage) (adapter : ChannelAdapter)
    (session : Session) (d sp : bool) :
  obeys (holding (sid session))
        (guarded formatMessageEnvelope cfg msg adapter session d sp)
        (fun _ h => h = idle).
Proof.
  unfold guarded.
  eapply obeys_bind; [apply obeys_initialize_session| |].
  - intros e h1 (session' & r & [=] & _).
  - intros [session' initialized] h1 (session'' & r & [= <- <-] & ->).
    apply obeys_conclude.
Qed.

Lemma obeys_handleMessage (msg : InboundMessage) (adapter : ChannelAdapter) :
  obeys idle (handleMessage formatMessageEnvelope cfg msg adapter)
        (fun _ h => h = idle).
Proof.
  unfold handleMessage, handle_tracked.
  apply obeys_seq; [quiet|reflexivity|intros _].
  apply obeys_seq; [quiet|reflexivity|intros _].
  eapply obeys_bind; [apply obeys_select_session| |].
  - intros e h1 H. exact H.
  - intros [[session d] sp] h1 ->. apply obeys_guarded.
Qed.

Lemma obeys_sendToAgent_finish (session : Session) (sent : JsError + unit) :
  obeys (holding (sid session)) (sendToAgent_finish cfg session sent)
        (fun _ h => h = idle).
Proof.
  unfold sendToAgent_finish.
  apply (obeys_bind _ _ _ (fun v h => h = holding (sid session)
                                      /\ exists r, v = inr r)).
  { destruct sent.
    - apply obeys_ret. eauto.
    - apply obeys_attempt.
      eapply obeys_post; [now apply obeys_collect_stream|].
      intros v h' ->. eauto. }
  { intros e h1 [_ [r [=]]]. }
  intros outcome h1 [-> _].
  apply (obeys_emit_bind _ idle); [apply protocol_step_close|].
  now apply obeys_settle.
Qed.

Lemma obeys_sendToAgent (body : string) :
  obeys idle (sendToAgent cfg body) (fun _ h => h = idle).
Proof.
  unfold sendToAgent.
  eapply obeys_bind; [apply obeys_sendToAgent_session| |].
  - intros e h1 H. exact H.
  - intros [[session d] sp] h1 ->.
    eapply obeys_bind; [apply obeys_sendToAgent_send| |].
    + intros e h1 (session' & r & [=] & _).
    + intros [session' sent] h1 (session'' & r & [= <- <-] & ->).
      apply obeys_sendToAgent_finish.
Qed.

End Protocol.

(** Along allowed calls, sessions obtained and closed balance, and so do
    the timers set and cleared. *)
Lemma protocol_balanced (h h' : Held) (l : list Event) :
  protocol h l = Some h' ->
  count is_obtain l + (if present (in_use h) then 1 else 0)
  = count is_close l + (if present (in_use h') then 1 else 0)
  /\ count is_setInterval l + (if timer h then 1 else 0)
     = count is_clearInterval l + (if timer h' then 1 else 0).
Proof.
  revert h. induction l as [|e l IH]; intros h; simpl.
  - intros [= <-]. split; reflexivity.
  - destruct (protocol_step h e) as [h1|] eqn:Hstep; [|discriminate].
    intros Hrest. destruct (IH h1 Hrest) as [IH1 IH2].
    change (e :: l) with ([e] ++ l). rewrite !count_app.
    destruct h as [[k|] []], e; simpl in Hstep;
      repeat match type of Hstep with
             | context [bool_decide ?P] => destruct (bool_decide P)
             end;
      simpl in Hstep; try discriminate;
      injection Hstep as <-; unfold count in *; simpl in *; lia.
Qed.

Lemma calls_app (l1 l2 : list Label) : calls (l1 ++ l2) = calls l1 ++ calls l2.
Proof.
  induction l1 as [|x l1 IH]; [reflexivity|].
  destruct x; simpl; rewrite IH; reflexivity.
Qed.

Section Sessions.
Variable formatMessageEnvelope : InboundMessage -> string.
Variable cfg : AgentInstanceConfig.

(** Whatever becomes of a message, [handleMessage] holds at most one session
    at a time, uses a session only while it holds it (never after closing
    it, never the stale one after a retry), runs the typing timer only while
    it reads the stream, and ends holding nothing: every session it obtained
    is closed and the timer is cleared. *)
Theorem handleMessage_releases (msg : InboundMessage) (adapter : ChannelAdapter)
    (s : Sys) :
  let evs := out (handleMessage formatMessageEnvelope cfg msg adapter s) in
  protocol idle evs = Some idle
  /\ count is_obtain evs = count is_close evs
  /\ count is_setInterval evs = count is_clearInterval evs.
Proof.
  intros evs.
  destruct (obeys_handleMessage formatMessageEnvelope cfg msg adapter s)
    as (h & Hp & ->).
  split; [exact Hp|].
  destruct (protocol_balanced _ _ _ Hp) as [H1 H2].
  cbn [idle in_use timer present] in H1, H2. subst evs. lia.
Qed.

(** The same for [sendToAgent], which never sets the timer. *)
Theorem sendToAgent_releases (body : string) (s : Sys) :
  let evs := out (sendToAgent cfg body s) in
  protocol idle evs = Some idle
  /\ count is_obtain evs = count is_close evs
  /\ count is_setInterval evs = 0.
Proof.
  intros evs.
  destruct (obeys_sendToAgent cfg body s) as (h & Hp & ->).
  split; [exact Hp|].
  destruct (protocol_balanced _ _ _ Hp) as [H1 _].
  cbn [idle in_use timer present] in H1.
  split; [subst evs; lia|].
  apply Nat.le_0_r.
  apply (keeps_sendToAgent cfg (fun _ _ => True) is_setInterval);
    try (intros; exact I); try (intros; reflexivity).
Qed.

Lemma protocol_inv_loop (i : Instance) :
  protocol idle (calls (log i)) = Some idle ->
  protocol_inv (processQueue_loop formatMessageEnvelope cfg i).
Proof.
  intros Hlog. unfold processQueue_loop.
  destruct (messageQueue i) as [|e rest]; exists idle;
    (split; [exact Hlog|]); cbn [running]; [reflexivity|].
  destruct (obeys_handleMessage formatMessageEnvelope cfg (q_msg e)
              (q_adapter e) (sys i)) as (h & Hp & ->).
  exact Hp.
Qed.

Lemma protocol_inv_processMessage (msg : InboundMessage) (adapter : ChannelAdapter)
    (i : Instance) :
  queue_inv i -> protocol_inv i ->
  protocol_inv (processMessage formatMessageEnvelope cfg msg adapter i).
Proof.
  intros (k & _ & _ & _ & _ & Hidle & Hbusy) (h & Hlog & Hrun).
  assert (Hlog' : protocol idle (calls (log i ++ [LSubmit (promises i)])) = Some h).
  { rewrite calls_app. simpl. now rewrite app_nil_r. }
  unfold processMessage. cbn [processing].
  destruct (processing i) eqn:Hproc; cbn [negb].
  - exists h. split; [exact Hlog'|exact Hrun].
  - assert (Hnone := Hbusy eq_refl). rewrite Hnone in Hrun. subst h.
    destruct (Hidle Hnone) as [Hqueue _].
    unfold processQueue. cbn [processing messageQueue orb].
    rewrite Hqueue. cbn [app length Nat.eqb].
    apply protocol_inv_loop. exact Hlog'.
Qed.

Lemma protocol_inv_resume (i : Instance) :
  protocol_inv i -> protocol_inv (resume formatMessageEnvelope cfg i).
Proof.
  intros (h & Hlog & Hrun). unfold resume.
  destruct (running i) as [r|] eqn:Hr.
  2:{ exists h. rewrite Hr. split; assumption. }
  destruct (r_pending r) as [|ev evs].
  - injection Hrun as ->. apply protocol_inv_loop.
    cbn [log]. rewrite calls_app. simpl. now rewrite app_nil_r.
  - simpl in Hrun.
    destruct (protocol_step h ev) as [h1|] eqn:Hstep; [|discriminate].
    exists h1. cbn [log running r_pending].
    split; [|exact Hrun].
    rewrite calls_app, protocol_app, Hlog. simpl. now rewrite Hstep.
Qed.

(** On one instance, whatever the interleaving of submissions with the
    worker's steps, the calls made follow the same discipline from the first
    message to the last: at most one session is held at any time, and
    whenever the worker is idle, nothing is held. *)
Theorem instance_releases (s : Sys) (acts : list Action) :
  let i := run formatMessageEnvelope cfg (newInstance s) acts in
  exists h,
    protocol idle (calls (log i)) = Some h
    /\ (running i = None -> h = idle)
    /\ count is_close (calls (log i)) <= count is_obtain (calls (log i))
       <= S (count is_close (calls (log i))).
Proof.
  intros i.
  assert (Hinv : queue_inv i /\ protocol_inv i).
  { subst i.
    assert (Hnew : queue_inv (newInstance s) /\ protocol_inv (newInstance s)).
    { split; [apply queue_inv_new|]. exists idle. split; reflexivity. }
    revert Hnew. generalize (newInstance s) as i0.
    induction acts as [|a acts IH]; intros i0 [Hq Hp]; [split; assumption|].
    apply IH. destruct a; simpl.
    - split; [now apply queue_inv_processMessage
             |now apply protocol_inv_processMessage].
    - split; [now apply queue_inv_resume|now apply protocol_inv_resume]. }
  destruct Hinv as [_ (h & Hlog & Hrun)].
  exists h. split; [exact Hlog|]. split.
  - intros Hnone. now rewrite Hnone in Hrun.
  - destruct (protocol_balanced _ _ _ Hlog) as [H1 _].
    cbn [idle in_use present] in H1. destruct (present (in_use h)); lia.
Qed.

End Sessions.

(** *** When [handleMessage] throws *)

Lemma val_prepend {A : Type} (evs : list Event) (r : Res A) :
  val (prepend evs r) = val r.
Proof. reflexivity. Qed.

Lemma out_prepend {A : Type} (evs : list Event) (r : Res A) :
  out (prepend evs r) = evs ++ out r.
Proof. reflexivity. Qed.

Section Rejections.
Variable formatMessageEnvelope : InboundMessage -> string.
Variable cfg : AgentInstanceConfig.

(** The [try] statement throws only out of its [catch] block: the last
    calls are then the report of an error to the chat and the [close] of the
    [finally]. *)
Lemma conclude_throws (msg : InboundMessage) (adapter : ChannelAdapter)
    (session : Session) (initialized : JsError + unit) (s : Sys) (e : JsError) :
  val (conclude formatMessageEnvelope cfg msg adapter session initialized s) = inl e ->
  exists before error,
    out (conclude formatMessageEnvelope cfg msg adapter session initialized s)
    = before ++ [EvSendMessage (adapter_id adapter)
                   {| o_chatId := chatId msg; o_text := error_text error;
                      o_threadId := threadId msg |};
                 EvClose (sid session)].
Proof.
  unfold conclude.
  set (body := match initialized with
               | inl e0 => mret (inl e0)
               | inr _ => attempt (send_and_stream formatMessageEnvelope cfg
                                                   adapter msg session)
               end).
  assert (Hbody : exists tried, body s = mkRes (inr tried) (post (body s)) (out (body s))).
  { subst body. destruct initialized; eexists; reflexivity. }
  destruct Hbody as [tried Hbody].
  rewrite (bind_inr _ _ _ _ _ _ Hbody). cbn [val out].
  destruct tried as [error|[]].
  - rewrite (bind_inr _ _ _ _ _ _ (report_error_run adapter msg error _)).
    cbn [val out]. intros _. exists (out (body s)), error.
    unfold session_close.
    rewrite (bind_inr _ _ _ tt _ [EvClose (sid session)]) by reflexivity.
    cbn [out]. f_equal.
    destruct (hd (inr "") (sendMessage_results (world (post (body s)))));
      reflexivity.
  - discriminate.
Qed.

Lemma guarded_throws (msg : InboundMessage) (adapter : ChannelAdapter)
    (session : Session) (d sp : bool) (s : Sys) (e : JsError) :
  val (guarded formatMessageEnvelope cfg msg adapter session d sp s) = inl e ->
  exists before error k,
    out (guarded formatMessageEnvelope cfg msg adapter session d sp s)
    = before ++ [EvSendMessage (adapter_id adapter)
                   {| o_chatId := chatId msg; o_text := error_text error;
                      o_threadId := threadId msg |};
                 EvClose k].
Proof.
  unfold guarded.
  assert (Hinit : exists session' initialized,
            initialize_session session d sp s
            = mkRes (inr (session', initialized))
                    (post (initialize_session session d sp s))
                    (out (initialize_session session d sp s))).
  { rewrite initialize_session_run.
    destruct (timed "Session initialize" (on_initialize (script session)));
      [destruct ((sp || d) && truthy (agentId (state s)))|];
      do 2 eexists; reflexivity. }
  destruct Hinit as (session' & initialized & Hinit).
  rewrite (bind_inr _ _ _ _ _ _ Hinit). cbn [val out].
  intros (before & error & Hout)%conclude_throws.
  exists (out (initialize_session session d sp s) ++ before), error, (sid session').
  rewrite Hout. now rewrite app_assoc.
Qed.

(** [handleMessage] throws in three cases only: the typing indicator
    failed, before anything else was tried; no agent was on record and
    [createAgent] failed; or an error was being reported to the chat, which
    is then the last call before the session is closed.  Errors of the
    session (initialize, send, stream) and of the delivery of the reply never
    reach the caller by themselves. *)
Theorem handleMessage_throws_only (msg : InboundMessage) (adapter : ChannelAdapter)
    (s : Sys) (e : JsError) :
  let r := handleMessage formatMessageEnvelope cfg msg adapter s in
  let started :=
    [EvWriteState (tracked_state msg s) (hd true (fs_write_ok (world s)));
     EvTypingIndicator (adapter_id adapter) (chatId msg)] in
  val r = inl e ->
  (hd None (typing_results (world s)) = Some e /\ out r = started)
  \/ (truthy (conversationId (state s)) = false
      /\ truthy (agentId (state s)) = false
      /\ hd (inr "agent") (createAgent_results (world s)) = inl e
      /\ out r = started ++ [EvCreateAgent (model cfg)])
  \/ (exists before error k,
        out r = before
                ++ [EvSendMessage (adapter_id adapter)
                      {| o_chatId := chatId msg; o_text := error_text error;
                         o_threadId := threadId msg |};
                    EvClose k]).
Proof.
  intros r started. subst r.
  destruct (hd None (typing_results (world s))) as [e'|] eqn:Htyping.
  { rewrite (handleMessage_typing_failed _ _ _ _ e' s Htyping).
    cbn [val out]. intros [= ->]. left. split; reflexivity. }
  rewrite (handleMessage_typing_ok _ _ _ _ s Htyping), served_run.
  change (truthy (conversationId (state (ready msg s))))
    with (truthy (conversationId (state s))).
  change (truthy (agentId (state (ready msg s))))
    with (truthy (agentId (state s))).
  change (createAgent_results (world (ready msg s)))
    with (createAgent_results (world s)).
  destruct (truthy (conversationId (state s))) eqn:Hconv;
    [|destruct (truthy (agentId (state s))) eqn:Hagent;
      [|destruct (hd (inr "agent") (createAgent_results (world s)))
          as [e'|newAgentId] eqn:Hcreate]].
  3:{ cbn [prepend val out]. intros [= ->]. right. left.
      split_and!; reflexivity. }
  all: rewrite !val_prepend, !out_prepend;
    intros (before & error & k & Hout)%guarded_throws;
    right; right; rewrite Hout, !app_assoc;
    eexists _, error, k; reflexivity.
Qed.

End Rejections.

(** *** What a result event teaches the instance *)

Lemma bind_pure {A B : Type} (m : M A) (f : A -> M B) (s : Sys) (a : A) (s1 : Sys) :
  m s = mkRes (inr a) s1 [] -> (m ≫= f) s = f a s1.
Proof.
  intros H. unfold mbind, M_bind. rewrite H. cbn [val post out app].
  destruct (f a s1); reflexivity.
Qed.

Section Learning.
Variable cfg : AgentInstanceConfig.

Lemma handleSessionResult_run (a c : option string) (s : Sys) :
  handleSessionResult cfg a c s
  = mkRes (inr tt) (post (saveState (learned a c s)))
          (EvWriteState (state (learned a c s))
                        (hd true (fs_write_ok (world (learned a c s))))
           :: if negb (truthy (agentId (state s))) && truthy a
              then [EvUpdateAgentName (default "" a) (name cfg)] else []).
Proof.
  unfold handleSessionResult.
  rewrite (bind_pure _ _ s (state s) s) by reflexivity.
  set (learn := if truthy a && negb (bool_decide (a = agentId (state s))) then _ else _).
  assert (Hlearn : learn s = mkRes (inr tt) (learned_agent a s) []).
  { subst learn. unfold learned_agent.
    destruct (truthy a && negb (bool_decide (a = agentId (state s))));
      [|reflexivity].
    rewrite (bind_pure _ _ s (env_LETTA_BASE_URL (world s)) s) by reflexivity.
    destruct (truthy (createdAt (state s))) eqn:Hc.
    - repeat (erewrite bind_pure; [|reflexivity]).
      match goal with
      | |- context [negb (truthy (createdAt ?x))] =>
          change (truthy (createdAt x)) with (truthy (createdAt (state s)))
      end.
      rewrite Hc. reflexivity.
    - repeat (erewrite bind_pure; [|reflexivity]).
      match goal with
      | |- context [negb (truthy (createdAt ?x))] =>
          change (truthy (createdAt x)) with (truthy (createdAt (state s)))
      end.
      rewrite Hc. cbn [negb].
      repeat (erewrite bind_pure; [|reflexivity]).
      reflexivity. }
  rewrite (bind_pure _ _ _ _ _ Hlearn).
  rewrite (bind_pure _ _ _ (state (learned_agent a s)) (learned_agent a s)) by reflexivity.
  set (learn' := if truthy c && _ then _ else _).
  assert (Hlearn' : learn' (learned_agent a s) = mkRes (inr tt) (learned a c s) []).
  { subst learn'. unfold learned, learned_conversation.
    destruct (truthy c && negb (bool_decide (c = conversationId (state (learned_agent a s)))));
      reflexivity. }
  rewrite (bind_pure _ _ _ _ _ Hlearn'). clear.
  destruct (truthy (agentId (state s))), (truthy a); reflexivity.
Qed.

Lemma learned_fixed (a c : option string) (s : Sys) :
  (truthy a = true -> agentId (state s) = a) ->
  (truthy c = true -> conversationId (state s) = c) ->
  learned a c s = s.
Proof.
  intros Ha Hc. unfold learned, learned_agent.
  destruct (truthy a) eqn:Hta; cbn [andb].
  - rewrite bool_decide_eq_true_2 by (symmetry; auto). cbn [negb].
    unfold learned_conversation. destruct (truthy c); [|reflexivity].
    rewrite bool_decide_eq_true_2 by (symmetry; auto). reflexivity.
  - unfold learned_conversation. destruct (truthy c); [|reflexivity].
    rewrite bool_decide_eq_true_2 by (symmetry; auto). reflexivity.
Qed.

Lemma learned_agentId (a c : option string) (s : Sys) :
  agentId (state (learned a c s)) = if truthy a then a else agentId (state s).
Proof.
  unfold learned, learned_conversation, learned_agent.
  destruct (truthy c && _), (truthy a) eqn:Ha; cbn [andb];
    try reflexivity;
    case_bool_decide as Heq; cbn [negb]; try (rewrite Heq; reflexivity);
    destruct (truthy (createdAt (state s))); reflexivity.
Qed.

Lemma learned_conversationId (a c : option string) (s : Sys) :
  conversationId (state (learned a c s))
  = if truthy c then c else conversationId (state s).
Proof.
  unfold learned, learned_conversation.
  assert (Hsame : conversationId (state (learned_agent a s)) = conversationId (state s)).
  { unfold learned_agent.
    destruct (truthy a && _); [|reflexivity].
    destruct (truthy (createdAt (state s))); reflexivity. }
  destruct (truthy c); cbn [andb]; [|exact Hsame].
  case_bool_decide as Heq; cbn [negb]; [now rewrite <- Heq|reflexivity].
Qed.

Theorem handleSessionResult_learns (a c : option string) (s : Sys) :
  let r := handleSessionResult cfg a c s in
  let st := state s in
  let st' := state (post r) in
  val r = inr tt
  /\ agentId st' = (if truthy a then a else agentId st)
  /\ conversationId st' = (if truthy c then c else conversationId st)
  /\ lastMessageTarget st' = lastMessageTarget st
  /\ (truthy (createdAt st) = true -> createdAt st' = createdAt st)
  /\ (agentId st' <> agentId st -> truthy (baseUrl st') = true)
  /\ (agentId st' = agentId st ->
      baseUrl st' = baseUrl st /\ lastUsedAt st' = lastUsedAt st
      /\ createdAt st' = createdAt st)
  /\ (exists ok,
        out r = EvWriteState st' ok
                :: (if negb (truthy (agentId st)) && truthy a
                    then [EvUpdateAgentName (default "" a) (name cfg)] else [])
        /\ disk (post r) = if ok then Some st' else disk s)
  /\ (let r2 := handleSessionResult cfg a c (post r) in
      state (post r2) = st' /\ exists ok, out r2 = [EvWriteState st' ok]).
Proof.
  intros r st st'. subst r st st'. cbv zeta.
  rewrite (handleSessionResult_run a c s). cbn [val post out].
  set (s' := post (saveState (learned a c s))).
  rewrite (handleSessionResult_run a c s'). cbn [val post out].
  assert (Hstate : state s' = state (learned a c s)) by reflexivity.
  assert (Hfix : learned a c s' = s').
  { apply learned_fixed; rewrite Hstate.
    - intros Ha. now rewrite learned_agentId, Ha.
    - intros Hc. now rewrite learned_conversationId, Hc. }
  rewrite Hfix.
  change (state (post (saveState s'))) with (state s').
  rewrite !Hstate. clear Hfix.
  split_and!.
  - reflexivity.
  - apply learned_agentId.
  - apply learned_conversationId.
  - unfold learned, learned_conversation, learned_agent.
    destruct (truthy c && _), (truthy a && _), (truthy (createdAt (state s)));
      reflexivity.
  - intros Hc. unfold learned, learned_conversation, learned_agent.
    rewrite Hc. destruct (truthy c && _), (truthy a && _); reflexivity.
  - unfold learned, learned_conversation, learned_agent.
    destruct (truthy a && _); [|destruct (truthy c && _); intros []; reflexivity].
    intros _.
    destruct (truthy c && _), (truthy (createdAt (state s)));
      cbn [state baseUrl with_state set_conversationId set_createdAt
           set_lastUsedAt set_baseUrl];
      destruct (truthy (env_LETTA_BASE_URL (world s))) eqn:He;
      first [exact He|reflexivity].
  - rewrite learned_agentId. unfold learned, learned_conversation, learned_agent.
    destruct (truthy a) eqn:Ha; cbn [andb].
    + intros Heq. rewrite (bool_decide_eq_true_2 _ Heq). cbn [negb].
      destruct (truthy c && _); split_and!; reflexivity.
    + intros _. destruct (truthy c && _); split_and!; reflexivity.
  - exists (hd true (fs_write_ok (world (learned a c s)))).
    split; [reflexivity|].
    assert (Hdisk : disk (learned a c s) = disk s).
    { unfold learned, learned_conversation, learned_agent.
      destruct (truthy c && _), (truthy a && _), (truthy (createdAt (state s)));
        reflexivity. }
    rewrite <- Hdisk. reflexivity.
  - reflexivity.
  - eexists. f_equal.
    rewrite learned_agentId.
    destruct (truthy a) eqn:Ha; [rewrite Ha|]; cbn [negb andb];
      [reflexivity|now rewrite andb_false_r].
Qed.

End Learning.

(** *** Invariants that depend on what a result event teaches *)
Section KeepsGiven.
Variable formatMessageEnvelope : InboundMessage -> string.
Variable cfg : AgentInstanceConfig.
Variable I : AgentState -> option AgentState -> Prop.
Variable p : Event -> bool.

Hypothesis I_write : forall st d ok, I st d -> I st (if ok : bool then Some st else d).
Hypothesis p_write : forall st d ok, I st d -> p (EvWriteState st ok) = false.
Hypothesis I_lastMessageTarget :
  forall st d t, I st d -> I (set_lastMessageTarget t st) d.
Hypothesis p_typing : forall a c, p (EvTypingIndicator a c) = false.
Hypothesis p_createSession : forall k h, p (EvCreateSession k h) = false.
Hypothesis p_initialize : forall k, p (EvInitialize k) = false.
Hypothesis p_send : forall k body, p (EvSend k body) = false.
Hypothesis p_stream : forall k m, p (EvStreamMsg k m) = false.
Hypothesis p_close : forall k, p (EvClose k) = false.
Hypothesis p_sendMessage : forall a m, p (EvSendMessage a m) = false.
Hypothesis p_editMessage : forall a c m b, p (EvEditMessage a c m b) = false.
Hypothesis p_setInterval : p EvSetInterval = false.
Hypothesis p_clearInterval : p EvClearInterval = false.

(** The steps whose effect depends on the state are taken as given. *)
Hypothesis given_result : forall a c, keeps I p 0 (handleSessionResult cfg a c).
Hypothesis given_select : keeps I p 0 (select_session cfg).
Hypothesis given_session : keeps I p 0 (sendToAgent_session cfg).

Lemma given_stream_loop (adapter : ChannelAdapter) (msg : InboundMessage)
    (session : Session) (items : list StreamItem) (loc : StreamLocals) :
  keeps I p 0 (stream_loop cfg adapter msg session items loc).
Proof.
  revert loc. induction items as [|item rest IH]; intros loc; simpl.
  - apply keeps_ret.
  - destruct item as [streamMsg|e]; [|apply keeps_throw].
    apply keeps_seq; [apply keeps_emit, p_stream|intros _].
    apply keeps_seq.
    + destruct streamMsg; try apply keeps_ret.
      apply keeps_on_assistant; assumption.
    + intros loc'. destruct streamMsg; [apply IH| |apply IH].
      apply keeps_seq; [apply given_result|intros; apply keeps_ret].
Qed.

Lemma given_send_and_stream (adapter : ChannelAdapter) (msg : InboundMessage)
    (session : Session) :
  keeps I p 0 (send_and_stream formatMessageEnvelope cfg adapter msg session).
Proof.
  unfold send_and_stream.
  apply keeps_seq; [now apply keeps_session_send|intros promise].
  apply keeps_seq; [apply keeps_withTimeout|intros _].
  apply keeps_seq; [apply keeps_dateNow|intros now].
  apply keeps_seq; [now apply keeps_emit|intros _].
  apply keeps_seq; [apply keeps_attempt, given_stream_loop|intros streamed].
  apply keeps_seq; [now apply keeps_emit|intros _].
  apply keeps_seq; [apply keeps_settle|intros loc].
  apply keeps_deliver_final; assumption.
Qed.

Lemma given_conclude (msg : InboundMessage) (adapter : ChannelAdapter)
    (session : Session) (initialized : JsError + unit) :
  keeps I p 0 (conclude formatMessageEnvelope cfg msg adapter session initialized).
Proof.
  unfold conclude. apply keeps_seq.
  - destruct initialized; [apply keeps_ret|].
    apply keeps_attempt, given_send_and_stream.
  - intros tried.
    apply keeps_seq; [now apply keeps_report_error|intros caught].
    apply keeps_seq; [now apply keeps_session_close|intros _].
    apply keeps_settle.
Qed.

Lemma given_handleMessage (msg : InboundMessage) (adapter : ChannelAdapter) :
  keeps I p 0 (handleMessage formatMessageEnvelope cfg msg adapter).
Proof.
  unfold handleMessage, handle_tracked, guarded.
  apply keeps_seq; [apply keeps_track_target; assumption|intros _].
  apply keeps_seq; [now apply keeps_sendTypingIndicator|intros _].
  apply keeps_seq; [apply given_select|intros [[session d] sp]].
  apply keeps_seq;
    [apply keeps_initialize_session; assumption|intros [session' initialized]].
  apply given_conclude.
Qed.

Lemma given_collect_stream (session : Session) (items : list StreamItem)
    (response : string) :
  keeps I p 0 (collect_stream cfg session items response).
Proof.
  revert response. induction items as [|item rest IH]; intros response; simpl.
  - apply keeps_ret.
  - destruct item as [streamMsg|e]; [|apply keeps_throw].
    apply keeps_seq; [apply keeps_emit, p_stream|intros _].
    destruct streamMsg; [apply IH| |apply IH].
    apply keeps_seq; [apply given_result|intros; apply keeps_ret].
Qed.

Lemma given_sendToAgent (body : string) : keeps I p 0 (sendToAgent cfg body).
Proof.
  unfold sendToAgent, sendToAgent_finish.
  apply keeps_seq; [apply given_session|intros [[session d] sp]].
  apply keeps_seq;
    [apply keeps_sendToAgent_send; assumption|intros [session' sent]].
  apply keeps_seq.
  - destruct sent; [apply keeps_ret|].
    apply keeps_attempt, given_collect_stream.
  - intros outcome.
    apply keeps_seq; [now apply keeps_session_close|intros _].
    apply keeps_settle.
Qed.

End KeepsGiven.

(** *** What is on record stays on record *)

Lemma count_none (l : list Event) : count (fun _ => false) l = 0.
Proof. unfold count. induction l; simpl; auto. Qed.

Lemma learned_createdAt (a c : option string) (s : Sys) :
  truthy (createdAt (state s)) = true ->
  createdAt (state (learned a c s)) = createdAt (state s).
Proof.
  intros Hc. unfold learned, learned_conversation, learned_agent.
  rewrite Hc. destruct (truthy c && _), (truthy a && _); reflexivity.
Qed.

Lemma learned_lastMessageTarget (a c : option string) (s : Sys) :
  lastMessageTarget (state (learned a c s)) = lastMessageTarget (state s).
Proof.
  unfold learned, learned_conversation, learned_agent.
  destruct (truthy c && _), (truthy a && _), (truthy (createdAt (state s)));
    reflexivity.
Qed.

Section Kept.
Variable formatMessageEnvelope : InboundMessage -> string.
Variable cfg : AgentInstanceConfig.

(** A property of the state that survives every result event. *)
Variable P : AgentState -> Prop.
Hypothesis P_learned : forall a c s, P (state s) -> P (state (learned a c s)).

Lemma kept_result (p : Event -> bool) (a c : option string) :
  (forall st ok, p (EvWriteState st ok) = false) ->
  (forall x n, p (EvUpdateAgentName x n) = false) ->
  keeps (fun st _ => P st) p 0 (handleSessionResult cfg a c).
Proof.
  intros Hwrite Hname s Hs. rewrite handleSessionResult_run. cbn [post out].
  split; [apply P_learned, Hs|].
  unfold count. cbn [List.filter]. rewrite Hwrite.
  destruct (negb (truthy (agentId (state s))) && truthy a); cbn [List.filter];
    rewrite ?Hname; apply Nat.le_refl.
Qed.

Lemma kept_sendToAgent (body : string) (s : Sys) :
  P (state s) -> P (state (post (sendToAgent cfg body s))).
Proof.
  intros Hs.
  apply (given_sendToAgent cfg (fun st _ => P st) (fun _ => false));
    try (intros; reflexivity); try (intros; assumption).
  - intros a c. now apply kept_result.
  - apply keeps_sendToAgent_session; intros; reflexivity.
Qed.

Hypothesis P_lastMessageTarget : forall st t, P st -> P (set_lastMessageTarget t st).

Lemma kept_handleMessage (msg : InboundMessage) (adapter : ChannelAdapter) (s : Sys) :
  P (state s) ->
  P (state (post (handleMessage formatMessageEnvelope cfg msg adapter s))).
Proof.
  intros Hs.
  apply (given_handleMessage formatMessageEnvelope cfg (fun st _ => P st)
           (fun _ => false));
    try (intros; reflexivity); try (intros; assumption).
  - intros st d t. apply P_lastMessageTarget.
  - intros a c. now apply kept_result.
  - apply keeps_select_session; intros; reflexivity.
Qed.

End Kept.

Section Identity.
Variable formatMessageEnvelope : InboundMessage -> string.
Variable cfg : AgentInstanceConfig.

(** Neither a message nor a text sent out of band makes the instance
    forget what it has on record: a stored agent id stays (possibly replaced
    by the id a session reports), so does a stored conversation id, and the
    creation date is never overwritten.  [sendToAgent] leaves the last
    message target as it is. *)
Theorem identity_kept (msg : InboundMessage) (adapter : ChannelAdapter)
    (body : string) (s : Sys) :
  let h := state (post (handleMessage formatMessageEnvelope cfg msg adapter s)) in
  let r := state (post (sendToAgent cfg body s)) in
  (truthy (agentId (state s)) = true ->
   truthy (agentId h) = true /\ truthy (agentId r) = true)
  /\ (truthy (conversationId (state s)) = true ->
      truthy (conversationId h) = true /\ truthy (conversationId r) = true)
  /\ (truthy (createdAt (state s)) = true ->
      createdAt h = createdAt (state s) /\ createdAt r = createdAt (state s))
  /\ lastMessageTarget r = lastMessageTarget (state s).
Proof.
  intros h r. subst h r. split_and!.
  - intros Hs.
    assert (Hlearned : forall a c s0, truthy (agentId (state s0)) = true ->
                         truthy (agentId (state (learned a c s0))) = true).
    { intros a c s0 H0. rewrite learned_agentId.
      destruct (truthy a) eqn:Ha; assumption. }
    split.
    + now apply (kept_handleMessage formatMessageEnvelope cfg
                   (fun st => truthy (agentId st) = true)).
    + now apply (kept_sendToAgent cfg (fun st => truthy (agentId st) = true)).
  - intros Hs.
    assert (Hlearned : forall a c s0, truthy (conversationId (state s0)) = true ->
                         truthy (conversationId (state (learned a c s0))) = true).
    { intros a c s0 H0. rewrite learned_conversationId.
      destruct (truthy c) eqn:Hc; assumption. }
    split.
    + now apply (kept_handleMessage formatMessageEnvelope cfg
                   (fun st => truthy (conversationId st) = true)).
    + now apply (kept_sendToAgent cfg (fun st => truthy (conversationId st) = true)).
  - intros Hs.
    assert (Hlearned : forall a c s0, createdAt (state s0) = createdAt (state s) ->
                         createdAt (state (learned a c s0)) = createdAt (state s)).
    { intros a c s0 H0. rewrite learned_createdAt; [exact H0|]. now rewrite H0. }
    split.
    + now apply (kept_handleMessage formatMessageEnvelope cfg
                   (fun st => createdAt st = createdAt (state s))).
    + now apply (kept_sendToAgent cfg (fun st => createdAt st = createdAt (state s))).
  - apply (kept_sendToAgent cfg
             (fun st => lastMessageTarget st = lastMessageTarget (state s)));
      [|reflexivity].
    intros a c s0 H0. now rewrite learned_lastMessageTarget.
Qed.

Lemma stored_result (a c : option string) :
  keeps (fun st _ => truthy (agentId st) = true) is_createAgent 0
        (handleSessionResult cfg a c).
Proof.
  apply kept_result; try (intros; reflexivity).
  intros a' c' s0 H0. rewrite learned_agentId.
  destruct (truthy a') eqn:Ha; assumption.
Qed.

Lemma stored_select_session :
  keeps (fun st _ => truthy (agentId st) = true) is_createAgent 0
        (select_session cfg).
Proof.
  intros s Hs. rewrite select_session_run. cbv beta in Hs.
  destruct (truthy (conversationId (state s))); [|rewrite Hs];
    (split; [exact Hs|apply Nat.le_refl]).
Qed.

Lemma stored_handleMessage (msg : InboundMessage) (adapter : ChannelAdapter) :
  keeps (fun st _ => truthy (agentId st) = true) is_createAgent 0
        (handleMessage formatMessageEnvelope cfg msg adapter).
Proof.
  apply given_handleMessage;
    try (intros; reflexivity); try (intros; assumption).
  - apply stored_result.
  - apply stored_select_session.
Qed.

Lemma agent_inv_loop (i : Instance) :
  truthy (agentId (state (sys i))) = true ->
  count is_createAgent (calls (log i)) = 0 ->
  agent_inv (processQueue_loop formatMessageEnvelope cfg i).
Proof.
  intros Hsys Hlog. unfold processQueue_loop.
  destruct (messageQueue i) as [|e rest]; split_and!; try assumption;
    cbn [running]; [exact I|].
  destruct (stored_handleMessage (q_msg e) (q_adapter e) (sys i) Hsys)
    as [Hpost Hcount].
  cbn [begin r_pending r_after]. split; [lia|exact Hpost].
Qed.

Lemma agent_inv_processMessage (msg : InboundMessage) (adapter : ChannelAdapter)
    (i : Instance) :
  agent_inv i -> agent_inv (processMessage formatMessageEnvelope cfg msg adapter i).
Proof.
  intros (Hsys & Hlog & Hrun).
  assert (Hlog' : count is_createAgent (calls (log i ++ [LSubmit (promises i)])) = 0).
  { rewrite calls_app. simpl. now rewrite app_nil_r. }
  unfold processMessage. cbn [processing].
  destruct (processing i) eqn:Hproc; cbn [negb].
  - split_and!; assumption.
  - unfold processQueue. cbn [processing messageQueue orb].
    destruct (length (messageQueue i ++ [_]) =? 0)%nat.
    + split_and!; assumption.
    + apply agent_inv_loop; assumption.
Qed.

Lemma agent_inv_resume (i : Instance) :
  agent_inv i -> agent_inv (resume formatMessageEnvelope cfg i).
Proof.
  intros (Hsys & Hlog & Hrun). unfold resume.
  destruct (running i) as [r|] eqn:Hr.
  2:{ split_and!; [assumption|assumption|]. now rewrite Hr. }
  destruct Hrun as [Hpending Hafter].
  destruct (r_pending r) as [|ev evs].
  - apply agent_inv_loop; [exact Hafter|].
    cbn [log]. rewrite calls_app. simpl. now rewrite app_nil_r.
  - change (ev :: evs) with ([ev] ++ evs) in Hpending.
    rewrite count_app in Hpending.
    split_and!; cbn [sys log running r_pending r_after];
      [assumption| |split; [lia|assumption]].
    rewrite calls_app, count_app. simpl calls. lia.
Qed.

(** An instance that starts with an agent id on record never creates an
    agent, however many messages it is given and however they end; the id
    stays on record throughout. *)
Theorem stored_agent_never_recreated (s : Sys) (acts : list Action) :
  truthy (agentId (loadState s)) = true ->
  let i := run formatMessageEnvelope cfg (newInstance s) acts in
  count is_createAgent (calls (log i)) = 0
  /\ truthy (agentId (state (sys i))) = true.
Proof.
  intros Hs i.
  assert (Hinv : agent_inv i).
  { subst i.
    assert (Hnew : agent_inv (newInstance s)).
    { split_and!; [exact Hs|reflexivity|exact I]. }
    revert Hnew. generalize (newInstance s) as i0.
    induction acts as [|a acts IH]; intros i0 Hi0; [exact Hi0|].
    apply IH. destruct a; simpl.
    - now apply agent_inv_processMessage.
    - now apply agent_inv_resume. }
  destruct Hinv as (Hsys & Hlog & _). split; assumption.
Qed.

End Identity.

(** *** The queue runs empty *)
Section Drain.
Variable formatMessageEnvelope : InboundMessage -> string.
Variable cfg : AgentInstanceConfig.

Lemma run_app (i : Instance) (acts acts' : list Action) :
  run formatMessageEnvelope cfg i (acts ++ acts')
  = run formatMessageEnvelope cfg (run formatMessageEnvelope cfg i acts) acts'.
Proof. apply fold_left_app. Qed.

(** The worker finishes the message in hand and comes back to the head of
    its loop with the queue as it was. *)
Lemma drain_message (evs : list Event) (i : Instance) (r : Running) :
  running i = Some r -> r_pending r = evs ->
  exists n i1,
    run formatMessageEnvelope cfg i (repeat Resume n)
    = processQueue_loop formatMessageEnvelope cfg i1
    /\ messageQueue i1 = messageQueue i /\ running i1 = None.
Proof.
  revert i r. induction evs as [|ev evs IH]; intros i r Hr Hevs.
  - exists 1. eexists. cbn [repeat]. unfold run. cbn [fold_left step].
    unfold resume. rewrite Hr, Hevs. split; [reflexivity|].
    split; reflexivity.
  - destruct (IH (resume formatMessageEnvelope cfg i)
                 {| r_entry := r_entry r; r_pending := evs;
                    r_settle := r_settle r; r_after := r_after r |})
      as (n & i1 & Hrun & Hqueue & Hnone).
    + unfold resume. rewrite Hr, Hevs. reflexivity.
    + reflexivity.
    + exists (S n), i1. split; [exact Hrun|]. split; [|exact Hnone].
      rewrite Hqueue. unfold resume. rewrite Hr, Hevs. reflexivity.
Qed.

Lemma drain_queue (q : list QueueEntry) (i : Instance) (r : Running) :
  running i = Some r -> messageQueue i = q ->
  exists n,
    let i' := run formatMessageEnvelope cfg i (repeat Resume n) in
    running i' = None /\ messageQueue i' = [] /\ processing i' = false.
Proof.
  revert i r. induction q as [|e rest IH]; intros i r Hr Hq;
    destruct (drain_message (r_pending r) i r Hr eq_refl)
      as (n1 & i1 & Hrun & Hqueue & Hnone).
  - exists n1. cbv zeta. rewrite Hrun. unfold processQueue_loop.
    rewrite Hqueue, Hq. split_and!; reflexivity.
  - destruct (IH (processQueue_loop formatMessageEnvelope cfg i1)
                 (begin formatMessageEnvelope cfg e (sys i1)))
      as (n2 & Hdone).
    + unfold processQueue_loop. rewrite Hqueue, Hq. reflexivity.
    + unfold processQueue_loop. rewrite Hqueue, Hq. reflexivity.
    + exists (n1 + n2). cbv zeta. rewrite repeat_app, run_app, Hrun.
      exact Hdone.
Qed.

Lemma promises_loop (i : Instance) :
  promises (processQueue_loop formatMessageEnvelope cfg i) = promises i.
Proof. unfold processQueue_loop. destruct (messageQueue i); reflexivity. Qed.

Lemma promises_run (acts : list Action) (i : Instance) :
  promises (run formatMessageEnvelope cfg i acts) = promises i + submissions acts.
Proof.
  revert i. induction acts as [|a acts IH]; intros i; [cbn; lia|].
  change (run formatMessageEnvelope cfg i (a :: acts))
    with (run formatMessageEnvelope cfg (step formatMessageEnvelope cfg i a) acts).
  rewrite IH.
  destruct a as [msg adapter|]; unfold submissions;
    cbn [step List.filter length].
  - unfold processMessage. cbn [processing negb].
    destruct (negb (processing i)); [|cbn [promises]; lia].
    unfold processQueue. cbn [processing messageQueue].
    destruct (processing i || _); [cbn [promises]; lia|].
    rewrite promises_loop. cbn [promises]. lia.
  - unfold resume. destruct (running i) as [r|]; [|lia].
    destruct (r_pending r); [rewrite promises_loop|]; cbn [promises]; lia.
Qed.

(** No message is left behind: whatever has been submitted, and however
    far the worker has got, a finite number of further steps of the worker
    settles every promise, in the order of submission, each exactly once;
    the queue is then empty and the instance idle again. *)
Theorem queue_drains (s : Sys) (acts : list Action) :
  exists n,
    let i := run formatMessageEnvelope cfg (newInstance s)
                 (acts ++ repeat Resume n) in
    running i = None /\ messageQueue i = [] /\ processing i = false
    /\ settle_ids (log i) = seq 0 (submissions acts).
Proof.
  set (i0 := run formatMessageEnvelope cfg (newInstance s) acts).
  assert (Hdrain : exists n,
            let i := run formatMessageEnvelope cfg i0 (repeat Resume n) in
            running i = None /\ messageQueue i = [] /\ processing i = false).
  { destruct (running i0) as [r|] eqn:Hr.
    - exact (drain_queue _ i0 r Hr eq_refl).
    - exists 0. cbn [repeat]. cbv zeta. unfold run. cbn [fold_left].
      destruct (queue_inv_run formatMessageEnvelope cfg acts _ (queue_inv_new s))
        as (k & _ & _ & _ & _ & Hidle & _).
      destruct (Hidle Hr) as [Hq Hp]. split_and!; assumption. }
  destruct Hdrain as (n & Hnone & Hqueue & Hproc).
  exists n. cbv zeta. rewrite run_app. fold i0.
  split_and!; try assumption.
  destruct (queue_inv_run formatMessageEnvelope cfg (acts ++ repeat Resume n) _
              (queue_inv_new s))
    as (k & Hids & Hk & Hsettled & _).
  rewrite run_app in Hids, Hk, Hsettled. fold i0 in Hids, Hk, Hsettled.
  unfold pending_ids in Hk. rewrite Hnone, Hqueue in Hk.
  cbn [app map length] in Hk.
  rewrite promises_run in Hk. unfold i0 in Hk. rewrite promises_run in Hk.
  cbn [newInstance promises] in Hk.
  assert (Hresume : submissions (repeat Resume n) = 0).
  { clear. induction n; [reflexivity|exact IHn]. }
  rewrite Hsettled. f_equal. lia.
Qed.

End Drain.

(** *** At most one retry *)

(** Counting the calls of a step whose run is known. *)
Ltac count_run run_lemma :=
  intros ? _; rewrite run_lemma;
  repeat match goal with
         | |- context [match ?x with _ => _ end] => destruct x
         end;
  (split; [exact I|unfold count; simpl; lia]).

(** Closing the side conditions of the counting rules. *)
Ltac uncounted := try (intros; exact I); try (intros; reflexivity).

Section Bounds.
Variable formatMessageEnvelope : InboundMessage -> string.
Variable cfg : AgentInstanceConfig.

Lemma bounded_handleMessage (p : Event -> bool) (selecting initializing : nat)
    (msg : InboundMessage) (adapter : ChannelAdapter) :
  (forall st ok, p (EvWriteState st ok) = false) ->
  (forall a c, p (EvTypingIndicator a c) = false) ->
  (forall k body, p (EvSend k body) = false) ->
  (forall k m, p (EvStreamMsg k m) = false) ->
  (forall k, p (EvClose k) = false) ->
  (forall a m, p (EvSendMessage a m) = false) ->
  (forall a c m b, p (EvEditMessage a c m b) = false) ->
  p EvSetInterval = false -> p EvClearInterval = false ->
  (forall a n, p (EvUpdateAgentName a n) = false) ->
  keeps (fun _ _ => True) p selecting (select_session cfg) ->
  (forall session d sp,
     keeps (fun _ _ => True) p initializing (initialize_session session d sp)) ->
  keeps (fun _ _ => True) p (selecting + initializing)
        (handleMessage formatMessageEnvelope cfg msg adapter).
Proof.
  intros Hwrite Htyping Hsend Hstream Hclose Hdeliver Hedit Hset Hclear Hname
         Hselect Hinit.
  unfold handleMessage, handle_tracked, guarded.
  apply keeps_seq; [apply keeps_track_target; uncounted; auto|intros _].
  apply keeps_seq; [apply keeps_sendTypingIndicator; uncounted; auto|intros _].
  apply keeps_bind; [exact Hselect|intros [[session d] sp]].
  apply keeps_first; [apply Hinit|intros [session' initialized]].
  apply keeps_conclude; uncounted; auto.
  intros session0 body. apply keeps_session_send. exact Hsend.
Qed.

Lemma bounded_sendToAgent (p : Event -> bool) (selecting sending : nat)
    (body : string) :
  (forall st ok, p (EvWriteState st ok) = false) ->
  (forall k m, p (EvStreamMsg k m) = false) ->
  (forall k, p (EvClose k) = false) ->
  (forall a n, p (EvUpdateAgentName a n) = false) ->
  keeps (fun _ _ => True) p selecting (sendToAgent_session cfg) ->
  (forall session d sp,
     keeps (fun _ _ => True) p sending (sendToAgent_send session body d sp)) ->
  keeps (fun _ _ => True) p (selecting + sending) (sendToAgent cfg body).
Proof.
  intros Hwrite Hstream Hclose Hname Hselect Hsend.
  unfold sendToAgent, sendToAgent_finish.
  apply keeps_bind; [exact Hselect|intros [[session d] sp]].
  apply keeps_first; [apply Hsend|intros [session' sent]].
  apply keeps_seq.
  - destruct sent; [apply keeps_ret|].
    apply keeps_attempt, given_collect_stream; uncounted; auto.
    intros a c. apply keeps_handleSessionResult; uncounted; auto.
  - intros outcome.
    apply keeps_seq; [apply keeps_session_close; auto|intros _].
    apply keeps_settle.
Qed.

(** One retry at most.  For a message, [handleMessage] creates at most one
    agent, obtains at most two sessions and calls [initialize] at most
    twice; [sendToAgent] creates at most one agent, obtains at most two
    sessions, calls [send] at most twice and never calls [initialize]. *)
Theorem at_most_one_retry (msg : InboundMessage) (adapter : ChannelAdapter)
    (body : string) (s : Sys) :
  let h := out (handleMessage formatMessageEnvelope cfg msg adapter s) in
  let r := out (sendToAgent cfg body s) in
  (count is_createAgent h <= 1 /\ count is_obtain h <= 2
   /\ count is_initialize h <= 2)
  /\ (count is_createAgent r <= 1 /\ count is_obtain r <= 2
      /\ count is_send r <= 2 /\ count is_initialize r = 0).
Proof.
  intros h r. subst h r. split; split_and!.
  - apply (bounded_handleMessage is_createAgent 1 0); uncounted.
    + count_run select_session_run.
    + intros session d sp. count_run initialize_session_run.
  - apply (bounded_handleMessage is_obtain 1 1); uncounted.
    + count_run select_session_run.
    + intros session d sp. count_run initialize_session_run.
  - apply (bounded_handleMessage is_initialize 0 2); uncounted.
    + count_run select_session_run.
    + intros session d sp. count_run initialize_session_run.
  - apply (bounded_sendToAgent is_createAgent 1 0); uncounted.
    + count_run sendToAgent_session_run.
    + intros session d sp. count_run sendToAgent_send_run.
  - apply (bounded_sendToAgent is_obtain 1 1); uncounted.
    + count_run sendToAgent_session_run.
    + intros session d sp. count_run sendToAgent_send_run.
  - apply (bounded_sendToAgent is_send 0 2); uncounted.
    + count_run sendToAgent_session_run.
    + intros session d sp. count_run sendToAgent_send_run.
  - apply Nat.le_0_r.
    apply (keeps_sendToAgent cfg (fun _ _ => True) is_initialize); uncounted.
Qed.

End Bounds.

(** *** The state file keeps up with the state in memory *)

Lemma persists_ret {A : Type} (x : A) : persists (mret x).
Proof. intros s Hw Hs. split; assumption. Qed.

Lemma persists_throw {A : Type} (e : JsError) : persists (@throw A e).
Proof. intros s Hw Hs. split; assumption. Qed.

Lemma persists_settle {A : Type} (r : JsError + A) : persists (settle r).
Proof. destruct r; [apply persists_throw|apply persists_ret]. Qed.

Lemma persists_bind {A B : Type} (m : M A) (f : A -> M B) :
  persists m -> (forall a, persists (f a)) -> persists (m ≫= f).
Proof.
  intros Hm Hf s Hw Hs. destruct (Hm s Hw Hs) as [Hw1 Hs1].
  unfold mbind, M_bind. destruct (val (m s)) as [e|a]; cbn [post].
  - split; assumption.
  - exact (Hf a _ Hw1 Hs1).
Qed.

Lemma persists_attempt {A : Type} (m : M A) : persists m -> persists (attempt m).
Proof. intros Hm s Hw Hs. exact (Hm s Hw Hs). Qed.

Lemma persists_emit (e : Event) : persists (emit e).
Proof. intros s Hw Hs. split; assumption. Qed.

Lemma persists_get_state : persists get_state.
Proof. intros s Hw Hs. split; assumption. Qed.

Lemma persists_getenv : persists getenv_LETTA_BASE_URL.
Proof. intros s Hw Hs. split; assumption. Qed.

Lemma persists_new_session (ev : nat -> string -> Event) (handle : string)
    (sc : SessionScript) : persists (new_session ev handle sc).
Proof. intros s Hw Hs. split; assumption. Qed.

(** Answers of another kind than the outcome of a write. *)
Lemma persists_ask {A : Type} (d : A) (get : World -> list A)
    (put : list A -> World -> World) :
  (forall l w, fs_write_ok (put l w) = fs_write_ok w) ->
  persists (ask d get put).
Proof.
  intros Hput s Hw Hs. split; [|exact Hs].
  unfold writable, ask. cbn [post world with_world]. rewrite Hput. exact Hw.
Qed.

Lemma stores_persists {A : Type} (m : M A) : stores m -> persists m.
Proof. intros Hm s Hw _. exact (Hm s Hw). Qed.

Lemma stores_bind {A B : Type} (m : M A) (f : A -> M B) :
  stores m -> (forall a, persists (f a)) -> stores (m ≫= f).
Proof.
  intros Hm Hf s Hw. destruct (Hm s Hw) as [Hw1 Hs1].
  unfold mbind, M_bind. destruct (val (m s)) as [e|a]; cbn [post].
  - split; assumption.
  - exact (Hf a _ Hw1 Hs1).
Qed.

Lemma writable_hd (s : Sys) : writable s -> hd true (fs_write_ok (world s)) = true.
Proof.
  unfold writable. destruct (fs_write_ok (world s)) as [|ok rest]; [reflexivity|].
  intros Hw. symmetry. exact (Forall_inv Hw).
Qed.

Lemma writable_tl (s : Sys) : writable s -> Forall (eq true) (tl (fs_write_ok (world s))).
Proof.
  unfold writable. destruct (fs_write_ok (world s)) as [|ok rest]; [trivial|].
  intros Hw. exact (Forall_inv_tail Hw).
Qed.

Lemma stores_saveState : stores saveState.
Proof.
  intros s Hw. split.
  - exact (writable_tl s Hw).
  - unfold saved, loadState.
    change (disk (post (saveState s)))
      with (if hd true (fs_write_ok (world s)) then Some (state s) else disk s).
    rewrite (writable_hd s Hw). reflexivity.
Qed.

Lemma stores_modified (f : AgentState -> AgentState) :
  stores (modify_state f;; saveState).
Proof.
  intros s Hw.
  exact (stores_saveState (with_state (f (state s)) s) Hw).
Qed.

Create HintDb persists.

#[local] Hint Resolve persists_ret persists_throw persists_settle persists_emit
  persists_get_state persists_getenv persists_new_session : persists.

Ltac persists_step :=
  match goal with
  | |- persists (attempt _) => apply persists_attempt
  | |- persists (ask _ _ _) => apply persists_ask; intros; reflexivity
  | |- persists (_ ≫= _) => apply persists_bind; [|intros]
  | |- persists (if ?b then _ else _) => destruct b
  | |- persists (match ?x with _ => _ end) => destruct x
  | |- persists _ => solve [auto with persists]
  end.

Section Durable.
Variable formatMessageEnvelope : InboundMessage -> string.
Variable cfg : AgentInstanceConfig.

Lemma persists_dateNow : persists dateNow.
Proof. unfold dateNow. persists_step. Qed.

Lemma persists_sendTypingIndicator (adapter : ChannelAdapter) (chat : string) :
  persists (sendTypingIndicator adapter chat).
Proof. unfold sendTypingIndicator. repeat persists_step. Qed.

Lemma persists_sendMessage (adapter : ChannelAdapter) (m : OutboundMessage) :
  persists (sendMessage adapter m).
Proof. unfold sendMessage. repeat persists_step. Qed.

Lemma persists_editMessage (adapter : ChannelAdapter) (chat message body : string) :
  persists (editMessage adapter chat message body).
Proof. unfold editMessage. repeat persists_step. Qed.

Lemma persists_createAgent : persists (createAgent cfg).
Proof. unfold createAgent. repeat persists_step. Qed.

Lemma persists_open_session (ev : nat -> string -> Event) (handle : string) :
  persists (open_session ev handle).
Proof. unfold open_session. repeat persists_step. Qed.

Lemma persists_session_initialize (session : Session) :
  persists (session_initialize session).
Proof. unfold session_initialize. repeat persists_step. Qed.

Lemma persists_session_send (session : Session) (body : string) :
  persists (session_send session body).
Proof. unfold session_send. repeat persists_step. Qed.

Lemma persists_session_close (session : Session) :
  persists (session_close session).
Proof. unfold session_close. repeat persists_step. Qed.

Lemma persists_withTimeout (promise : Outcome) (label : string) (ms : Z) :
  persists (withTimeout promise label ms).
Proof. unfold withTimeout, await. repeat persists_step. Qed.

#[local] Hint Resolve persists_dateNow persists_sendTypingIndicator
  persists_sendMessage persists_editMessage persists_createAgent
  persists_open_session persists_session_initialize persists_session_send
  persists_session_close persists_withTimeout : persists.

(** [handleSessionResult] ends with a write. *)
Lemma stores_handleSessionResult (a c : option string) :
  stores (handleSessionResult cfg a c).
Proof.
  intros s Hw. rewrite handleSessionResult_run. cbn [post].
  apply stores_saveState.
  unfold writable, learned, learned_conversation, learned_agent.
  destruct (truthy a && _); [destruct (truthy (createdAt (state s)))|];
    match goal with
    | |- context [truthy c && ?b] => destruct (truthy c && b)
    end; exact Hw.
Qed.

Lemma persists_handleSessionResult (a c : option string) :
  persists (handleSessionResult cfg a c).
Proof. apply stores_persists, stores_handleSessionResult. Qed.

Lemma persists_on_assistant (adapter : ChannelAdapter) (msg : InboundMessage)
    (content : string) (loc : StreamLocals) :
  persists (on_assistant adapter msg content loc).
Proof. unfold on_assistant. repeat persists_step. Qed.

#[local] Hint Resolve persists_handleSessionResult persists_on_assistant : persists.

Lemma persists_stream_loop (adapter : ChannelAdapter) (msg : InboundMessage)
    (session : Session) (items : list StreamItem) (loc : StreamLocals) :
  persists (stream_loop cfg adapter msg session items loc).
Proof.
  revert loc. induction items as [|item rest IH]; intros loc; simpl.
  - apply persists_ret.
  - destruct item as [streamMsg|e]; [|apply persists_throw].
    apply persists_bind; [apply persists_emit|intros _].
    apply persists_bind.
    + destruct streamMsg; auto with persists.
    + intros loc'. destruct streamMsg; [apply IH| |apply IH].
      repeat persists_step.
Qed.

Lemma persists_deliver_final (adapter : ChannelAdapter) (msg : InboundMessage)
    (loc : StreamLocals) :
  persists (deliver_final adapter msg loc).
Proof. unfold deliver_final. repeat persists_step. Qed.

#[local] Hint Resolve persists_stream_loop persists_deliver_final : persists.

Lemma persists_send_and_stream (adapter : ChannelAdapter) (msg : InboundMessage)
    (session : Session) :
  persists (send_and_stream formatMessageEnvelope cfg adapter msg session).
Proof. unfold send_and_stream. repeat persists_step. Qed.

Lemma persists_select_session : persists (select_session cfg).
Proof. unfold select_session, resumeSession. repeat persists_step. Qed.

Lemma persists_initialize_session (session : Session) (d sp : bool) :
  persists (initialize_session session d sp).
Proof. unfold initialize_session, createSession. repeat persists_step. Qed.

Lemma persists_report_error (adapter : ChannelAdapter) (msg : InboundMessage)
    (tried : JsError + unit) :
  persists (report_error adapter msg tried).
Proof. unfold report_error. repeat persists_step. Qed.

#[local] Hint Resolve persists_send_and_stream persists_select_session
  persists_initialize_session persists_report_error : persists.

Lemma persists_handle_tracked (msg : InboundMessage) (adapter : ChannelAdapter) :
  persists (handle_tracked formatMessageEnvelope cfg msg adapter).
Proof.
  unfold handle_tracked.
  apply persists_bind; [apply persists_sendTypingIndicator|intros _].
  apply persists_bind; [apply persists_select_session|intros [[session d] sp]].
  unfold guarded.
  apply persists_bind;
    [apply persists_initialize_session|intros [session' initialized]].
  unfold conclude. repeat persists_step.
Qed.

Lemma stores_track_target (msg : InboundMessage) : stores (track_target msg).
Proof.
  intros s Hw. rewrite track_target_run. cbn [post]. split.
  - exact (writable_tl s Hw).
  - unfold saved, loadState, tracked. cbn [disk state].
    rewrite (writable_hd s Hw). reflexivity.
Qed.

Lemma persists_collect_stream (session : Session) (items : list StreamItem)
    (response : string) :
  persists (collect_stream cfg session items response).
Proof.
  revert response. induction items as [|item rest IH]; intros response; simpl.
  - apply persists_ret.
  - destruct item as [streamMsg|e]; [|apply persists_throw].
    apply persists_bind; [apply persists_emit|intros _].
    destruct streamMsg; [apply IH| |apply IH].
    repeat persists_step.
Qed.

Lemma persists_sendToAgent (body : string) : persists (sendToAgent cfg body).
Proof.
  unfold sendToAgent.
  apply persists_bind.
  { unfold sendToAgent_session, resumeSession. repeat persists_step. }
  intros [[session d] sp].
  apply persists_bind.
  { unfold sendToAgent_send, createSession, await. repeat persists_step. }
  intros [session' sent].
  unfold sendToAgent_finish. apply persists_bind.
  - destruct sent; [apply persists_ret|].
    apply persists_attempt, persists_collect_stream.
  - intros outcome. repeat persists_step.
Qed.

(** As long as the state file can be written, it holds the state that is
    in memory whenever the instance is done with a message, with [reset] or
    with [setAgentId], whatever was in the file before; a text sent out of
    band leaves it up to date if it was.  A restart then loads exactly the
    state the instance stopped with. *)
Theorem state_file_up_to_date (msg : InboundMessage) (adapter : ChannelAdapter)
    (agent body : string) (s : Sys) :
  writable s ->
  saved (post (handleMessage formatMessageEnvelope cfg msg adapter s))
  /\ saved (post (reset s))
  /\ saved (post (setAgentId agent s))
  /\ (saved s -> saved (post (sendToAgent cfg body s))).
Proof.
  intros Hw. split_and!.
  - apply (stores_bind (track_target msg)
             (fun _ => handle_tracked formatMessageEnvelope cfg msg adapter));
      [apply stores_track_target| |exact Hw].
    intros _. apply persists_handle_tracked.
  - now apply (stores_modified (fun _ => emptyState)).
  - now apply (stores_modified (set_agentId (Some agent))).
  - intros Hs. now apply persists_sendToAgent.
Qed.

End Durable.

(** *** [setAgentId] *)

Section Adoption.
Variable formatMessageEnvelope : InboundMessage -> string.
Variable cfg : AgentInstanceConfig.

(** [setAgentId] stores the given agent id and writes the state file, and
    leaves the stored conversation alone.  The message handled next creates
    no agent: it resumes the stored conversation if there is one, else the
    given agent, and if the initialization of that session fails it creates
    one fresh session for the given agent; it obtains no other session. *)
Theorem setAgentId_adopted (agent : string) (msg : InboundMessage)
    (adapter : ChannelAdapter) (s : Sys) :
  agent <> "" ->
  hd None (typing_results (world s)) = None ->
  let s0 := post (setAgentId agent s) in
  let r := handleMessage formatMessageEnvelope cfg msg adapter s0 in
  let handle := if truthy (conversationId (state s))
                then default "" (conversationId (state s)) else agent in
  state s0 = set_agentId (Some agent) (state s)
  /\ conversationId (state s0) = conversationId (state s)
  /\ out (setAgentId agent s)
     = [EvWriteState (state s0) (hd true (fs_write_ok (world s)))]
  /\ disk s0 = (if hd true (fs_write_ok (world s)) then Some (state s0) else disk s)
  /\ List.filter is_session_call (out r)
     = EvResumeSession (sessions_opened s) handle
       :: (if present (timed "Session initialize" (on_initialize (first_script s)))
           then [EvCreateSession (S (sessions_opened s)) agent]
           else []).
Proof.
  intros Hagent Htyping s0 r handle.
  assert (Htruthy : truthy (Some agent) = true).
  { cbn [truthy]. rewrite bool_decide_eq_false_2 by exact Hagent. reflexivity. }
  split_and!; try reflexivity.
  subst r.
  rewrite (handleMessage_typing_ok _ _ _ _ s0) by exact Htyping.
  rewrite served_run.
  change (conversationId (state (ready msg s0))) with (conversationId (state s)).
  change (agentId (state (ready msg s0))) with (Some agent).
  change (sessions_opened (ready msg s0)) with (sessions_opened s).
  rewrite Htruthy. subst handle.
  destruct (truthy (conversationId (state s)));
    unfold prepend; cbn [out];
    rewrite !List.filter_app, guarded_session_calls;
    change (agentId (state (session_taken (ready msg s0)))) with (Some agent);
    rewrite Htruthy; cbn [orb andb]; rewrite andb_true_r; reflexivity.
Qed.

End Adoption.

(** *** Further sample runs *)

Lemma handleMessage_throws_only_witness :
  let r := handleMessage envelope home hello telegram offline in
  let started :=
    [EvWriteState (tracked_state hello offline)
                  (hd true (fs_write_ok (world offline)));
     EvTypingIndicator (adapter_id telegram) (chatId hello)] in
  (hd None (typing_results (world offline)) = Some (ErrorObj "offline")
   /\ out r = started)
  \/ (truthy (conversationId (state offline)) = false
      /\ truthy (agentId (state offline)) = false
      /\ hd (inr "agent") (createAgent_results (world offline))
         = inl (ErrorObj "offline")
      /\ out r = started ++ [EvCreateAgent (model home)])
  \/ (exists before error k,
        out r = before
                ++ [EvSendMessage (adapter_id telegram)
                      {| o_chatId := chatId hello; o_text := error_text error;
                         o_threadId := threadId hello |};
                    EvClose k]).
Proof.
  exact (handleMessage_throws_only envelope home hello telegram offline
           (ErrorObj "offline") eq_refl).
Defined.

Lemma handleSessionResult_learns_witness :
  truthy (baseUrl (state (post (handleSessionResult home (Some "agent-1")
                                  (Some "conv-2") (system emptyState [])))))
  = true.
Proof.
  refine (proj1 (proj2 (proj2 (proj2 (proj2 (proj2
            (handleSessionResult_learns home (Some "agent-1") (Some "conv-2")
               (system emptyState []))))))) _).
  vm_compute. discriminate.
Defined.

Lemma identity_kept_witness :
  truthy (agentId (state (post (handleMessage envelope home hello telegram
                                  (system known [replying])))))
  = true.
Proof.
  exact (proj1 (proj1 (identity_kept envelope home hello telegram "ping"
                         (system known [replying])) eq_refl)).
Defined.

Lemma stored_agent_never_recreated_witness :
  count is_createAgent
        (calls (log (run envelope home
                       (newInstance (system known [stale_init; stale_init]))
                       two_submissions)))
  = 0.
Proof.
  exact (proj1 (stored_agent_never_recreated envelope home
                  (system known [stale_init; stale_init]) two_submissions
                  eq_refl)).
Defined.

Lemma state_file_up_to_date_witness :
  saved (post (handleMessage envelope home hello telegram offline)).
Proof.
  refine (proj1 (state_file_up_to_date envelope home hello telegram "agent-9"
                   "ping" offline _)).
  unfold writable. simpl. constructor.
Defined.

Lemma setAgentId_adopted_witness :
  List.filter is_session_call
    (out (handleMessage envelope home hello telegram
            (post (setAgentId "agent-9" (system known [stale_init])))))
  = [EvResumeSession 0 "conv-1"; EvCreateSession 1 "agent-9"].
Proof.
  refine (proj2 (proj2 (proj2 (proj2
            (setAgentId_adopted envelope home "agent-9" hello telegram
               (system known [stale_init]) _ eq_refl))))).
  discriminate.
Defined.

End AgentFacts.

(** ** Normalization of the configuration *)
Module NormalizeFacts.
Import Router RouterFacts Normalize.

Lemma existsb_false_In {A : Type} (f : A -> bool) (l : list A) (x : A) :
  existsb f l = false -> In x l -> f x = false.
Proof.
  intros Hl Hx. destruct (f x) eqn:Hfx; [|reflexivity].
  rewrite <- Hl. symmetry. apply existsb_exists. eauto.
Qed.

Lemma hasBinding_app (bs bs' : list AgentBinding) (channel : string)
    (accountId : option string) :
  hasBinding (bs ++ bs') channel accountId
  = hasBinding bs channel accountId || hasBinding bs' channel accountId.
Proof. apply existsb_app. Qed.

Lemma add_candidate_None (dflt : option AgentConfig)
    (l : list (string * option string)) :
  fold_left (add_candidate dflt) l None = None.
Proof. induction l as [|c l IH]; [reflexivity|exact IH]. Qed.

Lemma addImplicitBindings_candidates (config : LettaBotConfig)
    (agentsList : list AgentConfig) (existing : list AgentBinding) :
  addImplicitBindings config agentsList existing
  = fold_left (add_candidate (defaultAgent agentsList)) (candidates config)
              (Some existing).
Proof.
  unfold addImplicitBindings, candidates.
  generalize (Some existing) as acc. generalize channelTypes as types.
  induction types as [|channelType types IH]; intros acc; [reflexivity|].
  cbn [fold_left flat_map]. rewrite fold_left_app, IH. f_equal.
  destruct acc as [bs|]; [|now rewrite add_candidate_None].
  unfold add_channel.
  destruct (channels config !! channelType) as [channelConfig|]; [|reflexivity].
  destruct (negb (enabled channelConfig)); [reflexivity|].
  destruct (0 <? length (accounts channelConfig))%nat; [|reflexivity].
  generalize (Some bs) as acc.
  induction (accounts channelConfig) as [|accountId l IHl]; intros acc;
    [reflexivity|].
  cbn [fold_left map]. rewrite IHl. reflexivity.
Qed.

(** A candidate leaves the bindings as they are, having a binding, or is
    pushed at the end. *)
Lemma add_unless_bound_Some (dflt : option AgentConfig) (channel : string)
    (accountId : option string) (bs bs' : list AgentBinding) :
  add_unless_bound dflt channel accountId bs = Some bs' ->
  (hasBinding bs channel accountId = true /\ bs' = bs)
  \/ (hasBinding bs channel accountId = false
      /\ exists a, dflt = Some a /\ bs' = bs ++ [implicit a channel accountId]).
Proof.
  unfold add_unless_bound.
  destruct (hasBinding bs channel accountId); cbn [negb].
  - intros [= <-]. now left.
  - destruct dflt as [a|]; [|discriminate].
    intros [= <-]. right. eauto.
Qed.

Lemma added_fold (a : AgentConfig) (existing : list AgentBinding)
    (l : list (string * option string)) (imps : list AgentBinding)
    (bindings : list AgentBinding) :
  Forall (added existing a) imps ->
  fold_left (add_candidate (Some a)) l (Some (existing ++ imps)) = Some bindings ->
  exists imps', bindings = existing ++ imps' /\ Forall (added existing a) imps'.
Proof.
  revert imps. induction l as [|[channel accountId] l IH]; intros imps Himps.
  - intros [= <-]. eauto.
  - cbn [fold_left add_candidate fst snd].
    destruct (add_unless_bound (Some a) channel accountId (existing ++ imps))
      as [bs'|] eqn:Hstep; [|now rewrite add_candidate_None].
    apply add_unless_bound_Some in Hstep
      as [[_ ->]|(Hnone & a' & [= <-] & ->)]; [now apply IH|].
    rewrite <- app_assoc. apply IH.
    apply Forall_app. split; [exact Himps|].
    constructor; [|constructor].
    exists channel, accountId. split; [reflexivity|].
    rewrite hasBinding_app in Hnone. now apply orb_false_elim in Hnone.
Qed.

(** A pushed binding ranks below every binding on record that matches the
    same context. *)
Lemma added_ranks_below (existing : list AgentBinding) (a : AgentConfig)
    (m b : AgentBinding) (ctx : RoutingContext) :
  added existing a m -> In b existing ->
  matches ctx b = true -> matches ctx m = true ->
  (getSpecificityScore m < getSpecificityScore b)%Z.
Proof.
  intros (ch & acct & -> & Hnone) Hb Hmb Hmm.
  pose proof (existsb_false_In _ _ _ Hnone Hb) as Hpred. cbv beta in Hpred.
  rewrite !score_cases. unfold matches, getMatchLevel in Hmb, Hmm.
  cbn [implicit match_ m_channel m_accountId m_peer agentId present] in *.
  destruct (String.eqb_spec (m_channel (match_ b)) (channel ctx)) as [Hcb|];
    [|discriminate].
  destruct (String.eqb_spec ch (channel ctx)) as [Hcm|]; [|discriminate].
  rewrite Hcb, <- Hcm, String.eqb_refl in Hpred. cbn [negb] in *.
  destruct (m_peer (match_ b)) as [pb|]; cbn [present];
    [destruct (truthy acct), (truthy (m_accountId (match_ b))); lia|].
  cbn [present negb andb] in Hpred.
  destruct (truthy (m_accountId (match_ b))) eqn:Hab; cbn [negb andb] in Hpred;
    [|rewrite andb_false_r in Hpred; discriminate].
  destruct (truthy acct) eqn:Hacct; [|lia].
  exfalso. rewrite andb_true_r in Hpred. cbn [andb] in Hpred.
  destruct (decide (m_accountId (match_ b) = accountId ctx)) as [Hb1|Hb1];
    [|rewrite (bool_decide_eq_false_2 _ Hb1) in Hmb; discriminate].
  destruct (decide (acct = accountId ctx)) as [Hm1|Hm1];
    [|rewrite (bool_decide_eq_false_2 _ Hm1) in Hmm; discriminate].
  rewrite bool_decide_eq_true_2 in Hpred by congruence.
  cbn [negb] in Hpred. discriminate.
Qed.

(** What [addImplicitBindings] adds comes after the bindings on record, is
    for the default agent and names no peer; and it never changes the agent
    a message is routed to.  A context that a binding on record matches is
    routed exactly as before; any other context goes to the default agent,
    by a pushed binding or by default. *)
Theorem implicit_bindings_neutral (config : LettaBotConfig)
    (agentsList : list AgentConfig) (existing bindings : list AgentBinding)
    (a : AgentConfig) (ctx : RoutingContext) :
  addImplicitBindings config agentsList existing = Some bindings ->
  defaultAgent agentsList = Some a ->
  let before := route (createRouter existing (a_id a)) ctx in
  let after := route (createRouter bindings (a_id a)) ctx in
  (exists pushed,
      bindings = existing ++ pushed
      /\ Forall (fun m => agentId m = a_id a /\ m_peer (match_ m) = None) pushed)
  /\ r_agentId after = r_agentId before
  /\ (matchedBinding before <> None -> after = before).
Proof.
  intros Hadd Hdflt before after.
  rewrite addImplicitBindings_candidates, Hdflt in Hadd.
  destruct (added_fold a existing (candidates config) [] bindings)
    as (pushed & -> & Hpushed); [constructor|now rewrite app_nil_r|].
  split.
  { exists pushed. split; [reflexivity|].
    eapply Forall_impl; [exact Hpushed|].
    intros m (ch & acct & -> & _). split; reflexivity. }
  assert (Hloop : route_loop (sortBySpecificity (existing ++ pushed)) ctx
                  = match route_loop (sortBySpecificity existing) ctx with
                    | Some res => Some res
                    | None => route_loop (sortBySpecificity
                                            (List.filter (matches ctx) pushed)) ctx
                    end).
  { rewrite route_loop_sorted, List.filter_app.
    unfold sortBySpecificity at 1.
    rewrite (js_sort_app getSpecificityScore).
    - rewrite route_loop_app. fold (sortBySpecificity (List.filter (matches ctx) existing)).
      now rewrite <- route_loop_sorted.
    - intros b m [Hb Hmb]%List.filter_In [Hm Hmm]%List.filter_In.
      rewrite List.Forall_forall in Hpushed.
      pose proof (added_ranks_below existing a m b ctx (Hpushed m Hm) Hb Hmb Hmm).
      lia. }
  subst before after. unfold route. cbn [createRouter Router.bindings defaultAgentId].
  rewrite Hloop.
  destruct (route_loop (sortBySpecificity existing) ctx) as [res|] eqn:Hres.
  - split; [reflexivity|]. intros _. reflexivity.
  - cbn [matchedBinding r_agentId]. split; [|intros []; reflexivity].
    destruct (route_loop (sortBySpecificity (List.filter (matches ctx) pushed)) ctx)
      as [res|] eqn:Hpush; [|reflexivity].
    apply route_loop_agent in Hpush as (m & Hm & ->).
    assert (Hin : In m pushed).
    { eapply Permutation_in in Hm; [|symmetry; apply sortBySpecificity_perm].
      now apply List.filter_In in Hm. }
    rewrite List.Forall_forall in Hpushed.
    destruct (Hpushed m Hin) as (ch & acct & -> & _). reflexivity.
Qed.

Lemma implicit_bindings_neutral_witness :
  r_agentId (route (createRouter
                      [telegram_group42; slack_work;
                       implicit {| a_id := "home"; a_name := "Home";
                                   a_default := false; a_workspace := "~/home";
                                   a_model := None |} "slack" (Some "play")]
                      "home") on_slack_play)
  = "home".
Proof.
  exact (proj1 (proj2 (implicit_bindings_neutral two_channels two_agents
                         [telegram_group42; slack_work] _ _ on_slack_play
                         eq_refl eq_refl))).
Defined.

(** *** Normalizing twice *)

Lemma hasBinding_implicit (bs : list AgentBinding) (a : AgentConfig)
    (channel : string) (accountId : option string) :
  hasBinding (bs ++ [implicit a channel accountId]) channel accountId = true.
Proof.
  rewrite hasBinding_app. apply orb_true_intro. right.
  unfold hasBinding. cbn [existsb implicit match_ m_channel m_accountId m_peer].
  rewrite String.eqb_refl, bool_decide_eq_true_2 by reflexivity.
  cbn [negb present]. rewrite andb_false_r, andb_true_r.
  destruct (truthy accountId); reflexivity.
Qed.

Lemma covered_fold (dflt : option AgentConfig) (l : list (string * option string))
    (bs bs' : list AgentBinding) :
  fold_left (add_candidate dflt) l (Some bs) = Some bs' ->
  (exists pushed, bs' = bs ++ pushed)
  /\ Forall (fun c => hasBinding bs' (fst c) (snd c) = true) l.
Proof.
  revert bs. induction l as [|[channel accountId] l IH]; intros bs.
  - intros [= <-]. split; [exists []; now rewrite app_nil_r|constructor].
  - cbn [fold_left add_candidate fst snd].
    destruct (add_unless_bound dflt channel accountId bs) as [bs1|] eqn:Hstep;
      [|now rewrite add_candidate_None].
    intros [[pushed ->] Hl]%IH.
    assert (Hbs1 : (exists pushed1, bs1 = bs ++ pushed1)
                   /\ hasBinding bs1 channel accountId = true).
    { apply add_unless_bound_Some in Hstep
        as [[Hhas ->]|(_ & a & _ & ->)].
      - split; [exists []; now rewrite app_nil_r|exact Hhas].
      - split; [eauto|apply hasBinding_implicit]. }
    destruct Hbs1 as [[pushed1 ->] Hhas]. split.
    + exists (pushed1 ++ pushed). now rewrite app_assoc.
    + constructor; [|exact Hl].
      cbn [fst snd]. rewrite hasBinding_app, Hhas. reflexivity.
Qed.

Lemma covered_fixed (dflt : option AgentConfig) (l : list (string * option string))
    (bs : list AgentBinding) :
  Forall (fun c => hasBinding bs (fst c) (snd c) = true) l ->
  fold_left (add_candidate dflt) l (Some bs) = Some bs.
Proof.
  induction 1 as [|[channel accountId] l Hc _ IH]; [reflexivity|].
  cbn [fold_left add_candidate fst snd] in *. unfold add_unless_bound.
  rewrite Hc. exact IH.
Qed.

(** The enabled channel accounts are the candidates of the loops, a
    channel without accounts being listed under the account "default". *)
Lemma enabled_candidates (config : LettaBotConfig) (channel accountId : string) :
  In (channel, accountId) (getEnabledChannelAccounts config) ->
  In (channel, Some accountId) (candidates config)
  \/ (accountId = "default" /\ In (channel, None) (candidates config)).
Proof.
  unfold getEnabledChannelAccounts, candidates. rewrite !in_flat_map.
  intros (channelType & Htype & Hin).
  destruct (channels config !! channelType) as [channelConfig|] eqn:Hc;
    [|destruct Hin].
  destruct (negb (enabled channelConfig)) eqn:He; [destruct Hin|].
  destruct (0 <? length (accounts channelConfig))%nat eqn:Hmulti.
  - left. exists channelType. split; [exact Htype|]. rewrite Hc, He, Hmulti.
    apply in_map_iff in Hin as (a & [= <- <-] & Ha).
    apply in_map_iff. eauto.
  - right. destruct Hin as [[= <- <-]|[]]. split; [reflexivity|].
    exists channelType. split; [exact Htype|]. rewrite Hc, He, Hmulti. now left.
Qed.

(** Normalizing bindings that are already normalized adds nothing: once
    [addImplicitBindings] is through, every enabled channel account has a
    binding in the sense of [hasBinding], a channel without accounts being
    asked for as a whole. *)
Theorem addImplicitBindings_idempotent (config : LettaBotConfig)
    (agentsList : list AgentConfig) (existing bindings : list AgentBinding) :
  addImplicitBindings config agentsList existing = Some bindings ->
  addImplicitBindings config agentsList bindings = Some bindings
  /\ (forall channel accountId,
        In (channel, accountId) (getEnabledChannelAccounts config) ->
        hasBinding bindings channel (Some accountId) = true
        \/ (accountId = "default" /\ hasBinding bindings channel None = true)).
Proof.
  rewrite !addImplicitBindings_candidates.
  intros [_ Hcovered]%covered_fold.
  split; [now apply covered_fixed|].
  rewrite List.Forall_forall in Hcovered.
  intros channel accountId [Hin|[-> Hin]]%enabled_candidates.
  - left. exact (Hcovered _ Hin).
  - right. split; [reflexivity|exact (Hcovered _ Hin)].
Qed.

Lemma addImplicitBindings_idempotent_witness :
  hasBinding [telegram_group42; slack_work;
              implicit {| a_id := "home"; a_name := "Home";
                          a_default := false; a_workspace := "~/home";
                          a_model := None |} "slack" (Some "play")]
             "slack" (Some "play")
  = true
  \/ ("play" = "default"
      /\ hasBinding [telegram_group42; slack_work;
                     implicit {| a_id := "home"; a_name := "Home";
                                 a_default := false; a_workspace := "~/home";
                                 a_model := None |} "slack" (Some "play")]
                    "slack" None
         = true).
Proof.
  refine (proj2 (addImplicitBindings_idempotent two_channels two_agents
                   [telegram_group42; slack_work] _ eq_refl)
                "slack" "play" _).
  vm_compute. auto.
Defined.

(** *** [normalizeConfig] *)

Lemma defaultAgent_flagged (l : list AgentConfig) :
  existsb a_default l = true ->
  exists a, defaultAgent l = Some a /\ a_default a = true /\ In a l.
Proof.
  intros Hl. unfold defaultAgent.
  destruct (List.find a_default l) as [a|] eqn:Hfind.
  - apply find_some in Hfind as [Hin Ha]. eauto.
  - apply existsb_exists in Hl as (a & Hin & Ha).
    now rewrite (find_none _ _ Hfind a Hin) in Ha.
Qed.

Lemma add_candidate_total (a : AgentConfig) (l : list (string * option string))
    (bs : list AgentBinding) :
  exists bs', fold_left (add_candidate (Some a)) l (Some bs) = Some bs'.
Proof.
  revert bs. induction l as [|[channel accountId] l IH]; intros bs; [eauto|].
  cbn [fold_left add_candidate fst snd]. unfold add_unless_bound.
  destruct (negb (hasBinding bs channel accountId)); apply IH.
Qed.

Lemma mark_first_ids (l : list AgentConfig) :
  map a_id (mark_first l) = map a_id l.
Proof. destruct l; reflexivity. Qed.

Section Paths.
Variable homedir : string.
Variable join : list string -> string.

(** The ids of the agents a configuration declares: those of
    [agents.list], or the one of the legacy block. *)
Lemma normalized_agents_ids (config : LettaBotConfig) :
  map a_id (fst (normalized_agents homedir join config))
  = match agents_list config with
    | Some (first :: others) => map a_id (first :: others)
    | _ => [or_else (agent config ≫= l_id) "main"]
    end.
Proof.
  unfold normalized_agents.
  destruct (agents_list config) as [[|first others]|]; try reflexivity.
  cbn [fst]. set (list := map _ (first :: others)).
  destruct (negb (existsb a_default list)); subst list;
    rewrite ?mark_first_ids, map_map; reflexivity.
Qed.

Lemma normalized_agents_default (config : LettaBotConfig) :
  existsb a_default (fst (normalized_agents homedir join config)) = true.
Proof.
  unfold normalized_agents.
  destruct (agents_list config) as [[|first others]|]; try reflexivity.
  cbn [fst]. set (list := map _ (first :: others)).
  destruct (existsb a_default list) eqn:Hnone; cbn [negb];
    [exact Hnone|reflexivity].
Qed.

(** [normalizeConfig] always succeeds: whatever the configuration, the
    agents of the result are those declared (the legacy agent, with id
    "main" unless it has one, when [agents.list] is absent or empty), one of
    them is the default agent, and the bindings are the declared ones (none
    in legacy mode) followed by bindings for the default agent that name no
    peer. *)
Theorem normalizeConfig_total (config : LettaBotConfig) :
  exists n a,
    normalizeConfig homedir join config = Some n
    /\ defaultAgent (n_list n) = Some a /\ a_default a = true /\ In a (n_list n)
    /\ map a_id (n_list n)
       = match agents_list config with
         | Some (first :: others) => map a_id (first :: others)
         | _ => [or_else (agent config ≫= l_id) "main"]
         end
    /\ exists pushed,
         n_bindings n
         = match agents_list config, c_bindings config with
           | Some (_ :: _), Some declared => declared
           | _, _ => []
           end ++ pushed
         /\ Forall (fun m => agentId m = a_id a /\ m_peer (match_ m) = None)
                   pushed.
Proof.
  pose proof (normalized_agents_ids config) as Hids.
  pose proof (normalized_agents_default config) as Hdefault.
  assert (Hdeclared : snd (normalized_agents homedir join config)
                      = match agents_list config, c_bindings config with
                        | Some (_ :: _), Some declared => declared
                        | _, _ => []
                        end).
  { unfold normalized_agents.
    destruct (agents_list config) as [[|first others]|]; reflexivity. }
  unfold normalizeConfig.
  destruct (normalized_agents homedir join config) as [list declared].
  cbn [fst snd] in *.
  destruct (defaultAgent_flagged _ Hdefault) as (a & Hdflt & Ha & Hin).
  destruct (add_candidate_total a (candidates config) declared) as [bs Hbs].
  rewrite addImplicitBindings_candidates, Hdflt, Hbs.
  exists {| n_list := list; n_bindings := bs |}, a. cbn [n_list n_bindings].
  split_and!; try assumption; try reflexivity.
  destruct (added_fold a declared (candidates config) [] bs)
    as (pushed & -> & Hpushed); [constructor|now rewrite app_nil_r|].
  exists pushed. split; [now rewrite Hdeclared|].
  eapply Forall_impl; [exact Hpushed|].
  intros m (ch & acct & -> & _). split; reflexivity.
Qed.

Lemma defaultAgent_In (l : list AgentConfig) (a : AgentConfig) :
  defaultAgent l = Some a -> In a l.
Proof.
  unfold defaultAgent. destruct (List.find a_default l) as [a'|] eqn:Hfind.
  - intros [= <-]. now apply find_some in Hfind.
  - destruct l; [discriminate|]. intros [= <-]. now left.
Qed.

(** What a successful normalization returns. *)
Lemma normalizeConfig_Some (config : LettaBotConfig) (n : NormalizedConfig) :
  normalizeConfig homedir join config = Some n ->
  n_list n = fst (normalized_agents homedir join config)
  /\ exists pushed,
       n_bindings n = snd (normalized_agents homedir join config) ++ pushed
       /\ forall a, defaultAgent (n_list n) = Some a ->
                    Forall (fun m => agentId m = a_id a) pushed.
Proof.
  unfold normalizeConfig.
  destruct (normalized_agents homedir join config) as [list declared].
  destruct (addImplicitBindings config list declared) as [bs|] eqn:Hbs;
    [|discriminate].
  intros [= <-]. cbn [n_list n_bindings fst snd]. split; [reflexivity|].
  rewrite addImplicitBindings_candidates in Hbs.
  destruct (defaultAgent list) as [a|] eqn:Hdflt.
  - destruct (added_fold a declared (candidates config) [] bs)
      as (pushed & -> & Hpushed); [constructor|now rewrite app_nil_r|].
    exists pushed. split; [reflexivity|]. intros a' [= <-].
    eapply Forall_impl; [exact Hpushed|].
    intros m (ch & acct & -> & _). reflexivity.
  - destruct (covered_fold _ _ _ _ Hbs) as [[pushed ->] _].
    exists pushed. split; [reflexivity|]. discriminate.
Qed.

(** A legacy configuration keeps working: without [agents.list], every
    binding of the normalized configuration is for the one agent, and the
    router built from it sends every context to that agent. *)
Theorem legacy_single_agent (config : LettaBotConfig) (n : NormalizedConfig)
    (ctx : RoutingContext) :
  (agents_list config = None \/ agents_list config = Some []) ->
  normalizeConfig homedir join config = Some n ->
  let id := or_else (agent config ≫= l_id) "main" in
  map a_id (n_list n) = [id]
  /\ Forall (fun b => agentId b = id) (n_bindings n)
  /\ r_agentId (route (createRouter (n_bindings n) id) ctx) = id.
Proof.
  intros Hlegacy Hn id.
  destruct (normalizeConfig_Some config n Hn) as (Hlist & pushed & Hbs & Hpushed).
  assert (Hagents : normalized_agents homedir join config
                    = ([{| a_id := id;
                           a_name := or_else (agent config ≫= l_name) "LettaBot";
                           a_default := true;
                           a_workspace := DEFAULT_WORKSPACE homedir join;
                           a_model := Some (or_else (agent config ≫= l_model)
                                                    DEFAULT_MODEL) |}], [])).
  { unfold normalized_agents. destruct Hlegacy as [->| ->]; reflexivity. }
  rewrite Hagents in Hlist, Hbs. cbn [fst snd app] in Hlist, Hbs.
  assert (Hall : Forall (fun b => agentId b = id) (n_bindings n)).
  { rewrite Hbs. rewrite Hlist in Hpushed. exact (Hpushed _ eq_refl). }
  split_and!; [now rewrite Hlist|exact Hall|].
  destruct (route_agent_cases (n_bindings n) id ctx) as [Hd|(b & Hin & ->)];
    [exact Hd|].
  rewrite List.Forall_forall in Hall. auto.
Qed.

(** *** [validateConfig] *)

Lemma validate_agent_errors (acc : list string * list string) (a : AgentConfig) :
  snd (validate_agent acc a) = [] ->
  snd acc = []
  /\ (a_id a ∉ fst acc)
  /\ fst (validate_agent acc a) = fst acc ++ [a_id a].
Proof.
  destruct acc as [ids errors]. unfold validate_agent. cbn [fst snd].
  destruct (negb (truthy (Some (a_id a)))).
  { destruct (negb (truthy (Some (a_workspace a)))); cbn [snd]; intros H;
      apply app_eq_nil in H as [_ [=]]. }
  case_bool_decide as Hdup.
  { destruct (negb (truthy (Some (a_workspace a)))); cbn [snd]; intros H;
      apply app_eq_nil in H as [_ [=]]. }
  destruct (negb (truthy (Some (a_workspace a)))); cbn [fst snd]; intros H.
  - apply app_eq_nil in H as [_ [=]].
  - auto.
Qed.

Lemma validate_agents_errors (l : list AgentConfig) (acc : list string * list string) :
  snd (fold_left validate_agent l acc) = [] ->
  snd acc = []
  /\ fst (fold_left validate_agent l acc) = fst acc ++ map a_id l
  /\ (NoDup (fst acc) -> NoDup (fst (fold_left validate_agent l acc))).
Proof.
  revert acc. induction l as [|a l IH]; intros acc; cbn [fold_left map].
  - intros Hacc. rewrite app_nil_r. auto.
  - intros (Hstep & Hids & Hnodup)%IH.
    apply validate_agent_errors in Hstep as (Hacc & Hfresh & Hfst).
    rewrite Hfst in Hids, Hnodup.
    split_and!; [exact Hacc|now rewrite Hids, <- app_assoc|].
    intros Hacc'. apply Hnodup, NoDup_app.
    split_and!; [exact Hacc'| |apply NoDup_singleton].
    intros x Hx ->%list_elem_of_singleton. contradiction.
Qed.

Lemma validate_bindings_errors (ids : list string) (bs : list AgentBinding)
    (errors : list string) :
  fold_left (validate_binding ids) bs errors = [] ->
  errors = [] /\ Forall (fun b => agentId b ∈ ids) bs.
Proof.
  revert errors. induction bs as [|b bs IH]; intros errors; cbn [fold_left].
  - auto.
  - intros [Hstep Hbs]%IH. unfold validate_binding in Hstep.
    case_bool_decide as Hknown; cbn [negb] in Hstep.
    + destruct (negb (truthy (Some (m_channel (match_ b)))));
        [apply app_eq_nil in Hstep as [_ [=]]|].
      split; [exact Hstep|]. now constructor.
    + destruct (negb (truthy (Some (m_channel (match_ b)))));
        apply app_eq_nil in Hstep as [_ [=]].
Qed.

(** What passing [validateConfig] says of the normalized configuration. *)
Lemma validated_known (config : LettaBotConfig) (n : NormalizedConfig)
    (a : AgentConfig) :
  validateConfig config = [] ->
  normalizeConfig homedir join config = Some n ->
  defaultAgent (n_list n) = Some a ->
  let ids := map a_id (n_list n) in
  NoDup ids
  /\ Forall (fun b => agentId b ∈ ids) (n_bindings n)
  /\ a_id a ∈ ids
  /\ exists channelType channelConfig,
       channels config !! channelType = Some channelConfig
       /\ enabled channelConfig = true.
Proof.
  intros Hvalid Hn Hdflt ids.
  destruct (normalizeConfig_Some config n Hn) as (Hlist & pushed & Hbs & Hpushed).
  specialize (Hpushed a Hdflt).
  assert (Ha : a_id a ∈ ids).
  { apply list_elem_of_In, in_map, defaultAgent_In, Hdflt. }
  assert (Hids : ids = match agents_list config with
                       | Some (first :: others) => map a_id (first :: others)
                       | _ => [or_else (agent config ≫= l_id) "main"]
                       end).
  { subst ids. rewrite Hlist. apply normalized_agents_ids. }
  unfold validateConfig in Hvalid.
  destruct (existsb _ (map_to_list (channels config))) eqn:Hchannel;
    cbn [negb] in Hvalid; [|apply app_eq_nil in Hvalid as [_ [=]]].
  assert (Hdeclared : NoDup ids
                      /\ Forall (fun b => agentId b ∈ ids)
                                (snd (normalized_agents homedir join config))).
  { rewrite Hids. unfold normalized_agents.
    destruct (agents_list config) as [[|first others]|];
      cbn [snd]; try (split; [apply NoDup_singleton|constructor]).
    destruct (fold_left validate_agent (first :: others) ([], []))
      as [seen errors] eqn:Hfold.
    assert (Herrors : errors = []).
    { destruct (c_bindings config) as [declared|]; [|exact Hvalid].
      now apply validate_bindings_errors in Hvalid. }
    pose proof (validate_agents_errors (first :: others) ([], [])) as Hagents.
    rewrite Hfold in Hagents. cbn [fst snd app] in Hagents.
    destruct (Hagents Herrors) as (_ & -> & Hnodup).
    split; [apply Hnodup, NoDup_nil_2|].
    destruct (c_bindings config) as [declared|]; [|constructor].
    now apply validate_bindings_errors in Hvalid. }
  destruct Hdeclared as [Hnodup Hdeclared].
  split_and!; [exact Hnodup| |exact Ha|].
  - rewrite Hbs. apply Forall_app. split; [exact Hdeclared|].
    eapply Forall_impl; [exact Hpushed|]. intros m ->. exact Ha.
  - apply existsb_exists in Hchannel as ([channelType channelConfig] & Hin & He).
    exists channelType, channelConfig. split; [|exact He].
    apply elem_of_map_to_list, list_elem_of_In, Hin.
Qed.

(** A configuration that passes [validateConfig] only routes to agents it
    declares: the ids of the normalized agents are distinct, every binding
    of the normalized configuration names one of them, and so does the
    routing result of every context; and some channel is enabled. *)
Theorem validated_routes_known (config : LettaBotConfig) (n : NormalizedConfig)
    (a : AgentConfig) (ctx : RoutingContext) :
  validateConfig config = [] ->
  normalizeConfig homedir join config = Some n ->
  defaultAgent (n_list n) = Some a ->
  let ids := map a_id (n_list n) in
  NoDup ids
  /\ Forall (fun b => agentId b ∈ ids) (n_bindings n)
  /\ r_agentId (route (createRouter (n_bindings n) (a_id a)) ctx) ∈ ids
  /\ exists channelType channelConfig,
       channels config !! channelType = Some channelConfig
       /\ enabled channelConfig = true.
Proof.
  intros Hvalid Hn Hdflt ids.
  destruct (validated_known config n a Hvalid Hn Hdflt)
    as (Hnodup & Hall & Ha & Hchannel).
  split_and!; [exact Hnodup|exact Hall| |exact Hchannel].
  destruct (route_agent_cases (n_bindings n) (a_id a) ctx)
    as [->|(b & Hin & ->)]; [exact Ha|].
  rewrite List.Forall_forall in Hall. auto.
Qed.

End Paths.

Lemma legacy_single_agent_witness :
  r_agentId (route (createRouter
                      match normalizeConfig "/home/bot" slash two_channels with
                      | Some n => n_bindings n
                      | None => []
                      end "main") on_slack_play)
  = "main".
Proof.
  exact (proj2 (proj2 (legacy_single_agent "/home/bot" slash two_channels _
                         on_slack_play (or_introl eq_refl) eq_refl))).
Defined.

Lemma validated_routes_known_witness :
  r_agentId (route (createRouter
                      match normalizeConfig "/home/bot" slash declared_agents with
                      | Some n => n_bindings n
                      | None => []
                      end "home") on_slack_play)
  ∈ ["home"; "work"].
Proof.
  exact (proj1 (proj2 (proj2 (validated_routes_known "/home/bot" slash
                                declared_agents _ _ on_slack_play
                                eq_refl eq_refl eq_refl)))).
Defined.

End NormalizeFacts.

(** ** The gateway *)
Module GatewayFacts.
Import Router RouterFacts Normalize NormalizeFacts Gateway.

Lemma map_get_set_same {V : Type} (key : string) (v : V) (m : list (string * V)) :
  map_get key (map_set key v m) = Some v.
Proof.
  induction m as [|[k w] m IH]; cbn [map_set map_get].
  - now rewrite String.eqb_refl.
  - destruct (String.eqb k key) eqn:Hk; cbn [map_get]; rewrite Hk; auto.
Qed.

Lemma map_get_set_other {V : Type} (key key' : string) (v : V)
    (m : list (string * V)) :
  key <> key' -> map_get key' (map_set key v m) = map_get key' m.
Proof.
  intros Hne. induction m as [|[k w] m IH]; cbn [map_set map_get].
  - destruct (String.eqb_spec key key'); [contradiction|reflexivity].
  - destruct (String.eqb_spec k key) as [->|Hk]; cbn [map_get].
    + destruct (String.eqb_spec key key'); [contradiction|reflexivity].
    + now rewrite IH.
Qed.

Lemma map_set_keys {V : Type} (key : string) (v : V) (m : list (string * V)) :
  map fst (map_set key v m)
  = if bool_decide (key ∈ map fst m) then map fst m else map fst m ++ [key].
Proof.
  induction m as [|[k w] m IH]; cbn [map_set map fst app]; [reflexivity|].
  destruct (String.eqb_spec k key) as [->|Hk]; cbn [map fst].
  - rewrite bool_decide_eq_true_2; [reflexivity|]. apply list_elem_of_here.
  - rewrite IH. case_bool_decide as Hin.
    + rewrite bool_decide_eq_true_2; [reflexivity|]. now apply list_elem_of_further.
    + rewrite bool_decide_eq_false_2; [reflexivity|].
      intros [Heq|Hin']%elem_of_cons; [congruence|contradiction].
Qed.

Lemma map_set_key_in {V : Type} (key : string) (v : V) (m : list (string * V)) :
  key ∈ map fst (map_set key v m).
Proof.
  rewrite map_set_keys. case_bool_decide as Hin; [exact Hin|].
  apply elem_of_app. right. apply list_elem_of_here.
Qed.

Lemma map_get_values {V : Type} (key : string) (v : V) (m : list (string * V)) :
  map_get key m = Some v -> v ∈ map snd m.
Proof.
  induction m as [|[k w] m IH]; cbn [map_get map snd]; [discriminate|].
  destruct (String.eqb k key).
  - intros [= ->]. apply list_elem_of_here.
  - intros Hget. apply list_elem_of_further, IH, Hget.
Qed.

(** A channel id without a colon makes the key unambiguous. *)
Lemma channel_key_inj (a b a' b' : string) :
  has_colon a = false -> has_colon a' = false ->
  channel_key a b = channel_key a' b' -> a = a' /\ b = b'.
Proof.
  unfold channel_key. revert a'.
  induction a as [|c a IH]; intros [|c' a'] Ha Ha' Heq;
    cbn [has_colon] in Ha, Ha';
    repeat (progress change (String ?c ?s +:+ ?t) with (String c (s +:+ t)) in Heq);
    repeat (progress change ("" +:+ ?t) with t in Heq).
  - injection Heq as ->. auto.
  - injection Heq as <- _. discriminate.
  - injection Heq as -> _. discriminate.
  - apply orb_false_elim in Ha as [_ Ha], Ha' as [_ Ha'].
    injection Heq as -> Hrest. destruct (IH a' Ha Ha' Hrest) as [-> ->]. auto.
Qed.

(** A registered adapter is found under its channel id and account id, and
    under the channel id alone when its account is "default"; it is among
    the adapters that [getChannels] lists.  A later
    registration under the same pair replaces it where it stands; one under
    another pair leaves it alone, provided the channel ids carry no colon.
    The keys stay distinct. *)
Theorem registered_channel_found (g : Gateway) (adapter other : ChannelAdapter) :
  getChannel (registerChannel adapter g) (c_id adapter) (Some (c_accountId adapter))
  = Some adapter
  /\ adapter ∈ getChannels (registerChannel adapter g)
  /\ (c_accountId adapter = "default" ->
      getChannel (registerChannel adapter g) (c_id adapter) None = Some adapter)
  /\ (has_colon (c_id adapter) = false -> has_colon (c_id other) = false ->
      (c_id other, c_accountId other) <> (c_id adapter, c_accountId adapter) ->
      getChannel (registerChannel other (registerChannel adapter g))
                 (c_id adapter) (Some (c_accountId adapter))
      = Some adapter)
  /\ ((c_id other, c_accountId other) = (c_id adapter, c_accountId adapter) ->
      getChannel (registerChannel other (registerChannel adapter g))
                 (c_id adapter) (Some (c_accountId adapter)) = Some other
      /\ map fst (channels (registerChannel other (registerChannel adapter g)))
         = map fst (channels (registerChannel adapter g)))
  /\ (NoDup (map fst (channels g)) ->
      NoDup (map fst (channels (registerChannel adapter g)))).
Proof.
  unfold getChannel, getChannels, registerChannel. cbn [channels].
  split_and!.
  - apply map_get_set_same.
  - eapply map_get_values, map_get_set_same.
  - intros <-. apply map_get_set_same.
  - intros Hadapter Hother Hne.
    rewrite map_get_set_other; [apply map_get_set_same|].
    intros [Hid Hacc]%channel_key_inj; [|assumption|assumption].
    apply Hne. congruence.
  - intros [= -> ->]. split; [apply map_get_set_same|].
    rewrite (map_set_keys _ other), bool_decide_eq_true_2; [reflexivity|].
    apply map_set_key_in.
  - intros Hnodup. rewrite map_set_keys. case_bool_decide as Hin; [exact Hnodup|].
    apply NoDup_app. split_and!; [exact Hnodup| |apply NoDup_singleton].
    intros x Hx ->%list_elem_of_singleton. contradiction.
Qed.

Lemma registered_channel_found_witness :
  getChannel small_gateway "telegram" None = Some telegram_main.
Proof.
  refine (proj1 (proj2 (proj2 (proj2 (registered_channel_found
                                 {| router := createRouter
                                                [telegram_any; telegram_group42] "home";
                                    channels := [] |}
                                 telegram_main slack_play)))) eq_refl eq_refl _).
  discriminate.
Defined.

(** The rule by which the gateway routes a message fits the message: it is
    for the message's channel; a peer rule names the chat the message came
    from, which is not the empty string, and its kind, group for a message
    flagged as from a group and dm otherwise; an account rule names the
    account of the message or, when the message carries none, that of the
    adapter.  The message goes to the agent of the rule if the agent manager
    knows it, and is answered with an error text otherwise; when the manager
    knows every agent the router can name, every message is forwarded. *)
Theorem gateway_routes_by_rule (g : Gateway) (getAgent : string -> bool)
    (msg : InboundMessage) (adapter : ChannelAdapter) :
  let result := route (router g) (routing_context msg adapter) in
  (forall b, matchedBinding result = Some b ->
     m_channel (match_ b) = msg_channel msg
     /\ (forall p, m_peer (match_ b) = Some p ->
           p_id p = msg_chatId msg /\ msg_chatId msg <> ""
           /\ p_kind p = if msg_isGroup msg then group else dm)
     /\ (truthy (m_accountId (match_ b)) = true ->
         m_accountId (match_ b)
         = if truthy (msg_accountId msg) then msg_accountId msg
           else Some (c_accountId adapter))
     /\ r_agentId result = agentId b)
  /\ (getAgent (r_agentId result) = true ->
      handleMessage g getAgent msg adapter = Forward (r_agentId result))
  /\ (getAgent (r_agentId result) = false ->
      exists m, handleMessage g getAgent msg adapter = Answer m
                /\ o_chatId m = msg_chatId msg
                /\ o_threadId m = msg_threadId msg)
  /\ ((forall id, In id (getRoutedAgentIds (router g)) -> getAgent id = true) ->
      handleMessage g getAgent msg adapter = Forward (r_agentId result)).
Proof.
  intros result. subst result. unfold handleMessage. split_and!.
  - intros b Hb.
    destruct (route_loop_Some _ _ _ (route_matched _ _ _ Hb))
      as (pre & b0 & post & _ & _ & Hlvl & Hm & Hid).
    assert (b0 = b) as -> by congruence.
    destruct (getMatchLevel_inv _ _ _ Hlvl) as (Hchannel & Hpeer & Hacc).
    split_and!; [exact Hchannel| |exact Hacc|exact Hid].
    intros p Hp. destruct (Hpeer p Hp) as (Htruthy & [= Hid'] & [= Hkind]).
    split_and!; [exact Hid'| |exact Hkind].
    intros Hempty. cbn [routing_context peerId] in Htruthy.
    rewrite Hempty in Htruthy. discriminate.
  - intros ->. reflexivity.
  - intros ->. eexists. split_and!; reflexivity.
  - intros Hknown. rewrite Hknown; [reflexivity|apply routed_agent_listed].
Qed.

Lemma gateway_routes_by_rule_witness :
  handleMessage small_gateway (fun id => bool_decide (id ∈ ["home"; "work"]))
                from_group42 telegram_main
  = Forward "work".
Proof.
  exact (proj1 (proj2 (gateway_routes_by_rule small_gateway
                         (fun id => bool_decide (id ∈ ["home"; "work"]))
                         from_group42 telegram_main)) eq_refl).
Defined.

Section Validated.
Variable homedir : string.
Variable join : list string -> string.

(** No configuration drift in a validated configuration: when the
    configuration passes [validateConfig], the router is built from the
    normalized bindings with the default agent's id, and the agent manager
    knows every agent of the normalized configuration, the gateway forwards
    every message to one of these agents and never answers that an agent was
    not found. *)
Theorem validated_gateway_forwards (config : LettaBotConfig)
    (n : NormalizedConfig) (a : AgentConfig)
    (adapters : list (string * ChannelAdapter)) (getAgent : string -> bool)
    (msg : InboundMessage) (adapter : ChannelAdapter) :
  validateConfig config = [] ->
  normalizeConfig homedir join config = Some n ->
  defaultAgent (n_list n) = Some a ->
  (forall agent, In agent (n_list n) -> getAgent (a_id agent) = true) ->
  let g := {| router := createRouter (n_bindings n) (a_id a);
              channels := adapters |} in
  exists agent,
    In agent (n_list n)
    /\ handleMessage g getAgent msg adapter = Forward (a_id agent).
Proof.
  intros Hvalid Hn Hdflt Hknown g.
  destruct (validated_known homedir join config n a Hvalid Hn Hdflt)
    as (_ & Hall & Ha & _).
  set (ctx := routing_context msg adapter).
  assert (Hrouted : r_agentId (route (router g) ctx) ∈ map a_id (n_list n)).
  { destruct (route_agent_cases (n_bindings n) (a_id a) ctx)
      as [Hd|(b & Hin & Hb)]; subst g; cbn [router].
    - rewrite Hd. exact Ha.
    - rewrite Hb. rewrite List.Forall_forall in Hall. auto. }
  apply list_elem_of_In, in_map_iff in Hrouted as (agent & Hid & Hin).
  exists agent. split; [exact Hin|].
  unfold handleMessage. fold ctx. rewrite <- Hid, (Hknown agent Hin).
  reflexivity.
Qed.

End Validated.

Lemma validated_gateway_forwards_witness :
  exists agent,
    In agent match normalizeConfig "/home/bot" slash declared_agents with
             | Some n => n_list n
             | None => []
             end
    /\ handleMessage
         {| router := createRouter
                        match normalizeConfig "/home/bot" slash declared_agents with
                        | Some n => n_bindings n
                        | None => []
                        end "home";
            channels := [] |}
         (fun id => bool_decide (id ∈ ["home"; "work"]))
         from_group42 telegram_main
       = Forward (a_id agent).
Proof.
  refine (validated_gateway_forwards "/home/bot" slash declared_agents _ _ []
            (fun id => bool_decide (id ∈ ["home"; "work"]))
            from_group42 telegram_main eq_refl eq_refl eq_refl _).
  intros agent [<-|[<-|[]]]; reflexivity.
Defined.

End GatewayFacts.
